(** * Resilient content-acquisition pipeline of the style-guide server

  A shallow embedding of the rate limiter, the resource manager, the
  circuit breaker, the retry handler, the memory manager and the cached
  HTTP client, with the properties their specification states.

  Conventions.  JavaScript numbers that hold counters and millisecond
  timestamps are integers ([Z]); the ratios and averages of the resource
  manager and the monitors are rationals ([Q]); the delays of the retry
  handler, which the code multiplies, jitters and rounds down, are IEEE 754
  doubles ([spec_float], 53 bits of precision).  Every read of
  [Date.now()] is an
  explicit argument, one for all the reads of a step that runs without
  suspension.  A [Map] keyed by strings is a [gmap string _]; where
  the code iterates a [Map] in insertion order it is an association list.
  An [async] function is cut at its [await]s: the code between two
  suspension points is one atomic step of an event-driven machine.
  Calls to the file system succeed. *)

From Stdlib Require Import ZArith QArith Qround Qpower Lia Lqa Ascii SpecFloat.
From stdpp Require Import gmap strings list fin_maps pretty sorting.

Local Open Scope Z_scope.

(** ** rate-limiting/index.ts : RateLimiter *)

Module RateLimiter.

Record RateLimitConfig := {
  windowMs : Z;
  maxRequests : Z;
  keyGenerator : option (string -> string);
}.

Record RateLimitResult := {
  allowed : bool;
  remaining : Z;
  resetTime : Z;
  retryAfter : option Z;
}.

(** [Math.ceil(x / 1000)] on a millisecond count. *)
Definition ceil_seconds (ms : Z) : Z := Qceiling (inject_Z ms / inject_Z 1000).

Definition key_of (cfg : RateLimitConfig) (identifier : string) : string :=
  match keyGenerator cfg with
  | Some g => g identifier
  | None => identifier
  end.

(** [timestamps.filter(timestamp => timestamp > windowStart)] *)
Definition in_window (windowStart : Z) (timestamps : list Z) : list Z :=
  filter (fun timestamp => windowStart < timestamp) timestamps.

(** [isAllowed]: the private field [requests] is threaded through. *)
Definition isAllowed (requests : gmap string (list Z)) (now : Z)
    (identifier : string) (cfg : RateLimitConfig)
    : RateLimitResult * gmap string (list Z) :=
  let windowStart := now - windowMs cfg in
  let key := key_of cfg identifier in
  let timestamps := default [] (requests !! key) in
  let timestamps := in_window windowStart timestamps in
  let allowed := Z.of_nat (length timestamps) <? maxRequests cfg in
  let timestamps' := if allowed then timestamps ++ [now] else timestamps in
  let requests' := if allowed then <[key := timestamps']> requests else requests in
  ({| allowed := allowed;
      remaining := Z.max 0 (maxRequests cfg - Z.of_nat (length timestamps'));
      resetTime := now + windowMs cfg;
      retryAfter := if allowed then None else Some (ceil_seconds (windowMs cfg)) |},
   requests').


(** A limit of three requests a minute, for examples. *)
Definition sliding_window_example : RateLimitConfig :=
  {| windowMs := 60000; maxRequests := 3; keyGenerator := None |}.

(** [cleanup], run every minute; [configWindowMs] is
    [config.security.rateLimiting.windowMs].  Each key is treated on its
    own: deleted when nothing is left after the cutoff, rewritten when
    something was dropped, left alone otherwise. *)
Definition cleanup (configWindowMs now : Z) (requests : gmap string (list Z))
    : gmap string (list Z) :=
  let maxWindow := Z.max configWindowMs 300000 in
  let cutoff := now - maxWindow in
  omap (fun timestamps =>
          let filtered := in_window cutoff timestamps in
          if decide (length filtered = O) then None
          else if decide (length filtered < length timestamps)%nat then Some filtered
          else Some timestamps) requests.

(** [getStats] *)
Definition getStats (requests : gmap string (list Z)) : nat * nat :=
  (size requests, map_fold (fun _ timestamps total => (total + length timestamps)%nat) O requests).

(** [reset(identifier?)]: an absent or empty identifier clears every key. *)
Definition reset (identifier : option string) (requests : gmap string (list Z))
    : gmap string (list Z) :=
  match identifier with
  | Some id => if decide (id = EmptyString) then ∅ else delete id requests
  | None => ∅
  end.




End RateLimiter.


(** ** rate-limiting/index.ts : ResourceManager *)

Module ResourceManager.

Record ResourceLimit := {
  maxMemoryUsage : Q;            (* in MB *)
  maxCpuUsage : Q;
  maxConcurrentOperations : Z;
  maxFileSize : Z;
  maxDatabaseConnections : Z;
}.

Record ResourceMetrics := {
  memoryUsage : Q;
  cpuUsage : Q;
  activeConnections : Z;
  concurrentOperations : Z;
  diskUsage : Q;
  uptime : Z;
}.

Record t := {
  metrics : ResourceMetrics;
  activeOperations : gset string;
  connectionCount : Z;
  startTimestamp : Z;
}.

(** The constructor: every metric starts at zero. *)
Definition new (now : Z) : t :=
  {| metrics := {| memoryUsage := 0%Q; cpuUsage := 0%Q; activeConnections := 0;
                   concurrentOperations := 0; diskUsage := 0%Q; uptime := 0 |};
     activeOperations := ∅;
     connectionCount := 0;
     startTimestamp := now |}.

Definition getResourceLimits : ResourceLimit :=
  {| maxMemoryUsage := inject_Z 512;
     maxCpuUsage := inject_Z 80;
     maxConcurrentOperations := 100;
     maxFileSize := 10 * 1024 * 1024;
     maxDatabaseConnections := 20 |}.

(** [updateMetrics], run by a 5-second interval timer; [heapUsed] is what
    [process.memoryUsage()] reports, in bytes. *)
Definition updateMetrics (heapUsed : Z) (now : Z) (rm : t) : t :=
  {| metrics :=
       {| memoryUsage := inject_Z heapUsed / inject_Z 1024 / inject_Z 1024;
          cpuUsage := cpuUsage (metrics rm);
          activeConnections := connectionCount rm;
          concurrentOperations := Z.of_nat (size (activeOperations rm));
          diskUsage := diskUsage (metrics rm);
          uptime := now - startTimestamp rm |};
     activeOperations := activeOperations rm;
     connectionCount := connectionCount rm;
     startTimestamp := startTimestamp rm |}.

(** [a > b] on rationals. *)
Definition Qgt_bool (a b : Q) : bool := negb (Qle_bool a b).

Definition checkResourceAvailability (rm : t) : bool :=
  let limits := getResourceLimits in
  if Qgt_bool (memoryUsage (metrics rm)) (maxMemoryUsage limits) then false
  else if maxConcurrentOperations limits <=? concurrentOperations (metrics rm) then false
  else true.

Definition with_activeOperations (ops : gset string) (rm : t) : t :=
  {| metrics := metrics rm; activeOperations := ops;
     connectionCount := connectionCount rm; startTimestamp := startTimestamp rm |}.

(** [executeWithResourceLimit] up to the start of the operation: [None] is
    the thrown "Resource limits exceeded" error, otherwise the operation id
    (built from the name, the clock and a random suffix, here given) joins
    the set of active operations. *)
Definition executeWithResourceLimit_admit (operationId : string) (rm : t) : option t :=
  if negb (checkResourceAvailability rm) then None
  else Some (with_activeOperations ({[operationId]} ∪ activeOperations rm) rm).

(** The [finally] block of [executeWithResourceLimit], reached when the
    operation or its timeout settles. *)
Definition executeWithResourceLimit_finally (operationId : string) (rm : t) : t :=
  with_activeOperations (activeOperations rm ∖ {[operationId]}) rm.

(** Operation ids for examples. *)
Definition op_id (n : nat) : string := String.append "op_" (pretty n).

Fixpoint admit_all (ids : list string) (rm : t) : option t :=
  match ids with
  | [] => Some rm
  | id :: ids' =>
      match executeWithResourceLimit_admit id rm with
      | Some rm' => admit_all ids' rm'
      | None => None
      end
  end.

(** A manager on which a hundred operations were admitted between two
    samples of the metrics, for examples. *)
Definition hundred_admitted : option t :=
  admit_all (op_id <$> seq 0 100) (new 0).

(** [incrementConnections], [decrementConnections] *)
Definition with_connectionCount (n : Z) (rm : t) : t :=
  {| metrics := metrics rm; activeOperations := activeOperations rm;
     connectionCount := n; startTimestamp := startTimestamp rm |}.

Definition incrementConnections (rm : t) : t :=
  with_connectionCount (connectionCount rm + 1) rm.

Definition decrementConnections (rm : t) : t :=
  with_connectionCount (Z.max 0 (connectionCount rm - 1)) rm.

(** A connection being opened ([true]) or closed ([false]). *)
Fixpoint connections (opens : list bool) (rm : t) : t :=
  match opens with
  | [] => rm
  | true :: rest => connections rest (incrementConnections rm)
  | false :: rest => connections rest (decrementConnections rm)
  end.

(** Every prefix closes no more connections than it opened. *)
Fixpoint well_paired (depth : Z) (opens : list bool) : Prop :=
  match opens with
  | [] => True
  | true :: rest => well_paired (depth + 1) rest
  | false :: rest => 1 <= depth ∧ well_paired (depth - 1) rest
  end.

Definition validateFileSize (size : Z) (rm : t) : bool :=
  let limits := getResourceLimits in
  if maxFileSize limits <? size then false else true.

Inductive health := healthy | warning | critical.

Definition getHealthStatus (rm : t) : health :=
  let limits := getResourceLimits in
  let memoryRatio := (memoryUsage (metrics rm) / maxMemoryUsage limits)%Q in
  let opsRatio :=
    (inject_Z (concurrentOperations (metrics rm))
     / inject_Z (maxConcurrentOperations limits))%Q in
  if Qgt_bool memoryRatio (95 # 100) || Qgt_bool opsRatio (95 # 100) then critical
  else if Qgt_bool memoryRatio (8 # 10) || Qgt_bool opsRatio (8 # 10) then warning
  else healthy.

(** Connections opened minus connections closed. *)
Fixpoint net_opened (opens : list bool) : Z :=
  match opens with
  | [] => 0
  | true :: rest => 1 + net_opened rest
  | false :: rest => net_opened rest - 1
  end.

(** A manager whose last sample read a hundred running operations. *)
Definition saturated : t :=
  updateMetrics 0 5000 (default (new 0) hundred_admitted).

End ResourceManager.

(** ** errors/index.ts : errors, CircuitBreaker, RetryHandler *)

Module Errors.

Inductive ErrorType :=
| VALIDATION | AUTHENTICATION | AUTHORIZATION | NOT_FOUND | RATE_LIMIT
| EXTERNAL_SERVICE | DATABASE | NETWORK | TIMEOUT | INTERNAL | BUSINESS.

Inductive ErrorSeverity := LOW | MEDIUM | HIGH | CRITICAL.

#[global] Instance ErrorType_eq_dec : EqDecision ErrorType.
Proof. solve_decision. Defined.

Record EnterpriseError := {
  message : string;
  type : ErrorType;
  severity : ErrorSeverity;
  retryable : bool;
  userMessage : string;
}.

(** A thrown value: an [EnterpriseError], or any other error object, of
    which the code reads [code], [name] and [message]. *)
Inductive error :=
| Enterprise (e : EnterpriseError)
| Native (code name msg : string).

(** The error thrown by [CircuitBreaker.execute] while the circuit is open. *)
Definition circuit_open_error (name : string) : error :=
  Enterprise {| message := String.append "Circuit breaker " (String.append name " is OPEN");
                type := EXTERNAL_SERVICE; severity := HIGH; retryable := false;
                userMessage := "Service temporarily unavailable. Please try again later." |}.

(** The error thrown by the rate-limit middleware on a denied request. *)
Definition rate_limited_error (retryAfter : string) : error :=
  Enterprise {| message := "Rate limit exceeded";
                type := RATE_LIMIT; severity := MEDIUM; retryable := false;
                userMessage := String.append "Rate limit exceeded. Please try again in "
                                 (String.append retryAfter " seconds.") |}.

(** The error thrown by [executeWithResourceLimit] when admission fails. *)
Definition resource_exhausted_error (operation : string) : error :=
  Enterprise {| message := String.append "Resource limits exceeded for operation: " operation;
                type := RATE_LIMIT; severity := HIGH; retryable := false;
                userMessage := "System is currently under heavy load. Please try again later." |}.

(** The error with which the timeout of [executeWithResourceLimit] rejects. *)
Definition operation_timeout_error (operation : string) : error :=
  Enterprise {| message := String.append "Operation timeout: " operation;
                type := TIMEOUT; severity := HIGH; retryable := false;
                userMessage := "Operation timed out. Please try again." |}.

End Errors.

Module CircuitBreaker.
Import Errors.

Inductive CircuitState := CLOSED | OPEN | HALF_OPEN.

#[global] Instance CircuitState_eq_dec : EqDecision CircuitState.
Proof. solve_decision. Defined.

Record CircuitBreakerConfig := {
  failureThreshold : Z;
  resetTimeout : Z;
  monitoringPeriod : Z;
}.

Record t := {
  name : string;
  config : CircuitBreakerConfig;
  state : CircuitState;
  failureCount : Z;
  lastFailureTime : option Z;
  successCount : Z;
}.

Definition new (name : string) (config : CircuitBreakerConfig) : t :=
  {| name := name; config := config; state := CLOSED; failureCount := 0;
     lastFailureTime := None; successCount := 0 |}.

Definition shouldAttemptReset (now : Z) (cb : t) : bool :=
  match lastFailureTime cb with
  | None => false
  | Some last =>
      let timeSinceLastFailure := now - last in
      resetTimeout (config cb) <=? timeSinceLastFailure
  end.

Definition onSuccess (cb : t) : t :=
  if decide (state cb = HALF_OPEN) then
    let successCount' := successCount cb + 1 in
    if 3 <=? successCount' then
      {| name := name cb; config := config cb; state := CLOSED; failureCount := 0;
         lastFailureTime := lastFailureTime cb; successCount := 0 |}
    else
      {| name := name cb; config := config cb; state := HALF_OPEN; failureCount := 0;
         lastFailureTime := lastFailureTime cb; successCount := successCount' |}
  else
    {| name := name cb; config := config cb; state := state cb; failureCount := 0;
       lastFailureTime := lastFailureTime cb; successCount := successCount cb |}.

Definition onFailure (now : Z) (cb : t) : t :=
  let failureCount' := failureCount cb + 1 in
  if decide (state cb = HALF_OPEN) then
    {| name := name cb; config := config cb; state := OPEN; failureCount := failureCount';
       lastFailureTime := Some now; successCount := 0 |}
  else if failureThreshold (config cb) <=? failureCount' then
    {| name := name cb; config := config cb; state := OPEN; failureCount := failureCount';
       lastFailureTime := Some now; successCount := successCount cb |}
  else
    {| name := name cb; config := config cb; state := state cb; failureCount := failureCount';
       lastFailureTime := Some now; successCount := successCount cb |}.

Definition reset (cb : t) : t :=
  {| name := name cb; config := config cb; state := CLOSED; failureCount := 0;
     lastFailureTime := None; successCount := 0 |}.

(** The first statement of [execute]: [None] when the call is refused
    because the circuit is open, otherwise the breaker with which the
    operation is attempted. *)
Definition gate (now : Z) (cb : t) : option t :=
  if decide (state cb = OPEN) then
    if shouldAttemptReset now cb then
      Some {| name := name cb; config := config cb; state := HALF_OPEN;
              failureCount := failureCount cb; lastFailureTime := lastFailureTime cb;
              successCount := successCount cb |}
    else None
  else Some cb.

(** What the awaited operation does once it is invoked. *)
Inductive attempt (T : Type) :=
| Succeeds (v : T)
| Fails (e : error).
Arguments Succeeds {T} v.
Arguments Fails {T} e.

Record run (T : Type) := {
  breaker : t;          (* the breaker after the call *)
  invoked : bool;       (* whether [operation()] was called *)
  outcome : attempt T;  (* returned value or thrown error *)
}.
Arguments breaker {T} r.
Arguments invoked {T} r.
Arguments outcome {T} r.

(** [execute], for a call entered at time [now] whose operation, if it is
    invoked, settles as [operation] at time [settled]. *)
Definition execute {T} (now : Z) (operation : attempt T) (settled : Z) (cb : t) : run T :=
  match gate now cb with
  | None =>
      {| breaker := cb; invoked := false; outcome := Fails (circuit_open_error (name cb)) |}
  | Some cb1 =>
      match operation with
      | Succeeds v =>
          {| breaker := onSuccess cb1; invoked := true; outcome := Succeeds v |}
      | Fails e =>
          {| breaker := onFailure settled cb1; invoked := true; outcome := Fails e |}
      end
  end.

(** The breaker states the code can produce; the two halves of [execute]
    are separate steps, so calls that overlap in time are covered. *)
Inductive reachable (nm : string) (cfg : CircuitBreakerConfig) : t -> Prop :=
| reach_new : reachable nm cfg (new nm cfg)
| reach_gate cb cb' now :
    reachable nm cfg cb -> gate now cb = Some cb' -> reachable nm cfg cb'
| reach_success cb : reachable nm cfg cb -> reachable nm cfg (onSuccess cb)
| reach_failure cb now : reachable nm cfg cb -> reachable nm cfg (onFailure now cb)
| reach_reset cb : reachable nm cfg cb -> reachable nm cfg (reset cb).

(** A breaker with the threshold of the specification, for examples. *)
Definition example_config : CircuitBreakerConfig :=
  {| failureThreshold := 3; resetTimeout := 60000; monitoringPeriod := 10000 |}.

(** Calls made one after the other, each given by its entry time, what
    its operation does and when that settles; the result tells, call by
    call, whether the operation was invoked. *)
Fixpoint calls {T} (cs : list (Z * attempt T * Z)) (cb : t) : t * list bool :=
  match cs with
  | [] => (cb, [])
  | (now, operation, settled) :: rest =>
      let r := execute now operation settled cb in
      let '(cb', invocations) := calls rest (breaker r) in
      (cb', invoked r :: invocations)
  end.

(** No run of consecutive failures in [cs], continuing a run of length
    [run], reaches [threshold]. *)
Fixpoint runs_below {T} (threshold run : Z) (cs : list (Z * attempt T * Z)) : Prop :=
  match cs with
  | [] => True
  | (_, Succeeds _, _) :: rest => runs_below threshold 0 rest
  | (_, Fails _, _) :: rest => run + 1 < threshold ∧ runs_below threshold (run + 1) rest
  end.

(** The length of the run of failures that ends [cs], continuing [run]. *)
Fixpoint final_run {T} (run : Z) (cs : list (Z * attempt T * Z)) : Z :=
  match cs with
  | [] => run
  | (_, Succeeds _, _) :: rest => final_run 0 rest
  | (_, Fails _, _) :: rest => final_run (run + 1) rest
  end.

End CircuitBreaker.

(** ** IEEE 754 doubles, for the delays of the retry handler *)

Module Double.

Definition prec : Z := 53.
Definition emax : Z := 1024.

Definition mul : spec_float -> spec_float -> spec_float := SFmul prec emax.
Definition add : spec_float -> spec_float -> spec_float := SFadd prec emax.
Definition sub : spec_float -> spec_float -> spec_float := SFsub prec emax.

(** The double nearest to an integer; below [2^53] it is the integer. *)
Definition of_Z (z : Z) : spec_float := binary_normalize prec emax z 0 false.

Definition one : spec_float := of_Z 1.
Definition two : spec_float := of_Z 2.
(** [0.25] *)
Definition quarter : spec_float := binary_round prec emax false 1 (-2).

(** [Math.min(a, b)]: [NaN] when either is, and [-0] before [+0]. *)
Definition Math_min (a b : spec_float) : spec_float :=
  match SFcompare a b with
  | None => S754_nan
  | Some Lt => a
  | Some Gt => b
  | Some Eq => match a with S754_zero true => a | _ => b end
  end.

(** [Math.floor(x)] *)
Definition Math_floor (x : spec_float) : spec_float :=
  match x with
  | S754_finite s m e =>
      let value := cond_Zopp s (Zpos m) in
      binary_normalize prec emax
        (if 0 <=? e then value * 2 ^ e else value / 2 ^ (- e)) 0 s
  | _ => x
  end.

(** The rational number a finite double stands for. *)
Definition dyadic (k e : Z) : Q := (inject_Z k * 2 ^ e)%Q.

Definition to_Q (x : spec_float) : Q :=
  match x with
  | S754_finite s m e => dyadic (cond_Zopp s (Zpos m)) e
  | _ => 0%Q
  end.

Definition is_finite (x : spec_float) : bool :=
  match x with
  | S754_finite _ _ _ | S754_zero _ => true
  | _ => false
  end.

(** What [Math.random()] returns: a double that is at least 0 and less
    than 1. *)
Definition unit_interval (random : spec_float) : Prop :=
  match random with
  | S754_zero false => True
  | S754_finite false m e =>
      bounded prec emax m e = true ∧ Zpos (digits2_pos m) + e <= 0
  | _ => False
  end.

(** [2^n] as a double, for [n] from 0 on: [Infinity] from [2^1024] on. *)
Definition pow_two (n : Z) : spec_float :=
  if n <? 1024 then S754_finite false 4503599627370496 (n - 52)
  else S754_infinity false.

(** [Math.pow] is left to the implementation but for its special values;
    what is asked of it here is that the powers of 2 are exact. *)
Definition pow_of_two (Math_pow : spec_float -> Z -> spec_float) : Prop :=
  forall n, 0 <= n -> Math_pow two n = pow_two n.

Definition pow_pos (x : spec_float) (p : positive) : spec_float :=
  match x with
  | S754_finite s m e =>
      binary_round prec emax (s && Z.odd (Zpos p)) (Pos.pow m p) (e * Zpos p)
  | S754_zero s => S754_zero (s && Z.odd (Zpos p))
  | S754_infinity s => S754_infinity (s && Z.odd (Zpos p))
  | S754_nan => S754_nan
  end.

(** A [Math.pow] for whole exponents: the power rounded once for the
    exponents above 0, and 1 divided by it for those below. *)
Definition pow_exact (x : spec_float) (n : Z) : spec_float :=
  match n with
  | Z0 => one
  | Zpos p => pow_pos x p
  | Zneg p => SFdiv prec emax one (pow_pos x p)
  end.

(** [0.5] *)
Definition half : spec_float := binary_round prec emax false 1 (-1).

(** The double of a whole number below [2^53]: its digits, moved up to
    fill the 53 of the significand. *)
Definition significand (b : Z) : positive := Z.to_pos (b * 2 ^ (53 - Zdigits2 b)).

End Double.

(** ** errors/index.ts : RetryHandler *)

Module RetryHandler.
Import Errors.

Record RetryConfig := {
  maxAttempts : Z;
  baseDelay : spec_float;
  maxDelay : spec_float;
  backoffMultiplier : spec_float;
  retryableErrors : list ErrorType;
  jitter : bool;
}.

(** The defaults of the constructor. *)
Definition default_config : RetryConfig :=
  {| maxAttempts := 3; baseDelay := Double.of_Z 1000; maxDelay := Double.of_Z 30000;
     backoffMultiplier := Double.two;
     retryableErrors := [NETWORK; TIMEOUT; EXTERNAL_SERVICE; DATABASE];
     jitter := true |}.

Definition shouldRetry (cfg : RetryConfig) (e : error) : bool :=
  match e with
  | Enterprise e =>
      bool_decide (type e ∈ retryableErrors cfg) && retryable e
  | Native code name _ =>
      bool_decide (code = "ECONNRESET") || bool_decide (code = "ECONNREFUSED")
      || bool_decide (code = "ETIMEDOUT") || bool_decide (name = "TimeoutError")
  end.

(** [Math_pow base exponent] is [Math.pow], at the whole exponents
    [attempt - 1] the code calls it with. *)
Section Delay.
Variable Math_pow : spec_float -> Z -> spec_float.

(** The delay of [calculateDelay] before jitter is applied. *)
Definition clampedDelay (cfg : RetryConfig) (attempt : Z) : spec_float :=
  let delay := Double.mul (baseDelay cfg) (Math_pow (backoffMultiplier cfg) (attempt - 1)) in
  Double.Math_min delay (maxDelay cfg).

(** [calculateDelay]; [random] is the value of [Math.random()]. *)
Definition calculateDelay (cfg : RetryConfig) (random : spec_float) (attempt : Z)
    : spec_float :=
  let delay := clampedDelay cfg attempt in
  let delay :=
    if jitter cfg then
      let jitter :=
        Double.mul (Double.mul delay Double.quarter)
                   (Double.sub (Double.mul random Double.two) Double.one) in
      Double.add delay jitter
    else delay in
  Double.Math_floor delay.

End Delay.

Inductive step := Attempt (attempt : Z) | Sleep (ms : spec_float).

Inductive result (T : Type) :=
| Returned (v : T)
| Thrown (lastError : option error).
Arguments Returned {T} v.
Arguments Thrown {T} lastError.

Section Execute.
Context {T : Type}.
Variable Math_pow : spec_float -> Z -> spec_float.
Variable cfg : RetryConfig.
(** [operation n] is what the [n]-th call of the operation does, and
    [random n] the random number drawn after the [n]-th attempt. *)
Variable operation : Z -> CircuitBreaker.attempt T.
Variable random : Z -> spec_float.

(** The [for] loop of [execute] from the iteration [attempt] on, of which
    [remaining] are left before [attempt <= maxAttempts] fails.  The result
    lists the calls of the operation and the sleeps, in order. *)
Fixpoint attempts (remaining : nat) (attempt : Z) (lastError : option error)
    : list step * result T :=
  match remaining with
  | O => ([], Thrown lastError)
  | S remaining' =>
      match operation attempt with
      | CircuitBreaker.Succeeds v => ([Attempt attempt], Returned v)
      | CircuitBreaker.Fails e =>
          if attempt =? maxAttempts cfg then ([Attempt attempt], Thrown (Some e))
          else if negb (shouldRetry cfg e) then ([Attempt attempt], Thrown (Some e))
          else
            let delay := calculateDelay Math_pow cfg (random attempt) attempt in
            let '(steps, r) := attempts remaining' (attempt + 1) (Some e) in
            (Attempt attempt :: Sleep delay :: steps, r)
      end
  end.

Definition execute : list step * result T :=
  attempts (Z.to_nat (maxAttempts cfg)) 1 None.

End Execute.

(** The failures that are to reach the caller at once, as the code throws
    them: circuit open, rate limit exceeded, resource limits exceeded,
    operation timeout. *)
Inductive surfaced : error -> Prop :=
| surfaced_circuit_open name : surfaced (circuit_open_error name)
| surfaced_rate_limited retryAfter : surfaced (rate_limited_error retryAfter)
| surfaced_resource_exhausted operation : surfaced (resource_exhausted_error operation)
| surfaced_operation_timeout operation : surfaced (operation_timeout_error operation).

(** What [execute] does over [n] failed attempts that are retried, the
    first of them numbered [attempt]. *)
Fixpoint retried (Math_pow : spec_float -> Z -> spec_float) (cfg : RetryConfig)
    (random : Z -> spec_float) (n : nat) (attempt : Z) : list step :=
  match n with
  | O => []
  | S n' =>
      Attempt attempt :: Sleep (calculateDelay Math_pow cfg (random attempt) attempt)
        :: retried Math_pow cfg random n' (attempt + 1)
  end.

(** The configuration of the backoff example of the specification. *)
Definition backoff_example : RetryConfig :=
  {| maxAttempts := 8; baseDelay := Double.of_Z 1000; maxDelay := Double.of_Z 10000;
     backoffMultiplier := Double.two;
     retryableErrors := [NETWORK; TIMEOUT; EXTERNAL_SERVICE; DATABASE];
     jitter := true |}.

(** The double [0.09999999999999999], a value of [Math.random()]. *)
Definition below_tenth : spec_float := S754_finite false 7205759403792793 (-56).

(** An operation that loses its connection once and then finds the
    circuit open. *)
Definition reset_then_open (attempt : Z) : CircuitBreaker.attempt string :=
  if attempt =? 1 then CircuitBreaker.Fails (Native "ECONNRESET" "Error" "socket hang up")
  else CircuitBreaker.Fails (circuit_open_error "docs").

(** [execute] for an operation that reads and changes a state [St] of its
    own (a circuit breaker, a counter): the same loop, the state passed
    from each attempt to the next. *)
Section ExecuteIn.
Context {T St : Type}.
Variable Math_pow : spec_float -> Z -> spec_float.
Variable cfg : RetryConfig.
Variable operation : Z -> St -> CircuitBreaker.attempt T * St.
Variable random : Z -> spec_float.

Fixpoint attempts_in (remaining : nat) (attempt : Z) (lastError : option error) (s : St)
    : list step * result T * St :=
  match remaining with
  | O => ([], Thrown lastError, s)
  | S remaining' =>
      let '(out, s1) := operation attempt s in
      match out with
      | CircuitBreaker.Succeeds v => ([Attempt attempt], Returned v, s1)
      | CircuitBreaker.Fails e =>
          if attempt =? maxAttempts cfg then ([Attempt attempt], Thrown (Some e), s1)
          else if negb (shouldRetry cfg e) then ([Attempt attempt], Thrown (Some e), s1)
          else
            let delay := calculateDelay Math_pow cfg (random attempt) attempt in
            let '(steps, r, s2) := attempts_in remaining' (attempt + 1) (Some e) s1 in
            (Attempt attempt :: Sleep delay :: steps, r, s2)
      end
  end.

Definition execute_in (s : St) : list step * result T * St :=
  attempts_in (Z.to_nat (maxAttempts cfg)) 1 None s.

End ExecuteIn.

End RetryHandler.

(** ** memory/memory-manager.ts : MemoryManager *)

Module MemoryManager.

Section Store.
Context {T : Type}.
(** [estimateSize] measures the JSON rendering of the value. *)
Variable estimateSize : T -> Z.

Record CacheEntry := {
  data : T;
  timestamp : Z;
  accessCount : Z;
  lastAccessed : Z;
  size : Z;
}.

(** One named cache: a [Map] in insertion order. *)
Fixpoint entries_get (key : string) (cache : list (string * CacheEntry)) : option CacheEntry :=
  match cache with
  | [] => None
  | (k, e) :: rest => if decide (k = key) then Some e else entries_get key rest
  end.

Fixpoint entries_set (key : string) (entry : CacheEntry) (cache : list (string * CacheEntry))
    : list (string * CacheEntry) :=
  match cache with
  | [] => [(key, entry)]
  | (k, e) :: rest =>
      if decide (k = key) then (k, entry) :: rest else (k, e) :: entries_set key entry rest
  end.

Fixpoint entries_delete (key : string) (cache : list (string * CacheEntry))
    : list (string * CacheEntry) :=
  match cache with
  | [] => []
  | (k, e) :: rest =>
      if decide (k = key) then rest else (k, e) :: entries_delete key rest
  end.

Definition maxCacheAge : Z := 30 * 60 * 1000.

(** [evictLRU]: the scan keeps the first entry whose [lastAccessed] is
    strictly below everything seen so far, starting from the clock; the
    final test [if (oldestKey)] is false for the empty key as well. *)
Definition evictLRU (now : Z) (cache : list (string * CacheEntry)) : list (string * CacheEntry) :=
  let scan :=
    fold_left
      (fun (acc : option string * Z) (kv : string * CacheEntry) =>
         if lastAccessed (snd kv) <? snd acc
         then (Some (fst kv), lastAccessed (snd kv)) else acc)
      cache (None, now) in
  match fst scan with
  | Some oldestKey => if decide (oldestKey = EmptyString) then cache else entries_delete oldestKey cache
  | None => cache
  end.

(** [setCache]; the parameter [ttl] is received and not used by the body. *)
Definition setCache (cacheName key : string) (value : T) (ttl : Z) (now : Z)
    (caches : gmap string (list (string * CacheEntry)))
    : gmap string (list (string * CacheEntry)) :=
  let cache := default [] (caches !! cacheName) in
  let size := estimateSize value in
  let cache := if 1000 <=? Z.of_nat (length cache) then evictLRU now cache else cache in
  <[cacheName :=
      entries_set key
        {| data := value; timestamp := now; accessCount := 0; lastAccessed := now; size := size |}
        cache]> caches.

Definition getCache (cacheName key : string) (now : Z)
    (caches : gmap string (list (string * CacheEntry)))
    : option T * gmap string (list (string * CacheEntry)) :=
  match caches !! cacheName with
  | None => (None, caches)
  | Some cache =>
      match entries_get key cache with
      | None => (None, caches)
      | Some entry =>
          if maxCacheAge <? now - timestamp entry then
            (None, <[cacheName := entries_delete key cache]> caches)
          else
            (Some (data entry),
             <[cacheName :=
                 entries_set key
                   {| data := data entry; timestamp := timestamp entry;
                      accessCount := accessCount entry + 1; lastAccessed := now;
                      size := size entry |} cache]> caches)
      end
  end.

(** [cleanupExpiredEntries], run every 30 seconds. *)
Definition cleanupExpiredEntries (now : Z)
    (caches : gmap string (list (string * CacheEntry)))
    : gmap string (list (string * CacheEntry)) :=
  (fun cache =>
     filter (fun kv : string * CacheEntry => ¬ (maxCacheAge < now - timestamp kv.2)) cache)
  <$> caches.

(** [clearCache] and [clearAllCaches]; [aggressiveCleanup] and [shutdown]
    clear every cache in the same way. *)
Definition clearCache (cacheName : string)
    (caches : gmap string (list (string * CacheEntry)))
    : gmap string (list (string * CacheEntry)) :=
  alter (fun _ => []) cacheName caches.

Definition clearAllCaches (caches : gmap string (list (string * CacheEntry)))
    : gmap string (list (string * CacheEntry)) :=
  (fun _ => []) <$> caches.

End Store.


(** Three entries, the second and third accessed least recently. *)
Definition three_entries : list (string * CacheEntry (T:=string)) :=
  [("a", {| data := "A"; timestamp := 1; accessCount := 2; lastAccessed := 5; size := 6 |});
   ("b", {| data := "B"; timestamp := 2; accessCount := 0; lastAccessed := 3; size := 6 |});
   ("c", {| data := "C"; timestamp := 3; accessCount := 0; lastAccessed := 3; size := 6 |})].

End MemoryManager.

(** ** http/cached-client.ts : CachedHttpClient *)

Module CachedHttpClient.

Record CacheEntry := {
  data : string;
  timestamp : Z;
  url : string;
}.

(** [avgResponseTime] is [totalResponseTime / requestCount] and is not
    stored separately here. *)
Record RequestStats := {
  requestCount : Z;
  cacheHits : Z;
  totalResponseTime : Z;
  errors : Z;
}.

Record RetryOptions := {
  maxRetries : Z;
  retryDelay : Z;
  maxRetryDelay : Z;
  backoffMultiplier : Z;
  retryableErrors : list string;
}.

Definition retryOptions : RetryOptions :=
  {| maxRetries := 3; retryDelay := 1000; maxRetryDelay := 10000; backoffMultiplier := 2;
     retryableErrors :=
       ["ECONNRESET"; "ETIMEDOUT"; "ECONNREFUSED"; "EHOSTUNREACH"; "EPIPE"; "ENOTFOUND"] |}.

(** [s.includes(sub)] *)
Fixpoint includes (s sub : string) : bool :=
  if String.prefix sub s then true
  else match s with
       | EmptyString => false
       | String _ s' => includes s' sub
       end.

(** How a promise settles. *)
Inductive outcome :=
| Fulfilled (payload : string)
| Rejected (message : string).

(** What one transport request ([node-fetch]) comes back with: a response
    with its body, or a thrown error with its message. *)
Inductive response :=
| Response (ok : bool) (status : Z) (statusText : string) (text : string)
| NetworkError (message : string).

(** The [try] block of [fetchWithRetry]: the body, or the message of the
    error that reaches the [catch]. *)
Definition attempt_result (resp : response) : string + string :=
  match resp with
  | NetworkError message => inr message
  | Response ok status statusText text =>
      if negb ok then
        inr (String.append "HTTP "
               (String.append (pretty status) (String.append ": " statusText)))
      else if String.eqb text EmptyString then inr "Empty response received"
      else inl text
  end.

Definition isRetryable (errorMessage : string) : bool :=
  existsb (fun retryableError => includes errorMessage retryableError)
          (retryableErrors retryOptions)
  || includes errorMessage "timeout".

(** The delay [fetchWithRetry] sleeps after the failed attempt [attempt]. *)
Definition retry_delay (attempt : Z) : Z :=
  Z.min (retryDelay retryOptions * backoffMultiplier retryOptions ^ (attempt - 1))
        (maxRetryDelay retryOptions).

(** One activation of [performRequest] together with the promise it
    returns: the attempt of [fetchWithRetry] it is in, and whether it waits
    for the transport, sleeps before a retry, or has settled. *)
Inductive phase :=
| AwaitingTransport
| Sleeping (delay : Z)
| Settled (o : outcome).

Record request := {
  r_url : string;
  r_key : string;
  r_start : Z;
  r_attempt : Z;
  r_phase : phase;
}.

(** One invocation of [fetch]: the branch it took before its first
    suspension, and what it returned to its caller once it did. *)
Inductive role :=
| Invalid
| CacheHit
| Owner (p : nat)
| Deduplicated (p : nat).

Record call := {
  c_url : string;
  c_start : Z;
  c_role : role;
  c_result : option outcome;
}.

(** The client: its fields, the cache files, the promises and invocations
    alive in the event loop, and the log of transport requests (each with
    the [performRequest] activation that issued it). *)
Record client := {
  cache : gmap string CacheEntry;
  disk : gmap string CacheEntry;
  requestStats : gmap string RequestStats;
  activeRequests : gmap string nat;
  requests : list request;
  calls : list call;
  transport : list (nat * string);
}.

Definition updateRequestStats (url : string) (responseTime : Z) (fromCache error : bool)
    (stats : gmap string RequestStats) : gmap string RequestStats :=
  match stats !! url with
  | Some existing =>
      <[url := {| requestCount := requestCount existing + 1;
                  cacheHits := cacheHits existing + (if fromCache then 1 else 0);
                  totalResponseTime := totalResponseTime existing + responseTime;
                  errors := errors existing + (if error then 1 else 0) |}]> stats
  | None =>
      <[url := {| requestCount := 1;
                  cacheHits := if fromCache then 1 else 0;
                  totalResponseTime := responseTime;
                  errors := if error then 1 else 0 |}]> stats
  end.

Definition settled (r : request) : option outcome :=
  match r_phase r with
  | Settled o => Some o
  | _ => None
  end.

Definition with_phase (ph : phase) (r : request) : request :=
  {| r_url := r_url r; r_key := r_key r; r_start := r_start r;
     r_attempt := r_attempt r; r_phase := ph |}.

Definition with_result (o : outcome) (cl : call) : call :=
  {| c_url := c_url cl; c_start := c_start cl; c_role := c_role cl; c_result := Some o |}.

Section Client.
(** [getCacheKey] is the SHA-256 digest of the URL in hexadecimal. *)
Variable getCacheKey : string -> string.
(** [config.caching.enabled] and [config.caching.ttl] *)
Variable caching_enabled : bool.
Variable caching_ttl : Z.

(** The constructor: [loadCacheFromDisk] keeps the cache files younger than
    the TTL and unlinks the others. *)
Definition new (now : Z) (files : gmap string CacheEntry) : client :=
  let valid := filter (fun kv => now - timestamp (snd kv) < caching_ttl) files in
  {| cache := valid; disk := valid; requestStats := ∅; activeRequests := ∅;
     requests := []; calls := []; transport := [] |}.

(** [fetch] from the call of [performRequest] to [await requestPromise]:
    [performRequest] runs up to the first transport request of
    [fetchWithRetry], and its promise is registered under the cache key. *)
Definition startRequest (u key : string) (startTime : Z) (c : client) : client :=
  let p := length (requests c) in
  {| cache := cache c; disk := disk c; requestStats := requestStats c;
     activeRequests := <[key := p]> (activeRequests c);
     requests := requests c ++
       [{| r_url := u; r_key := key; r_start := startTime; r_attempt := 1;
           r_phase := AwaitingTransport |}];
     calls := calls c ++
       [{| c_url := u; c_start := startTime; c_role := Owner p; c_result := None |}];
     transport := transport c ++ [(p, u)] |}.

Definition removeExpired (key : string) (c : client) : client :=
  {| cache := delete key (cache c); disk := delete key (disk c);
     requestStats := requestStats c; activeRequests := activeRequests c;
     requests := requests c; calls := calls c; transport := transport c |}.

Definition push_call (cl : call) (stats : gmap string RequestStats) (c : client) : client :=
  {| cache := cache c; disk := disk c; requestStats := stats;
     activeRequests := activeRequests c; requests := requests c;
     calls := calls c ++ [cl]; transport := transport c |}.

(** [fetch(url)] entered at time [now], up to its first suspension or its
    return. *)
Definition fetch_call (u : string) (now : Z) (c : client) : client :=
  if decide (u = EmptyString) then
    push_call {| c_url := u; c_start := now; c_role := Invalid;
                 c_result := Some (Rejected "Invalid URL provided") |}
              (requestStats c) c
  else
    let startTime := now in
    let cacheKey := getCacheKey u in
    match activeRequests c !! cacheKey with
    | Some p =>
        push_call {| c_url := u; c_start := startTime; c_role := Deduplicated p;
                     c_result := None |} (requestStats c) c
    | None =>
        match cache c !! cacheKey with
        | Some cachedEntry =>
            if caching_enabled then
              let cacheAge := now - timestamp cachedEntry in
              if cacheAge <? caching_ttl then
                push_call {| c_url := u; c_start := startTime; c_role := CacheHit;
                             c_result := Some (Fulfilled (data cachedEntry)) |}
                          (updateRequestStats u (now - startTime) true false (requestStats c)) c
              else startRequest u cacheKey startTime (removeExpired cacheKey c)
            else startRequest u cacheKey startTime c
        | None => startRequest u cacheKey startTime c
        end
    end.

(** The transport request of activation [p] comes back at time [now]:
    [fetchWithRetry] returns the body, goes to sleep before a retry, or
    rethrows; in the first and last case [performRequest] runs to its end
    and settles the promise. *)
Definition transport_reply (p : nat) (resp : response) (now : Z) (c : client) : client :=
  match requests c !! p with
  | Some r =>
      match r_phase r with
      | AwaitingTransport =>
          match attempt_result resp with
          | inl text =>
              let responseTime := now - r_start r in
              let store := caching_enabled && negb (String.eqb text EmptyString) in
              let entry := {| data := text; timestamp := now; url := r_url r |} in
              {| cache := if store then <[r_key r := entry]> (cache c) else cache c;
                 disk := if store then <[r_key r := entry]> (disk c) else disk c;
                 requestStats :=
                   updateRequestStats (r_url r) responseTime false false (requestStats c);
                 activeRequests := activeRequests c;
                 requests := <[p := with_phase (Settled (Fulfilled text)) r]> (requests c);
                 calls := calls c; transport := transport c |}
          | inr errorMessage =>
              if isRetryable errorMessage && (r_attempt r <? maxRetries retryOptions) then
                {| cache := cache c; disk := disk c; requestStats := requestStats c;
                   activeRequests := activeRequests c;
                   requests := <[p := with_phase (Sleeping (retry_delay (r_attempt r))) r]>
                                 (requests c);
                   calls := calls c; transport := transport c |}
              else
                let responseTime := now - r_start r in
                {| cache := cache c; disk := disk c;
                   requestStats :=
                     updateRequestStats (r_url r) responseTime false true (requestStats c);
                   activeRequests := activeRequests c;
                   requests :=
                     <[p := with_phase
                              (Settled (Rejected
                                 (String.append "Network error fetching "
                                    (String.append (r_url r)
                                       (String.append ": " errorMessage))))) r]>
                       (requests c);
                   calls := calls c; transport := transport c |}
          end
      | _ => c
      end
  | None => c
  end.

(** The sleep of activation [p] ends: [fetchWithRetry] calls itself with
    the next attempt number and issues a new transport request. *)
Definition wake (p : nat) (c : client) : client :=
  match requests c !! p with
  | Some r =>
      match r_phase r with
      | Sleeping _ =>
          {| cache := cache c; disk := disk c; requestStats := requestStats c;
             activeRequests := activeRequests c;
             requests :=
               <[p := {| r_url := r_url r; r_key := r_key r; r_start := r_start r;
                         r_attempt := r_attempt r + 1; r_phase := AwaitingTransport |}]>
                 (requests c);
             calls := calls c;
             transport := transport c ++ [(p, r_url r)] |}
      | _ => c
      end
  | None => c
  end.

(** The suspended invocation [cid] of [fetch] is resumed, which happens
    once the promise it awaits has settled: the owner runs its [finally],
    a deduplicated call updates the statistics when the promise fulfilled. *)
Definition resume (cid : nat) (now : Z) (c : client) : client :=
  match calls c !! cid with
  | Some cl =>
      match c_result cl, c_role cl with
      | None, Owner p =>
          match requests c !! p ≫= settled with
          | Some o =>
              {| cache := cache c; disk := disk c; requestStats := requestStats c;
                 activeRequests := delete (getCacheKey (c_url cl)) (activeRequests c);
                 requests := requests c;
                 calls := <[cid := with_result o cl]> (calls c);
                 transport := transport c |}
          | None => c
          end
      | None, Deduplicated p =>
          match requests c !! p ≫= settled with
          | Some o =>
              {| cache := cache c; disk := disk c;
                 requestStats :=
                   match o with
                   | Fulfilled _ =>
                       updateRequestStats (c_url cl) (now - c_start cl) true false
                                          (requestStats c)
                   | Rejected _ => requestStats c
                   end;
                 activeRequests := activeRequests c;
                 requests := requests c;
                 calls := <[cid := with_result o cl]> (calls c);
                 transport := transport c |}
          | None => c
          end
      | _, _ => c
      end
  | None => c
  end.

(** [cleanupCache], run hourly: every cached entry older than the TTL
    leaves the map and its file is unlinked. *)
Definition is_expired (now : Z) (cached : option CacheEntry) : bool :=
  match cached with
  | Some entry => caching_ttl <? now - timestamp entry
  | None => false
  end.

Definition cleanupCache (now : Z) (c : client) : client :=
  {| cache := filter (fun kv => is_expired now (Some (snd kv)) = false) (cache c);
     disk := filter (fun kv => is_expired now (cache c !! fst kv) = false) (disk c);
     requestStats := requestStats c; activeRequests := activeRequests c;
     requests := requests c; calls := calls c; transport := transport c |}.

(** The public [clearCache]. *)
Definition clearCache (c : client) : client :=
  {| cache := ∅; disk := ∅; requestStats := requestStats c;
     activeRequests := activeRequests c; requests := requests c; calls := calls c;
     transport := transport c |}.

(** What the event loop can do next with the client. *)
Inductive event :=
| Call (u : string) (now : Z)
| Reply (p : nat) (resp : response) (now : Z)
| Wake (p : nat)
| Resume (cid : nat) (now : Z)
| Cleanup (now : Z)
| Clear.

Definition step (e : event) (c : client) : client :=
  match e with
  | Call u now => fetch_call u now c
  | Reply p resp now => transport_reply p resp now c
  | Wake p => wake p c
  | Resume cid now => resume cid now c
  | Cleanup now => cleanupCache now c
  | Clear => clearCache c
  end.

Definition run (events : list event) (c : client) : client :=
  fold_left (fun c e => step e c) events c.

(** A call is attached to the [performRequest] activation whose promise
    it awaits: its own, or the one it found registered. *)
Definition attached (cl : call) (p : nat) : Prop :=
  c_role cl = Owner p ∨ c_role cl = Deduplicated p.

(** The number of transport requests activation [p] has issued. *)
Definition attempts_made (p : nat) (c : client) : nat :=
  length (filter (fun x : nat * string => x.1 = p) (transport c)).

(** What every state of the event loop satisfies. *)
Record invariant (c : client) : Prop := {
  inv_owner_active : forall cid cl p,
    calls c !! cid = Some cl -> c_role cl = Owner p -> c_result cl = None ->
    activeRequests c !! getCacheKey (c_url cl) = Some p;
  inv_owner_unique : forall cid1 cid2 cl1 cl2 p,
    calls c !! cid1 = Some cl1 -> calls c !! cid2 = Some cl2 ->
    c_role cl1 = Owner p -> c_role cl2 = Owner p -> cid1 = cid2;
  inv_attached_bound : forall cid cl p,
    calls c !! cid = Some cl -> attached cl p -> (p < length (requests c))%nat;
  inv_key : forall p r,
    requests c !! p = Some r -> r_key r = getCacheKey (r_url r);
  inv_pending_active : forall p r,
    requests c !! p = Some r -> settled r = None ->
    activeRequests c !! r_key r = Some p;
  inv_returned : forall cid cl p o,
    calls c !! cid = Some cl -> attached cl p -> c_result cl = Some o ->
    requests c !! p ≫= settled = Some o;
  inv_attempts : forall p r,
    requests c !! p = Some r ->
    Z.of_nat (attempts_made p c) = r_attempt r ∧
    1 <= r_attempt r <= maxRetries retryOptions ∧
    (forall d, r_phase r = Sleeping d -> r_attempt r < maxRetries retryOptions);
  inv_transport : forall p u,
    (p, u) ∈ transport c -> exists r, requests c !! p = Some r ∧ r_url r = u;
  inv_active_request : forall key p,
    activeRequests c !! key = Some p ->
    exists r, requests c !! p = Some r ∧ r_key r = key;
}.


(** Every registration belongs to a suspended owner: a call that started
    the request, has not returned, and will delete the registration when
    it is resumed. *)
Definition owned_registrations (c : client) : Prop :=
  forall key p, activeRequests c !! key = Some p ->
    exists cid cl, calls c !! cid = Some cl ∧ c_role cl = Owner p ∧
      c_result cl = None ∧ getCacheKey (c_url cl) = key.

End Client.

(** Two callers ask for the same guide while the first request is in
    flight; the first transport attempt times out and the second succeeds.
    The cache key is the URL itself here. *)
Definition guide : string := "https://example.org/style-guide".

Definition retried_run : list event :=
  [Call guide 0; Call guide 1;
   Reply 0 (NetworkError "connect ETIMEDOUT 93.184.216.34:443") 30000;
   Wake 0;
   Reply 0 (Response true 200 "OK" "# Style guide") 31500;
   Resume 0 31500; Resume 1 31500].

(** A client whose cache holds the guide, stored at time 0. *)
Definition guide_entry : CacheEntry :=
  {| data := "# Style guide"; timestamp := 0; url := guide |}.

Definition cached_guide : client :=
  {| cache := {[guide := guide_entry]};
     disk := {[guide := guide_entry]};
     requestStats := ∅; activeRequests := ∅; requests := []; calls := []; transport := [] |}.

(** [getCacheSize] and [getCacheStats]: the number of entries, the hit
    rate over all URLs and the total number of requests. *)
Definition getCacheSize (c : client) : nat := size (cache c).

Definition totalRequests (stats : gmap string RequestStats) : Z :=
  foldr (fun stat sum => sum + requestCount stat) 0 (map_to_list stats).*2.

Definition totalCacheHits (stats : gmap string RequestStats) : Z :=
  foldr (fun stat sum => sum + cacheHits stat) 0 (map_to_list stats).*2.

Definition hitRate (c : client) : Q :=
  if 0 <? totalRequests (requestStats c)
  then (inject_Z (totalCacheHits (requestStats c)) / inject_Z (totalRequests (requestStats c)))%Q
  else 0%Q.

(** What the counters of one URL satisfy. *)
Definition stat_ok (stat : RequestStats) : Prop :=
  1 <= requestCount stat ∧ 0 <= cacheHits stat ∧ 0 <= errors stat ∧
  cacheHits stat + errors stat <= requestCount stat.

(** How a request can have settled: with a payload that is not empty, or
    with the message of [performRequest]. *)
Definition settled_shape (r : request) : Prop :=
  match r_phase r with
  | Settled (Fulfilled payload) => payload ≠ EmptyString
  | Settled (Rejected message) =>
      exists errorMessage,
        message = String.append "Network error fetching "
                    (String.append (r_url r) (String.append ": " errorMessage))
  | _ => True
  end.

(** The transport answers the request [p] three times, the request waking
    from its sleep in between. *)
Definition three_replies (p : nat) (resp1 resp2 resp3 : response) (t1 t2 t3 : Z)
    : list event :=
  [Reply p resp1 t1; Wake p; Reply p resp2 t2; Wake p; Reply p resp3 t3].

End CachedHttpClient.

(** ** http/cached-client.ts : CachedHttpClient.fetchBatch *)

Module FetchBatch.
Import CachedHttpClient.

(** A worker is one activation of [fetchWithSemaphore].  Its promise
    ([this.fetch(url).finally(...)]) is named by the index of the worker.
    It first awaits [Promise.race] of the promises found in the semaphore,
    then awaits its own fetch; it ends with its entry recorded, or by
    throwing when the race it awaited rejected. *)
Inductive stage :=
| AwaitingSlot (raced : list nat)
| AwaitingFetch (slotIndex : option nat)
| Done (o : outcome)
| Crashed (message : string).

Record worker := {
  w_url : string;
  w_stage : stage;
}.

(** [settledLog] lists the worker promises that have settled, oldest first. *)
Record batch := {
  results : gmap string string;
  semaphore : list (option nat);
  workers : list worker;
  settledLog : list (nat * outcome);
}.

(** [semaphore.filter(p => p !== null)] *)
Definition occupied (semaphore : list (option nat)) : list nat := omap id semaphore.

(** [semaphore.findIndex(p => p === null)]; [None] stands for [-1]. *)
Fixpoint findIndex_null (semaphore : list (option nat)) : option nat :=
  match semaphore with
  | [] => None
  | None :: _ => Some O
  | Some _ :: rest => S <$> findIndex_null rest
  end.

(** [semaphore[slotIndex] = v]; writing at [-1] adds a property to the
    array and changes none of its elements. *)
Definition set_slot (slotIndex : option nat) (v : option nat)
    (semaphore : list (option nat)) : list (option nat) :=
  match slotIndex with
  | Some i => <[i := v]> semaphore
  | None => semaphore
  end.

(** The synchronous start of [fetchBatch]: every worker runs up to its
    first [await], in the order of [urls]. *)
Definition fetchBatch_start (urls : list string) (concurrency : nat) : batch :=
  let semaphore := replicate concurrency None in
  {| results := ∅;
     semaphore := semaphore;
     workers := (fun u => {| w_url := u; w_stage := AwaitingSlot (occupied semaphore) |}) <$> urls;
     settledLog := [] |}.

(** [Promise.race(raced)]: it settles like the first of its members to
    settle; over no member at all it stays pending for ever. *)
Definition race (b : batch) (raced : list nat) : option outcome :=
  snd <$> head (filter (fun jo => fst jo ∈ raced) (settledLog b)).

Definition with_stage (st : stage) (w : worker) : worker :=
  {| w_url := w_url w; w_stage := st |}.

(** Worker [i] is resumed from its first [await]: it throws if the race
    rejected, and otherwise takes the first free slot and calls [fetch]. *)
Definition proceed (i : nat) (b : batch) : batch :=
  match workers b !! i with
  | Some w =>
      match w_stage w with
      | AwaitingSlot raced =>
          match race b raced with
          | Some (Fulfilled _) =>
              let slotIndex := findIndex_null (semaphore b) in
              {| results := results b;
                 semaphore := set_slot slotIndex (Some i) (semaphore b);
                 workers := <[i := with_stage (AwaitingFetch slotIndex) w]> (workers b);
                 settledLog := settledLog b |}
          | Some (Rejected message) =>
              {| results := results b; semaphore := semaphore b;
                 workers := <[i := with_stage (Crashed message) w]> (workers b);
                 settledLog := settledLog b |}
          | None => b
          end
      | _ => b
      end
  | None => b
  end.

(** The fetch of worker [i] settles: the [finally] callback frees the slot
    and the [try]/[catch] records the payload, or the empty string. *)
Definition fetch_settled (i : nat) (o : outcome) (b : batch) : batch :=
  match workers b !! i with
  | Some w =>
      match w_stage w with
      | AwaitingFetch slotIndex =>
          {| results :=
               match o with
               | Fulfilled result => <[w_url w := result]> (results b)
               | Rejected _ => <[w_url w := EmptyString]> (results b)
               end;
             semaphore := set_slot slotIndex None (semaphore b);
             workers := <[i := with_stage (Done o) w]> (workers b);
             settledLog := settledLog b ++ [(i, o)] |}
      | _ => b
      end
  | None => b
  end.

Inductive event :=
| Proceed (i : nat)
| FetchSettled (i : nat) (o : outcome).

Definition step (e : event) (b : batch) : batch :=
  match e with
  | Proceed i => proceed i b
  | FetchSettled i o => fetch_settled i o b
  end.

Definition run (events : list event) (b : batch) : batch :=
  fold_left (fun b e => step e b) events b.

Definition is_done (w : worker) : bool :=
  match w_stage w with Done _ => true | _ => false end.

Definition crash (w : worker) : option string :=
  match w_stage w with Crashed message => Some message | _ => None end.

(** [await Promise.all(...)] followed by [return results]: the batch
    rejects as soon as a worker has thrown, returns the map once every
    worker is done, and is pending otherwise. *)
Definition fetchBatch_result (b : batch) : option (gmap string string + string) :=
  match head (omap crash (workers b)) with
  | Some message => Some (inr message)
  | None => if forallb is_done (workers b) then Some (inl (results b)) else None
  end.

(** Ten sources, for examples. *)
Definition ten_sources : list string :=
  (fun n : nat => String.append "https://example.org/guide/" (pretty n)) <$> seq 0 10.

(** Every worker of a batch waits on a race with no member. *)
Definition all_waiting (b : batch) : Prop :=
  Forall (fun w => w_stage w = AwaitingSlot []) (workers b).

(** [preloadCache(urls)]: a batch with three slots inside a [try] whose
    [catch] only logs; it returns once the batch has settled, either way. *)
Definition preloadCache_start (urls : list string) : batch := fetchBatch_start urls 3.

Definition preloadCache_result (b : batch) : option unit :=
  match fetchBatch_result b with
  | Some _ => Some tt
  | None => None
  end.

End FetchBatch.

(** ** rate-limiting/index.ts : RateLimitMiddleware *)

Module RateLimitMiddleware.
Import Errors.

(** [Partial<RateLimitConfig>] *)
Record PartialRateLimitConfig := {
  p_windowMs : option Z;
  p_maxRequests : option Z;
  p_keyGenerator : option (string -> string);
}.

(** The configuration [createMiddleware] builds: the configured window
    and limit, overridden by the fields given. *)
Definition rateConfig (configWindowMs configMaxRequests : Z)
    (rateLimitConfig : option PartialRateLimitConfig) : RateLimiter.RateLimitConfig :=
  match rateLimitConfig with
  | None =>
      {| RateLimiter.windowMs := configWindowMs;
         RateLimiter.maxRequests := configMaxRequests;
         RateLimiter.keyGenerator := None |}
  | Some over =>
      {| RateLimiter.windowMs := default configWindowMs (p_windowMs over);
         RateLimiter.maxRequests := default configMaxRequests (p_maxRequests over);
         RateLimiter.keyGenerator := p_keyGenerator over |}
  end.

(** The function [createMiddleware] returns, applied to an identifier:
    the result of the limiter, or the thrown error. *)
Definition middleware (cfg : RateLimiter.RateLimitConfig)
    (requests : gmap string (list Z)) (now : Z) (identifier : string)
    : (error + RateLimiter.RateLimitResult) * gmap string (list Z) :=
  let '(result, requests') := RateLimiter.isAllowed requests now identifier cfg in
  if RateLimiter.allowed result then (inr result, requests')
  else
    (inl (rate_limited_error
            (match RateLimiter.retryAfter result with
             | Some seconds => pretty seconds
             | None => "undefined"
             end)),
     requests').

(** [withRateLimit] up to the start of the operation: the error thrown, if
    any, and the limiter and the resource manager afterwards. *)
Definition withRateLimit_admit (cfg : RateLimiter.RateLimitConfig)
    (requests : gmap string (list Z)) (rm : ResourceManager.t)
    (now : Z) (identifier operationId : string)
    : option error * gmap string (list Z) * ResourceManager.t :=
  match middleware cfg requests now identifier with
  | (inl e, requests') => (Some e, requests', rm)
  | (inr _, requests') =>
      match ResourceManager.executeWithResourceLimit_admit operationId rm with
      | None =>
          (Some (resource_exhausted_error (String.append "rate_limited_" identifier)),
           requests', rm)
      | Some rm' => (None, requests', rm')
      end
  end.

End RateLimitMiddleware.

(** ** errors/index.ts : ErrorHandler *)

Module ErrorHandler.
Import Errors.

(** [convertToEnterpriseError], which reads the name and the message of
    the error; an absent user message is the empty string. *)
Definition convertToEnterpriseError (name msg : string) : EnterpriseError :=
  if decide (name = "ValidationError") then
    {| message := msg; type := VALIDATION; severity := MEDIUM; retryable := false;
       userMessage := "Invalid input provided" |}
  else if decide (name = "TimeoutError") then
    {| message := "Operation timed out"; type := TIMEOUT; severity := HIGH;
       retryable := true; userMessage := "Operation timed out. Please try again" |}
  else if CachedHttpClient.includes msg "ENOTFOUND"
          || CachedHttpClient.includes msg "ECONNREFUSED" then
    {| message := "Network connection failed"; type := NETWORK; severity := HIGH;
       retryable := true; userMessage := "Network connection failed. Please try again" |}
  else
    {| message := msg; type := INTERNAL; severity := MEDIUM; retryable := false;
       userMessage := EmptyString |}.

(** [handleError] on an error object. *)
Definition handleError (e : error) : EnterpriseError :=
  match e with
  | Enterprise e => e
  | Native _ name msg => convertToEnterpriseError name msg
  end.

(** The breaker [withCircuitBreaker] creates for a name it does not know. *)
Definition default_breaker (name : string) : CircuitBreaker.t :=
  CircuitBreaker.new name
    {| CircuitBreaker.failureThreshold := 5; CircuitBreaker.resetTimeout := 60000;
       CircuitBreaker.monitoringPeriod := 30000 |}.

(** [withCircuitBreaker] on the registry of breakers. *)
Definition withCircuitBreaker {T} (circuitBreakers : gmap string CircuitBreaker.t)
    (circuitBreakerName : string) (now : Z) (operation : CircuitBreaker.attempt T)
    (settled : Z) : CircuitBreaker.run T * gmap string CircuitBreaker.t :=
  let circuitBreaker :=
    match circuitBreakers !! circuitBreakerName with
    | Some cb => cb
    | None => default_breaker circuitBreakerName
    end in
  let r := CircuitBreaker.execute now operation settled circuitBreaker in
  (r, <[circuitBreakerName := CircuitBreaker.breaker r]> circuitBreakers).

(** [withCircuitBreakerAndRetry]: the retry loop around the breaker.  The
    [n]-th attempt enters the breaker at [enter n]; its operation, if it is
    invoked, does [operation n] and settles at [settle n].  The state
    passed along is the registry and the number of invocations of the
    operation. *)
Definition withCircuitBreakerAndRetry {T} (Math_pow : spec_float -> Z -> spec_float)
    (cfg : RetryHandler.RetryConfig)
    (circuitBreakerName : string) (enter settle : Z -> Z)
    (operation : Z -> CircuitBreaker.attempt T) (random : Z -> spec_float)
    (circuitBreakers : gmap string CircuitBreaker.t)
    : list RetryHandler.step * RetryHandler.result T
      * (gmap string CircuitBreaker.t * nat) :=
  RetryHandler.execute_in Math_pow cfg
    (fun attempt (s : gmap string CircuitBreaker.t * nat) =>
       let '(r, registry) :=
         withCircuitBreaker s.1 circuitBreakerName (enter attempt) (operation attempt)
                            (settle attempt) in
       (CircuitBreaker.outcome r,
        (registry, if CircuitBreaker.invoked r then S s.2 else s.2)))
    random (circuitBreakers, O).

(** A circuit that opened at time 1000, registered under its name. *)
Definition tripped : CircuitBreaker.t :=
  {| CircuitBreaker.name := "docs";
     CircuitBreaker.config := CircuitBreaker.example_config;
     CircuitBreaker.state := CircuitBreaker.OPEN;
     CircuitBreaker.failureCount := 3;
     CircuitBreaker.lastFailureTime := Some 1000;
     CircuitBreaker.successCount := 0 |}.

End ErrorHandler.

(** ** monitoring/index.ts : HealthChecker *)

Module HealthChecker.

Inductive HealthStatus := HEALTHY | DEGRADED | UNHEALTHY | CRITICAL.

Inductive CheckType :=
| DATABASE | EXTERNAL_API | MEMORY | DISK_SPACE | CPU | CACHE | SECURITY.

(** [timestamp] and [details] are left out. *)
Record HealthCheck := {
  name : string;
  type : CheckType;
  status : HealthStatus;
  message : string;
  duration : Z;
}.

(** [check.status === s] *)
Definition has_status (s : HealthStatus) (check : HealthCheck) : bool :=
  match s, status check with
  | HEALTHY, HEALTHY | DEGRADED, DEGRADED | UNHEALTHY, UNHEALTHY | CRITICAL, CRITICAL => true
  | _, _ => false
  end.

Definition getOverallHealthStatus (checks : list HealthCheck) : HealthStatus :=
  if existsb (has_status CRITICAL) checks then CRITICAL
  else if existsb (has_status UNHEALTHY) checks then UNHEALTHY
  else if existsb (has_status DEGRADED) checks then DEGRADED
  else HEALTHY.

(** What a registered check function does when it is called: it returns a
    report or throws. *)
Inductive check_run :=
| Returns (check : HealthCheck)
| Throws (errorMessage : string).

(** [this.checks], a [Map] in insertion order. *)
Definition checks_get (checks : list (string * check_run)) (checkName : string)
    : option check_run :=
  snd <$> head (filter (fun kv => fst kv = checkName) checks).

Definition addCheck (checkName : string) (checkFn : check_run)
    (checks : list (string * check_run)) : list (string * check_run) :=
  if bool_decide (checkName ∈ checks.*1)
  then (fun kv => if bool_decide (fst kv = checkName) then (checkName, checkFn) else kv)
         <$> checks
  else checks ++ [(checkName, checkFn)].

Definition removeCheck (checkName : string) (checks : list (string * check_run))
    : list (string * check_run) :=
  filter (fun kv => fst kv ≠ checkName) checks.

(** [runHealthCheck]: [inr] is the error thrown for an unknown name. *)
Definition runHealthCheck (checks : list (string * check_run)) (checkName : string)
    : HealthCheck + string :=
  match checks_get checks checkName with
  | None => inr (String.append "Health check not found: " checkName)
  | Some (Returns check) => inl check
  | Some (Throws errorMessage) =>
      inl {| name := checkName; type := DATABASE; status := CRITICAL;
             message := String.append "Health check failed: " errorMessage;
             duration := 0 |}
  end.

Definition runAllHealthChecks (checks : list (string * check_run)) : list HealthCheck :=
  omap (fun kv => match runHealthCheck checks (fst kv) with
                  | inl result => Some result
                  | inr _ => None
                  end) checks.

(** [getHealthStatus]: the overall status and the reports. *)
Definition getHealthStatus (checks : list (string * check_run))
    : HealthStatus * list HealthCheck :=
  let results := runAllHealthChecks checks in
  (getOverallHealthStatus results, results).

(** The default check named [resources], over the resource manager. *)
Definition health_name (resourceHealth : ResourceManager.health) : string :=
  match resourceHealth with
  | ResourceManager.healthy => "healthy"
  | ResourceManager.warning => "warning"
  | ResourceManager.critical => "critical"
  end.

Definition resourcesCheck (rm : ResourceManager.t) (elapsed : Z) : HealthCheck :=
  let resourceHealth := ResourceManager.getHealthStatus rm in
  {| name := "resources"; type := CPU;
     status := match resourceHealth with
               | ResourceManager.critical => CRITICAL
               | ResourceManager.warning => DEGRADED
               | ResourceManager.healthy => HEALTHY
               end;
     message := String.append "Resource status: " (health_name resourceHealth);
     duration := elapsed |}.

(** The default check named [database]: the connection test is a stub
    that returns [true]. *)
Definition databaseCheck (elapsed : Z) : HealthCheck :=
  {| name := "database"; type := DATABASE; status := HEALTHY;
     message := "Database connection successful"; duration := elapsed |}.

(** How bad a status is: the order in which [getOverallHealthStatus]
    looks for them, the worst first. *)
Definition severity (s : HealthStatus) : nat :=
  match s with
  | HEALTHY => 0
  | DEGRADED => 1
  | UNHEALTHY => 2
  | CRITICAL => 3
  end.

(** The checks of a server whose resource manager refuses work, and of
    one whose cache check throws. *)
Definition saturated_checks : list (string * check_run) :=
  addCheck "resources" (Returns (resourcesCheck ResourceManager.saturated 2))
    (addCheck "database" (Returns (databaseCheck 1)) []).

Definition failing_checks : list (string * check_run) :=
  addCheck "cache" (Throws "connect ECONNREFUSED 127.0.0.1:6379")
    (addCheck "database" (Returns (databaseCheck 1)) []).

End HealthChecker.

(** ** monitoring/index.ts : MetricsCollector *)

Module MetricsCollector.

Record t := {
  counters : gmap string Z;
  gauges : gmap string Z;
  histograms : gmap string (list Z);
  timers : gmap string Z;
}.

Definition new : t :=
  {| counters := ∅; gauges := ∅; histograms := ∅; timers := ∅ |}.

Definition incrementCounter (counterName : string) (value : Z) (mc : t) : t :=
  let current := default 0 (counters mc !! counterName) in
  {| counters := <[counterName := current + value]> (counters mc);
     gauges := gauges mc; histograms := histograms mc; timers := timers mc |}.

Definition setGauge (gaugeName : string) (value : Z) (mc : t) : t :=
  {| counters := counters mc; gauges := <[gaugeName := value]> (gauges mc);
     histograms := histograms mc; timers := timers mc |}.

(** [values.push(value)], then [values.splice(0, values.length - 1000)]
    when more than a thousand values are held. *)
Definition push_value (value : Z) (held : list Z) : list Z :=
  let values := held ++ [value] in
  if (1000 <? length values)%nat then drop (length values - 1000) values else values.

Definition recordHistogram (histogramName : string) (value : Z) (mc : t) : t :=
  let held := default [] (histograms mc !! histogramName) in
  {| counters := counters mc; gauges := gauges mc;
     histograms := <[histogramName := push_value value held]> (histograms mc);
     timers := timers mc |}.

(** [startTimer]; [suffix] is the random part of the timer id. *)
Definition timer_id (timerName : string) (now : Z) (suffix : string) : string :=
  String.append timerName
    (String.append "_" (String.append (pretty now) (String.append "_" suffix))).

Definition startTimer (timerName : string) (now : Z) (suffix : string) (mc : t)
    : string * t :=
  let timerId := timer_id timerName now suffix in
  (timerId,
   {| counters := counters mc; gauges := gauges mc; histograms := histograms mc;
      timers := <[timerId := now]> (timers mc) |}).

(** [s.split('_')[0]] *)
Fixpoint first_segment (s : string) : string :=
  match s with
  | EmptyString => EmptyString
  | String a rest => if Ascii.eqb a "_"%char then EmptyString else String a (first_segment rest)
  end.

(** [endTimer]: a start time of zero is taken for a missing timer. *)
Definition endTimer (timerId : string) (now : Z) (mc : t) : Z * t :=
  match timers mc !! timerId with
  | None => (0, mc)
  | Some startTime =>
      if startTime =? 0 then (0, mc)
      else
        let elapsed := now - startTime in
        let mc' := {| counters := counters mc; gauges := gauges mc;
                      histograms := histograms mc;
                      timers := delete timerId (timers mc) |} in
        (elapsed,
         recordHistogram (String.append (first_segment timerId) "_duration") elapsed mc')
  end.

(** The values recorded one after the other under one name. *)
Definition record_all (histogramName : string) (values : list Z) (mc : t) : t :=
  fold_left (fun mc value => recordHistogram histogramName value mc) values mc.

End MetricsCollector.

(** ** monitoring/index.ts : the alert rules of HealthChecker *)

Module AlertRules.

Inductive Severity := LOW | MEDIUM | HIGH | CRITICAL.

Section Rules.
(** The type of [this.metrics]. *)
Context {SystemMetrics : Type}.

Record AlertRule := {
  name : string;
  condition : SystemMetrics -> bool;
  severity : Severity;
  message : string;
  cooldown : Z;
  lastTriggered : option Z;
}.

Definition with_lastTriggered (now : Z) (rule : AlertRule) : AlertRule :=
  {| name := name rule; condition := condition rule; severity := severity rule;
     message := message rule; cooldown := cooldown rule; lastTriggered := Some now |}.

(** One turn of the loop of [checkAlerts]: the rule afterwards, and whether
    [triggerAlert] was called for it. *)
Definition check_rule (now : Z) (metrics : SystemMetrics) (rule : AlertRule)
    : AlertRule * bool :=
  let in_cooldown :=
    match lastTriggered rule with
    | Some triggered => now - triggered <? cooldown rule
    | None => false
    end in
  if in_cooldown then (rule, false)
  else if condition rule metrics then (with_lastTriggered now rule, true)
  else (rule, false).

(** [checkAlerts]: the rules afterwards and the alerts raised, in order. *)
Definition checkAlerts (now : Z) (metrics : SystemMetrics) (rules : list AlertRule)
    : list AlertRule * list AlertRule :=
  let checked := check_rule now metrics <$> rules in
  (fst <$> checked, fst <$> filter (fun rb => snd rb = true) checked).

(** The times at which a rule raises its alert when [checkAlerts] runs on
    the given samples of the clock and of the metrics, one after the other. *)
Fixpoint alert_times (samples : list (Z * SystemMetrics)) (rule : AlertRule) : list Z :=
  match samples with
  | [] => []
  | (now, metrics) :: rest =>
      let checked := check_rule now metrics rule in
      (if snd checked then [now] else []) ++ alert_times rest (fst checked)
  end.

End Rules.

(** The default rule on memory, over the memory percentage alone, and
    samples taken every minute with the memory above the mark. *)
Definition high_memory_usage : AlertRule (SystemMetrics:=Q) :=
  {| name := "high_memory_usage";
     condition := fun percentage => negb (Qle_bool percentage 90);
     severity := HIGH;
     message := "Memory usage exceeds 90%";
     cooldown := 5 * 60 * 1000;
     lastTriggered := None |}.

Definition minute_samples : list (Z * Q) :=
  (fun n : nat => (Z.of_nat n * 60000, 95%Q)) <$> seq 0 12.

End AlertRules.

(** * Properties *)

(** ** RateLimiter *)

Section RateLimiterFacts.
Import RateLimiter.

Lemma in_window_spec windowStart (timestamps : list Z) ts :
  ts ∈ in_window windowStart timestamps ↔ ts ∈ timestamps ∧ windowStart < ts.
Proof. unfold in_window. rewrite list_elem_of_filter. tauto. Qed.






End RateLimiterFacts.

Section RateLimiterClaims.
Import RateLimiter.

Lemma ceil_seconds_eq ms : ceil_seconds ms = - ((- ms) / 1000).
Proof.
  unfold ceil_seconds, Qceiling, Qfloor. simpl.
  rewrite Z.mul_1_r. done.
Qed.

Lemma ceil_seconds_spec ms :
  1000 * (ceil_seconds ms - 1) < ms <= 1000 * ceil_seconds ms.
Proof. rewrite ceil_seconds_eq. Z.div_mod_to_equations. lia. Qed.





(** C10.  Whatever timestamps are recorded, [isAllowed] returns
    [resetTime = now + windowMs]; a denied call returns
    [retryAfter = ceil(windowMs / 1000)], the whole window in seconds, and
    an allowed call returns no [retryAfter]. *)
Theorem isAllowed_retryAfter_is_window requests now identifier cfg :
  let result := (isAllowed requests now identifier cfg).1 in
  resetTime result = now + windowMs cfg ∧
  retryAfter result =
    (if allowed result then None else Some (ceil_seconds (windowMs cfg))) ∧
  1000 * (ceil_seconds (windowMs cfg) - 1) < windowMs cfg <= 1000 * ceil_seconds (windowMs cfg).
Proof.
  split; [done|]. split; [|apply ceil_seconds_spec].
  unfold isAllowed; simpl. by destruct (_ <? _).
Qed.

End RateLimiterClaims.

(** ** ResourceManager *)

Section ResourceManagerClaims.
Import ResourceManager.

Lemma Qgt_bool_spec a b : Qgt_bool a b = true ↔ (b < a)%Q.
Proof.
  unfold Qgt_bool. rewrite negb_true_iff, <- not_true_iff_false, Qle_bool_iff.
  split; [apply Qnot_le_lt | apply Qlt_not_le].
Qed.

Lemma checkResourceAvailability_false rm :
  checkResourceAvailability rm = false ↔
  (inject_Z 512 < memoryUsage (metrics rm))%Q ∨ 100 <= concurrentOperations (metrics rm).
Proof.
  unfold checkResourceAvailability. cbn [getResourceLimits maxMemoryUsage maxConcurrentOperations].
  destruct (Qgt_bool _ _) eqn:Hmem.
  - apply Qgt_bool_spec in Hmem. tauto.
  - assert (¬ (inject_Z 512 < memoryUsage (metrics rm))%Q) as Hn.
    { intros H%Qgt_bool_spec. congruence. }
    destruct (100 <=? _) eqn:Hops.
    + apply Z.leb_le in Hops. tauto.
    + apply Z.leb_gt in Hops. split; [done|]. intros [|]; [done|lia].
Qed.

Lemma updateMetrics_memory heapUsed now rm :
  (inject_Z 512 < memoryUsage (metrics (updateMetrics heapUsed now rm)))%Q ↔
  512 * 1024 * 1024 < heapUsed.
Proof.
  cbn [updateMetrics metrics memoryUsage].
  unfold Qlt, Qdiv, Qmult, Qinv, inject_Z. simpl. lia.
Qed.

(** C4, as the code has it.  [checkResourceAvailability] answers from the
    metrics last sampled by [updateMetrics]: it returns false, and
    [executeWithResourceLimit] rejects before the operation starts, exactly
    when the sampled memory usage exceeds 512 MB or the sampled number of
    concurrent operations is at least 100.  Admitting or completing an
    operation leaves the sampled metrics, and so the answer, unchanged; a
    sample sets the count to the number of active operations, so that after
    an operation of a full set of 100 has completed the first sample taken
    with the heap within 512 MB makes the answer true again. *)
Theorem checkResourceAvailability_sampled :
  (forall rm,
     checkResourceAvailability rm = false ↔
     (inject_Z 512 < memoryUsage (metrics rm))%Q ∨ 100 <= concurrentOperations (metrics rm)) ∧
  (forall rm operationId,
     executeWithResourceLimit_admit operationId rm = None ↔
     checkResourceAvailability rm = false) ∧
  (forall rm rm' operationId,
     executeWithResourceLimit_admit operationId rm = Some rm' ->
     metrics rm' = metrics rm ∧
     activeOperations rm' = {[operationId]} ∪ activeOperations rm) ∧
  (forall rm operationId,
     metrics (executeWithResourceLimit_finally operationId rm) = metrics rm ∧
     checkResourceAvailability (executeWithResourceLimit_finally operationId rm)
       = checkResourceAvailability rm) ∧
  (forall rm heapUsed now,
     checkResourceAvailability (updateMetrics heapUsed now rm) = false ↔
     512 * 1024 * 1024 < heapUsed ∨ (100 <= size (activeOperations rm))%nat) ∧
  (forall rm operationId heapUsed now,
     size (activeOperations rm) = 100%nat ->
     operationId ∈ activeOperations rm ->
     heapUsed <= 512 * 1024 * 1024 ->
     checkResourceAvailability
       (updateMetrics heapUsed now (executeWithResourceLimit_finally operationId rm)) = true).
Proof.
  split; [apply checkResourceAvailability_false|].
  split.
  { intros rm operationId. unfold executeWithResourceLimit_admit.
    destruct (checkResourceAvailability rm); simpl; split; congruence. }
  split.
  { intros rm rm' operationId. unfold executeWithResourceLimit_admit.
    destruct (checkResourceAvailability rm); simpl; [|done].
    intros [= <-]. done. }
  split; [done|].
  assert (forall rm heapUsed now,
     checkResourceAvailability (updateMetrics heapUsed now rm) = false ↔
     512 * 1024 * 1024 < heapUsed ∨ (100 <= size (activeOperations rm))%nat) as Hsample.
  { intros rm heapUsed now.
    rewrite checkResourceAvailability_false, updateMetrics_memory.
    cbn [updateMetrics metrics concurrentOperations]. lia. }
  split; [exact Hsample|].
  intros rm operationId heapUsed now Hfull Hin Hheap.
  apply not_false_iff_true. rewrite Hsample.
  cbn [executeWithResourceLimit_finally with_activeOperations activeOperations].
  assert (size (activeOperations rm ∖ {[operationId]}) < size (activeOperations rm))%nat.
  { apply subset_size. by apply subset_difference_elem_of. }
  lia.
Qed.

Lemma checkResourceAvailability_sampled_witness :
  checkResourceAvailability
    (updateMetrics 1000000 10000
       (executeWithResourceLimit_finally (op_id 0)
          (default (new 0) hundred_admitted))) = true.
Proof.
  apply (proj2 (proj2 (proj2 (proj2 (proj2 checkResourceAvailability_sampled))))).
  - vm_compute. reflexivity.
  - vm_compute. reflexivity.
  - lia.
Defined.

(** C4 as stated fails on both counts.  A hundred operations admitted
    since the last sample leave the sampled count at zero, so a further
    check returns true with 100 operations running; and once a sample has
    read 100, the completion of an operation does not bring the answer back
    to true. *)
Lemma checkResourceAvailability_counterexample :
  (size ∘ activeOperations <$> hundred_admitted = Some 100%nat) ∧
  (checkResourceAvailability <$> hundred_admitted = Some true) ∧
  (checkResourceAvailability ∘ updateMetrics 0 5000 <$> hundred_admitted = Some false) ∧
  ((fun rm => size (activeOperations
                      (executeWithResourceLimit_finally (op_id 0) (updateMetrics 0 5000 rm))))
     <$> hundred_admitted = Some 99%nat) ∧
  (checkResourceAvailability ∘ executeWithResourceLimit_finally (op_id 0)
     ∘ updateMetrics 0 5000 <$> hundred_admitted = Some false).
Proof. vm_compute. repeat split. Qed.

End ResourceManagerClaims.

(** ** CircuitBreaker *)

Section CircuitBreakerClaims.
Import Errors CircuitBreaker.
Context {T : Type}.

(** Outside [HALF_OPEN] the success counter is zero, an open circuit has
    a recorded failure time, and name and configuration never change. *)
Lemma reachable_invariant nm cfg cb :
  reachable nm cfg cb ->
  name cb = nm ∧ config cb = cfg ∧
  (state cb ≠ HALF_OPEN -> successCount cb = 0) ∧
  (state cb = OPEN -> is_Some (lastFailureTime cb)) ∧
  0 <= successCount cb < 3.
Proof.
  induction 1 as [|cb cb' now _ IH Hgate|cb _ IH|cb now _ IH|cb _ IH].
  - cbn. repeat split; (done || lia).
  - destruct IH as (Hn & Hc & Hs & Hl & Hb).
    unfold gate in Hgate. destruct (decide (state cb = OPEN)) as [Ho|Ho].
    + destruct (shouldAttemptReset now cb); [|done].
      injection Hgate as <-. cbn. repeat split; (done || lia).
    + injection Hgate as <-. done.
  - destruct IH as (Hn & Hc & Hs & Hl & Hb).
    unfold onSuccess. destruct (decide (state cb = HALF_OPEN)) as [Hh|Hh].
    + destruct (3 <=? successCount cb + 1) eqn:H3; cbn.
      * repeat split; (done || lia).
      * apply Z.leb_gt in H3. repeat split; (done || lia).
    + cbn. repeat split; (done || lia || auto).
  - destruct IH as (Hn & Hc & Hs & Hl & Hb).
    unfold onFailure. destruct (decide (state cb = HALF_OPEN)) as [Hh|Hh].
    + cbn. repeat split; (done || lia || eauto).
    + destruct (failureThreshold (config cb) <=? failureCount cb + 1); cbn.
      * repeat split; (done || lia || eauto).
      * repeat split; (done || lia || eauto).
  - destruct IH as (Hn & Hc & Hs & Hl & Hb).
    cbn. repeat split; (done || lia).
Qed.

(** A call is one more reachable state. *)
Lemma reachable_execute nm cfg cb now (operation : attempt T) settled :
  reachable nm cfg cb -> reachable nm cfg (breaker (execute now operation settled cb)).
Proof.
  intros Hr. unfold execute. destruct (gate now cb) as [cb1|] eqn:Hgate; [|done].
  assert (reachable nm cfg cb1) by (by eapply reach_gate).
  destruct operation; cbn; by constructor.
Qed.

Lemma gate_not_open cb now : state cb ≠ OPEN -> gate now cb = Some cb.
Proof. intros Hn. unfold gate. by destruct (decide (state cb = OPEN)). Qed.

Lemma gate_open cb now :
  state cb = OPEN ->
  gate now cb =
    if shouldAttemptReset now cb
    then Some {| name := name cb; config := config cb; state := HALF_OPEN;
                 failureCount := failureCount cb; lastFailureTime := lastFailureTime cb;
                 successCount := successCount cb |}
    else None.
Proof. intros Ho. unfold gate. by destruct (decide (state cb = OPEN)). Qed.

Lemma execute_closed_failure cb now e settled :
  state cb = CLOSED ->
  let r := execute (T:=T) now (Fails e) settled cb in
  invoked r = true ∧ outcome r = Fails e ∧
  failureCount (breaker r) = failureCount cb + 1 ∧
  lastFailureTime (breaker r) = Some settled ∧
  state (breaker r) =
    (if failureThreshold (config cb) <=? failureCount cb + 1 then OPEN else CLOSED) ∧
  config (breaker r) = config cb.
Proof.
  intros Hc. unfold execute. rewrite gate_not_open by congruence. cbn.
  unfold onFailure. destruct (decide (state cb = HALF_OPEN)); [congruence|].
  destruct (_ <=? _); cbn; by rewrite ?Hc.
Qed.

Lemma execute_open_refused cb last now (operation : attempt T) settled :
  state cb = OPEN -> lastFailureTime cb = Some last ->
  now - last < resetTimeout (config cb) ->
  execute now operation settled cb =
    {| breaker := cb; invoked := false; outcome := Fails (circuit_open_error (name cb)) |}.
Proof.
  intros Ho Hl Hlt. unfold execute. rewrite gate_open by done.
  unfold shouldAttemptReset. rewrite Hl.
  destruct (_ <=? _) eqn:Hle; [apply Z.leb_le in Hle; lia | done].
Qed.

Lemma gate_open_elapsed cb last now :
  state cb = OPEN -> lastFailureTime cb = Some last ->
  resetTimeout (config cb) <= now - last ->
  exists cb1, gate now cb = Some cb1 ∧ state cb1 = HALF_OPEN ∧
    successCount cb1 = successCount cb ∧ config cb1 = config cb.
Proof.
  intros Ho Hl Hle. rewrite gate_open by done.
  unfold shouldAttemptReset. rewrite Hl.
  destruct (_ <=? _) eqn:H; [|apply Z.leb_gt in H; lia]. eauto.
Qed.

Lemma onSuccess_half_open cb :
  state cb = HALF_OPEN ->
  failureCount (onSuccess cb) = 0 ∧
  (if 3 <=? successCount cb + 1
   then state (onSuccess cb) = CLOSED ∧ successCount (onSuccess cb) = 0
   else state (onSuccess cb) = HALF_OPEN ∧
        successCount (onSuccess cb) = successCount cb + 1).
Proof.
  intros Hh. unfold onSuccess. destruct (decide (state cb = HALF_OPEN)); [|done].
  by destruct (_ <=? _).
Qed.

Lemma onFailure_half_open cb settled :
  state cb = HALF_OPEN ->
  state (onFailure settled cb) = OPEN ∧ successCount (onFailure settled cb) = 0 ∧
  lastFailureTime (onFailure settled cb) = Some settled.
Proof.
  intros Hh. unfold onFailure. by destruct (decide (state cb = HALF_OPEN)).
Qed.

Lemma execute_half_open_success cb now (v : T) settled :
  state cb = HALF_OPEN ->
  let r := execute now (Succeeds v) settled cb in
  invoked r = true ∧ outcome r = Succeeds v ∧ failureCount (breaker r) = 0 ∧
  (if 3 <=? successCount cb + 1
   then state (breaker r) = CLOSED ∧ successCount (breaker r) = 0
   else state (breaker r) = HALF_OPEN ∧ successCount (breaker r) = successCount cb + 1).
Proof.
  intros Hh. unfold execute. rewrite gate_not_open by congruence. cbn.
  destruct (onSuccess_half_open cb Hh). done.
Qed.

Lemma execute_half_open_failure cb now e settled :
  state cb = HALF_OPEN ->
  let r := execute (T:=T) now (Fails e) settled cb in
  invoked r = true ∧ outcome r = Fails e ∧ state (breaker r) = OPEN ∧
  successCount (breaker r) = 0 ∧ lastFailureTime (breaker r) = Some settled.
Proof.
  intros Hh. unfold execute. rewrite gate_not_open by congruence. cbn.
  destruct (onFailure_half_open cb settled Hh) as (? & ? & ?). done.
Qed.

(** C5.  For every breaker state the code can reach, with
    [failureThreshold = 3]:
    - in [CLOSED] with no failure counted, three consecutive failing calls
      are all attempted and leave the breaker [CLOSED], [CLOSED], [OPEN];
    - in [OPEN] a last failure time is recorded; a call entered before
      [resetTimeout] has elapsed since then fails with the circuit-open
      error, does not invoke the operation and changes nothing; a call
      entered once it has elapsed moves to [HALF_OPEN] and invokes the
      operation; three successes starting with that call end in [CLOSED]
      with the failure and success counters at zero;
    - in [HALF_OPEN] a success counts towards the three that close the
      circuit, and a single failure returns to [OPEN] with the success
      counter reset. *)
Theorem circuit_breaker_state_machine nm cfg cb :
  reachable nm cfg cb ->
  failureThreshold cfg = 3 ->
  (state cb = CLOSED -> failureCount cb = 0 ->
   forall e1 e2 e3 t1 s1 t2 s2 t3 s3,
     let r1 := execute (T:=T) t1 (Fails e1) s1 cb in
     let r2 := execute (T:=T) t2 (Fails e2) s2 (breaker r1) in
     let r3 := execute (T:=T) t3 (Fails e3) s3 (breaker r2) in
     invoked r1 = true ∧ state (breaker r1) = CLOSED ∧
     invoked r2 = true ∧ state (breaker r2) = CLOSED ∧
     invoked r3 = true ∧ state (breaker r3) = OPEN ∧
     lastFailureTime (breaker r3) = Some s3) ∧
  (state cb = OPEN ->
   exists last, lastFailureTime cb = Some last ∧
     (forall now (operation : attempt T) settled,
        now - last < resetTimeout cfg ->
        execute now operation settled cb =
          {| breaker := cb; invoked := false;
             outcome := Fails (circuit_open_error nm) |}) ∧
     (forall now settled,
        resetTimeout cfg <= now - last ->
        (exists cb1, gate now cb = Some cb1 ∧ state cb1 = HALF_OPEN) ∧
        (forall operation : attempt T,
           invoked (execute now operation settled cb) = true ∧
           outcome (execute now operation settled cb) = operation) ∧
        (forall e,
           let r := execute (T:=T) now (Fails e) settled cb in
           state (breaker r) = OPEN ∧ successCount (breaker r) = 0) ∧
        (forall (v1 v2 v3 : T) t2 s2 t3 s3,
           let r1 := execute now (Succeeds v1) settled cb in
           let r2 := execute t2 (Succeeds v2) s2 (breaker r1) in
           let r3 := execute t3 (Succeeds v3) s3 (breaker r2) in
           state (breaker r1) = HALF_OPEN ∧
           invoked r2 = true ∧ state (breaker r2) = HALF_OPEN ∧
           invoked r3 = true ∧ state (breaker r3) = CLOSED ∧
           failureCount (breaker r3) = 0 ∧ successCount (breaker r3) = 0))) ∧
  (state cb = HALF_OPEN ->
   (forall now (v : T) settled,
      let r := execute now (Succeeds v) settled cb in
      invoked r = true ∧ failureCount (breaker r) = 0 ∧
      (if 3 <=? successCount cb + 1
       then state (breaker r) = CLOSED ∧ successCount (breaker r) = 0
       else state (breaker r) = HALF_OPEN ∧
            successCount (breaker r) = successCount cb + 1)) ∧
   (forall now e settled,
      let r := execute (T:=T) now (Fails e) settled cb in
      invoked r = true ∧ state (breaker r) = OPEN ∧ successCount (breaker r) = 0)).
Proof.
  intros Hreach Hthr.
  destruct (reachable_invariant _ _ _ Hreach) as (Hname & Hcfg & Hsc & Hlast & Hbound).
  split; [|split].
  - intros Hclosed Hzero e1 e2 e3 t1 s1 t2 s2 t3 s3 r1 r2 r3.
    destruct (execute_closed_failure cb t1 e1 s1 Hclosed)
      as (Hi1 & _ & Hf1 & _ & Hs1 & Hc1).
    fold r1 in Hi1, Hf1, Hs1, Hc1.
    rewrite Hcfg, Hthr, Hzero in Hs1. cbn in Hs1.
    destruct (execute_closed_failure (breaker r1) t2 e2 s2 Hs1)
      as (Hi2 & _ & Hf2 & _ & Hs2 & Hc2).
    fold r2 in Hi2, Hf2, Hs2, Hc2.
    rewrite Hc1, Hcfg, Hthr, Hf1, Hzero in Hs2. cbn in Hs2.
    destruct (execute_closed_failure (breaker r2) t3 e3 s3 Hs2)
      as (Hi3 & _ & Hf3 & Hl3 & Hs3 & Hc3).
    fold r3 in Hi3, Hf3, Hl3, Hs3, Hc3.
    rewrite Hc2, Hc1, Hcfg, Hthr, Hf2, Hf1, Hzero in Hs3. cbn in Hs3.
    done.
  - intros Hopen. destruct (Hlast Hopen) as [last Hl]. exists last.
    split; [done|]. split.
    + intros now operation settled Hlt. rewrite <- Hname.
      apply (execute_open_refused cb last); [done|done|by rewrite Hcfg].
    + intros now settled Hle.
      destruct (gate_open_elapsed cb last now Hopen Hl) as (cb1 & Hg & Hh & Hsc1 & Hc1);
        [by rewrite Hcfg|].
      assert (successCount cb1 = 0) as Hz by (rewrite Hsc1; apply Hsc; congruence).
      split; [eauto|]. split; [|split].
      * intros operation. unfold execute. rewrite Hg. by destruct operation.
      * intros e r. subst r. unfold execute. rewrite Hg. cbn.
        destruct (onFailure_half_open cb1 settled Hh) as (? & ? & _). done.
      * intros v1 v2 v3 t2 s2 t3 s3 r1 r2 r3.
        assert (breaker r1 = onSuccess cb1) as Hb1.
        { subst r1. unfold execute. by rewrite Hg. }
        destruct (onSuccess_half_open cb1 Hh) as [_ H1]. rewrite Hz in H1. cbn in H1.
        destruct H1 as [Hs1 Hn1]. rewrite <- Hb1 in Hs1, Hn1.
        destruct (execute_half_open_success (breaker r1) t2 v2 s2 Hs1)
          as (Hi2 & _ & _ & H2).
        fold r2 in Hi2, H2. rewrite Hn1 in H2. cbn in H2. destruct H2 as [Hs2 Hn2].
        destruct (execute_half_open_success (breaker r2) t3 v3 s3 Hs2)
          as (Hi3 & _ & Hf3 & H3).
        fold r3 in Hi3, Hf3, H3. rewrite Hn2 in H3. cbn in H3. destruct H3 as [Hs3 Hn3].
        done.
  - intros Hhalf. split.
    + intros now v settled r.
      destruct (execute_half_open_success cb now v settled Hhalf) as (? & _ & ? & ?).
      done.
    + intros now e settled r.
      destruct (execute_half_open_failure cb now e settled Hhalf) as (? & _ & ? & ? & _).
      done.
Qed.

End CircuitBreakerClaims.

Lemma circuit_breaker_state_machine_witness :
  let cb := CircuitBreaker.new "docs" CircuitBreaker.example_config in
  let e := Errors.Native "ECONNRESET" "Error" "socket hang up" in
  let r1 := CircuitBreaker.execute (T:=string) 0 (CircuitBreaker.Fails e) 10 cb in
  let r2 := CircuitBreaker.execute (T:=string) 20 (CircuitBreaker.Fails e) 30
              (CircuitBreaker.breaker r1) in
  let r3 := CircuitBreaker.execute (T:=string) 40 (CircuitBreaker.Fails e) 50
              (CircuitBreaker.breaker r2) in
  CircuitBreaker.state (CircuitBreaker.breaker r3) = CircuitBreaker.OPEN.
Proof.
  intros cb e r1 r2 r3.
  destruct (circuit_breaker_state_machine (T:=string) "docs" CircuitBreaker.example_config cb
              (CircuitBreaker.reach_new _ _) eq_refl) as [Hclosed _].
  apply (Hclosed eq_refl eq_refl e e e 0 10 20 30 40 50).
Defined.

(** ** Doubles

    The rounding of [SpecFloat] between bounds that are themselves doubles,
    read in the rationals; the operations of [calculateDelay] on whole
    numbers, where they are exact. *)

Section DoubleFacts.
Import Double.

Lemma digits2_pos_log2 p : Zpos (digits2_pos p) = Z.log2 (Zpos p) + 1.
Proof.
  induction p as [p IH|p IH|]; cbn [digits2_pos].
  - rewrite Pos2Z.inj_succ, IH. rewrite Pos2Z.inj_xI.
    rewrite Z.log2_succ_double by lia. lia.
  - rewrite Pos2Z.inj_succ, IH. rewrite Pos2Z.inj_xO.
    rewrite Z.log2_double by lia. lia.
  - done.
Qed.

Lemma digits_bounds p :
  2 ^ (Zpos (digits2_pos p) - 1) <= Zpos p < 2 ^ Zpos (digits2_pos p).
Proof.
  rewrite digits2_pos_log2. replace (Z.log2 (Zpos p) + 1 - 1) with (Z.log2 (Zpos p)) by lia.
  pose proof (Z.log2_spec (Zpos p) ltac:(lia)) as H.
  replace (Z.log2 (Zpos p) + 1) with (Z.succ (Z.log2 (Zpos p))) by lia. lia.
Qed.

Lemma Zdigits2_log2 M : 0 < M -> Zdigits2 M = Z.log2 M + 1.
Proof. destruct M as [|p|p]; try lia. intros _. apply digits2_pos_log2. Qed.

Lemma Zdigits2_unique M d : 0 < d -> 2 ^ (d - 1) <= M < 2 ^ d -> Zdigits2 M = d.
Proof.
  intros Hd HM. assert (0 < M) by (pose proof (Z.pow_pos_nonneg 2 (d - 1)); lia).
  rewrite Zdigits2_log2 by done.
  rewrite (Z.log2_unique M (d - 1)); [lia|lia|].
  replace (Z.succ (d - 1)) with d by lia. done.
Qed.

Lemma iter_pos_nat {A} (f : A -> A) p : forall x,
  SpecFloat.iter_pos f p x = Nat.iter (Pos.to_nat p) f x.
Proof.
  induction p as [p IH|p IH|]; intros x; cbn [SpecFloat.iter_pos].
  - rewrite !IH. rewrite Pos2Nat.inj_xI.
    replace (S (2 * Pos.to_nat p)) with (Pos.to_nat p + (Pos.to_nat p + 1))%nat by lia.
    rewrite !Nat.iter_add. done.
  - rewrite !IH. rewrite Pos2Nat.inj_xO.
    replace (2 * Pos.to_nat p)%nat with (Pos.to_nat p + Pos.to_nat p)%nat by lia.
    rewrite Nat.iter_add. done.
  - done.
Qed.

Lemma shr_1_nonneg m r s :
  0 <= m ->
  shr_1 {| shr_m := m; shr_r := r; shr_s := s |}
  = {| shr_m := m / 2; shr_r := Z.odd m; shr_s := r || s |}.
Proof.
  intros Hm. destruct m as [|p|p]; [done| |lia].
  destruct p as [p|p|]; cbn [shr_1].
  - f_equal. rewrite Pos2Z.inj_xI. apply Z.div_unique with 1; lia.
  - f_equal. rewrite Pos2Z.inj_xO. apply Z.div_unique with 0; lia.
  - done.
Qed.

Lemma shr_iter k m :
  0 <= m ->
  exists r s,
    Nat.iter k shr_1 {| shr_m := m; shr_r := false; shr_s := false |}
    = {| shr_m := m / 2 ^ Z.of_nat k; shr_r := r; shr_s := s |} ∧
    (m mod 2 ^ Z.of_nat k = 0 -> r = false ∧ s = false).
Proof.
  intros Hm. induction k as [|k (r & s & IH & Hexact)].
  - exists false, false. cbn. by rewrite Z.div_1_r.
  - rewrite Nat.iter_succ, IH.
    assert (0 < 2 ^ Z.of_nat k) by (apply Z.pow_pos_nonneg; lia).
    rewrite shr_1_nonneg by (apply Z.div_pos; lia).
    exists (Z.odd (m / 2 ^ Z.of_nat k)), (r || s). split.
    + f_equal. rewrite Nat2Z.inj_succ, Z.pow_succ_r by lia.
      rewrite Z.div_div by lia. f_equal. lia.
    + rewrite Nat2Z.inj_succ, Z.pow_succ_r by lia. intros Hmod.
      assert (m mod 2 ^ Z.of_nat k = 0 ∧ (m / 2 ^ Z.of_nat k) mod 2 = 0) as [H1 H2].
      { pose proof (Z.div_mod m (2 * 2 ^ Z.of_nat k) ltac:(lia)) as Hdm.
        rewrite Hmod in Hdm.
        set (q := m / (2 * 2 ^ Z.of_nat k)) in *.
        assert (m = 2 ^ Z.of_nat k * (2 * q)) as Hm2 by lia.
        split.
        - rewrite Hm2. rewrite Z.mul_comm. apply Z.mod_mul. lia.
        - rewrite Hm2. rewrite Z.mul_comm, Z.div_mul by lia.
          rewrite Z.mul_comm. apply Z.mod_mul. lia. }
      destruct (Hexact H1) as [-> ->]. split; [|done].
      rewrite Zmod_odd in H2. by destruct (Z.odd _).
Qed.

Lemma fexp_eq e : fexp prec emax e = Z.max (e - 53) (-1074).
Proof. reflexivity. Qed.

Lemma round_nearest_even_bounds m r s :
  m <= round_nearest_even m (loc_of_shr_record {| shr_m := m; shr_r := r; shr_s := s |})
    <= m + 1 ∧
  (r = false ∧ s = false ->
   round_nearest_even m (loc_of_shr_record {| shr_m := m; shr_r := r; shr_s := s |}) = m).
Proof.
  destruct r, s; cbn; try (destruct (Z.even m)); split; try lia; intros [? ?]; done.
Qed.

Lemma shr_exact_noop m e n :
  n <= 0 -> shr {| shr_m := m; shr_r := false; shr_s := false |} e n
            = ({| shr_m := m; shr_r := false; shr_s := false |}, e).
Proof. intros Hn. by destruct n. Qed.

Lemma shr_shift m e n :
  0 <= m -> 0 < n ->
  exists r s,
    shr {| shr_m := m; shr_r := false; shr_s := false |} e n
    = ({| shr_m := m / 2 ^ n; shr_r := r; shr_s := s |}, e + n) ∧
    (m mod 2 ^ n = 0 -> r = false ∧ s = false).
Proof.
  intros Hm Hn. destruct n as [|p|p]; try lia. cbn [shr].
  rewrite iter_pos_nat.
  destruct (shr_iter (Pos.to_nat p) m Hm) as (r & s & Hiter & Hexact).
  rewrite positive_nat_Z in Hiter, Hexact.
  exists r, s. by rewrite Hiter.
Qed.

Lemma Zdigits2_le_53 M : 0 < M < 2 ^ 53 -> 0 < Zdigits2 M <= 53.
Proof.
  intros HM. rewrite Zdigits2_log2 by lia.
  pose proof (Z.log2_nonneg M).
  assert (Z.log2 M < 53) by (apply Z.log2_lt_pow2; lia). lia.
Qed.

(** Rounding a mantissa that fits: nothing changes. *)
Lemma round_aux_exact s m e :
  fexp prec emax (Zpos (digits2_pos m) + e) <= e -> e <= 971 ->
  binary_round_aux prec emax s (Zpos m) e loc_Exact = S754_finite s m e.
Proof.
  intros Hg He. unfold binary_round_aux, shr_fexp.
  cbn [Zdigits2 shr_record_of_loc].
  rewrite shr_exact_noop by lia.
  cbn [shr_m loc_of_shr_record round_nearest_even Zdigits2].
  rewrite shr_exact_noop by lia. cbn [shr_m].
  assert ((e <=? emax - prec) = true) as -> by (apply Z.leb_le; unfold emax, prec; lia).
  done.
Qed.

(** Rounding a mantissa that does not fit: the result is the mantissa
    divided by the power of two that makes it fit, or one more, and the
    quotient itself when the division is exact; it overflows to infinity
    when its exponent is beyond the largest. *)
Lemma round_aux_shift s m e :
  let g := fexp prec emax (Zpos (digits2_pos m) + e) in
  e < g ->
  exists M,
    Zpos m / 2 ^ (g - e) <= M <= Zpos m / 2 ^ (g - e) + 1 ∧
    (Zpos m mod 2 ^ (g - e) = 0 -> M = Zpos m / 2 ^ (g - e)) ∧
    (-1074 < g -> 2 ^ 52 <= M) ∧
    ((M = 0 ∧ binary_round_aux prec emax s (Zpos m) e loc_Exact = S754_zero s) ∨
     (0 < M < 2 ^ 53 ∧ fexp prec emax (Zdigits2 M + g) = g ∧
      binary_round_aux prec emax s (Zpos m) e loc_Exact
      = if g <=? 971 then S754_finite s (Z.to_pos M) g else S754_infinity s) ∨
     (M = 2 ^ 53 ∧
      binary_round_aux prec emax s (Zpos m) e loc_Exact
      = if g + 1 <=? 971 then S754_finite s (2 ^ 52) (g + 1) else S754_infinity s)).
Proof.
  intros g Hlt.
  pose proof (digits_bounds m) as Hd.
  set (d := Zpos (digits2_pos m)) in *.
  assert (0 < d) as Hdpos by (unfold d; lia).
  unfold binary_round_aux, shr_fexp. cbn [Zdigits2 shr_record_of_loc].
  fold d. fold g.
  destruct (shr_shift (Zpos m) e (g - e) ltac:(lia) ltac:(lia)) as (r & s0 & -> & Hexact).
  replace (e + (g - e)) with g by lia.
  set (n := g - e) in *.
  set (m1 := Zpos m / 2 ^ n) in *.
  cbn [shr_m].
  destruct (round_nearest_even_bounds m1 r s0) as [HM HMexact].
  set (M := round_nearest_even m1 _) in *. clearbody M.
  assert (0 < 2 ^ n) as Hpow by (apply Z.pow_pos_nonneg; lia).
  assert (0 <= m1) as Hm1 by (apply Z.div_pos; lia).
  exists M. split; [done|]. split; [intros Hmod; apply HMexact; by apply Hexact|].
  assert (g = d + e - 53 ∧ -1074 <= d + e - 53 ∨ g = -1074 ∧ d + e - 53 < -1074) as Hcase.
  { unfold g. rewrite fexp_eq. lia. }
  assert (M < 2 ^ 53 -> 0 < M -> fexp prec emax (Zdigits2 M + g) = g ->
          0 < M < 2 ^ 53 ∧ fexp prec emax (Zdigits2 M + g) = g ∧
          (let '(mrs'', e'') :=
             shr (shr_record_of_loc M loc_Exact) g (fexp prec emax (Zdigits2 M + g) - g) in
           match shr_m mrs'' with
           | 0 => S754_zero s
           | Z.pos m0 => if e'' <=? emax - prec then S754_finite s m0 e'' else S754_infinity s
           | Z.neg _ => S754_nan
           end) = if g <=? 971 then S754_finite s (Z.to_pos M) g else S754_infinity s) as Hkeep.
  { intros HM53 HMpos Hn0. split; [lia|]. split; [done|].
    cbn [shr_record_of_loc]. rewrite shr_exact_noop by lia.
    cbn [shr_m]. destruct M as [|m'|m']; try lia. done. }
  destruct Hcase as [[Hgeq Hnormal]|[Hgeq Hsub]].
  - (* normal range *)
    assert (n = d - 53) as Hn by lia.
    assert (2 ^ 52 <= m1 < 2 ^ 53) as Hm1b.
    { unfold m1. split.
      - apply Z.div_le_lower_bound; [lia|].
        rewrite <- Z.pow_add_r by lia. replace (n + 52) with (d - 1) by lia. lia.
      - apply Z.div_lt_upper_bound; [lia|].
        rewrite <- Z.pow_add_r by lia. replace (n + 53) with d by lia. lia. }
    split; [lia|].
    right. destruct (decide (M < 2 ^ 53)) as [Hsmall|Hbig].
    + left. apply Hkeep; [done|lia|].
      rewrite (Zdigits2_unique M 53) by (cbn; lia). rewrite fexp_eq. lia.
    + right. assert (M = 2 ^ 53) as HMeq by lia. split; [done|].
      rewrite HMeq.
      replace (fexp prec emax (Zdigits2 (2 ^ 53) + g) - g) with 1
        by (rewrite fexp_eq; change (Zdigits2 (2 ^ 53)) with 54; lia).
      cbn [shr_record_of_loc shr SpecFloat.iter_pos].
      change (shr_1 {| shr_m := 2 ^ 53; shr_r := false; shr_s := false |})
        with {| shr_m := 2 ^ 52; shr_r := false; shr_s := false |}.
      cbn [shr_m]. change (2 ^ 52) with (Zpos (Pos.pow 2 52)) at 1.
      cbv iota beta. done.
  - (* subnormal range *)
    split; [lia|].
    assert (m1 < 2 ^ 52) as Hm1b.
    { unfold m1. apply Z.div_lt_upper_bound; [lia|].
      destruct (decide (0 <= d - n)) as [Hdn|Hdn].
      - rewrite <- Z.pow_add_r by lia.
        assert (2 ^ d <= 2 ^ (n + 52)) by (apply Z.pow_le_mono_r; lia). lia.
      - assert (2 ^ d <= 2 ^ n) by (apply Z.pow_le_mono_r; lia).
        assert (0 < 2 ^ 52) by done. nia. }
    destruct (decide (M = 0)) as [HM0|HM0].
    + left. split; [done|]. rewrite HM0. cbn [Zdigits2 shr_record_of_loc].
      rewrite shr_exact_noop by (rewrite fexp_eq; lia). done.
    + right. left. apply Hkeep; [lia|lia|].
      pose proof (Zdigits2_le_53 M ltac:(lia)). rewrite fexp_eq. lia.
Qed.

(** *** Dyadic numbers *)

Lemma pow2_pos e : (0 < 2 ^ e)%Q.
Proof. by apply Qpower_0_lt. Qed.

Lemma pow2_add a b : (2 ^ (a + b) == 2 ^ a * 2 ^ b)%Q.
Proof. by apply Qpower_plus. Qed.

Lemma pow2_Z n : 0 <= n -> (2 ^ n == inject_Z (2 ^ n))%Q.
Proof. intros Hn. by rewrite Zpower_Qpower. Qed.

Lemma dyadic_shift k e c : c <= e -> (dyadic k e == dyadic (k * 2 ^ (e - c)) c)%Q.
Proof.
  intros Hc. unfold dyadic. rewrite inject_Z_mult, <- pow2_Z by lia.
  replace e with ((e - c) + c) at 1 by lia. rewrite pow2_add. ring.
Qed.

Lemma dyadic_le_same a b e : (dyadic a e <= dyadic b e)%Q <-> a <= b.
Proof.
  unfold dyadic. pose proof (pow2_pos e) as Hp. rewrite Zle_Qle. split; intros H.
  - apply Qmult_le_r in H; done.
  - apply Qmult_le_r; done.
Qed.

Lemma dyadic_le a ea b eb c :
  c <= ea -> c <= eb ->
  (dyadic a ea <= dyadic b eb)%Q <-> a * 2 ^ (ea - c) <= b * 2 ^ (eb - c).
Proof.
  intros Ha Hb. rewrite (dyadic_shift a ea c), (dyadic_shift b eb c) by done.
  apply dyadic_le_same.
Qed.

Lemma dyadic_mul a ea b eb : (dyadic a ea * dyadic b eb == dyadic (a * b) (ea + eb))%Q.
Proof. unfold dyadic. rewrite inject_Z_mult, pow2_add. ring. Qed.

Lemma dyadic_opp a e : (- dyadic a e == dyadic (- a) e)%Q.
Proof. unfold dyadic. rewrite inject_Z_opp. ring. Qed.

Lemma dyadic_0 e : (dyadic 0 e == 0)%Q.
Proof. unfold dyadic. ring. Qed.

Lemma dyadic_Z z : (dyadic z 0 == inject_Z z)%Q.
Proof. unfold dyadic. cbn. ring. Qed.

(** *** Rounding keeps a number between the doubles around it *)

(** The magnitude of a rounded number, between two representable bounds. *)
Lemma round_aux_bounds s m e kl el kh eh :
  0 <= kl < 2 ^ 53 -> -1074 <= el ->
  0 < kh < 2 ^ 53 -> -1074 <= eh <= 900 ->
  (dyadic kl el <= dyadic (Zpos m) e)%Q ->
  (dyadic (Zpos m) e <= dyadic kh eh)%Q ->
  exists M g,
    (dyadic kl el <= dyadic M g)%Q ∧ (dyadic M g <= dyadic kh eh)%Q ∧
    ((M = 0 ∧ binary_round_aux prec emax s (Zpos m) e loc_Exact = S754_zero s) ∨
     (exists m' e',
        binary_round_aux prec emax s (Zpos m) e loc_Exact = S754_finite s m' e' ∧
        (dyadic (Zpos m') e' == dyadic M g)%Q)).
Proof.
  intros Hkl Hel Hkh Heh Hlo Hhi.
  pose proof (digits_bounds m) as Hd.
  set (d := Zpos (digits2_pos m)) in *.
  assert (0 < d) as Hdpos by (unfold d; lia).
  set (g := fexp prec emax (d + e)).
  (* the number is below [2 ^ (53 + eh)] *)
  assert (d + e <= 53 + eh) as Hmag.
  { set (c := Z.min e eh).
    apply (dyadic_le _ _ _ _ c) in Hhi; [|lia|lia].
    assert (0 < 2 ^ (e - c)) by (apply Z.pow_pos_nonneg; lia).
    assert (0 < 2 ^ (eh - c)) by (apply Z.pow_pos_nonneg; lia).
    destruct (decide (d + e <= 53 + eh)) as [|Hgt]; [done|exfalso].
    assert (2 ^ 53 * 2 ^ (eh - c) <= 2 ^ (d - 1) * 2 ^ (e - c)).
    { rewrite <- !Z.pow_add_r by lia. apply Z.pow_le_mono_r; lia. }
    nia. }
  assert (g <= eh) as Hgeh by (unfold g; rewrite fexp_eq; lia).
  destruct (decide (g <= e)) as [Hfit|Hshift].
  - exists (Zpos m), e. split; [done|]. split; [done|]. right. exists m, e.
    split; [|done]. apply round_aux_exact; [done|lia].
  - destruct (round_aux_shift s m e ltac:(fold d; fold g; lia))
      as (M & HM & Hexact & Hnormal & Hres).
    fold d in HM, Hexact, Hnormal, Hres. fold g in HM, Hexact, Hnormal, Hres.
    set (n := g - e) in *.
    assert (0 < 2 ^ n) as Hpow by (apply Z.pow_pos_nonneg; lia).
    pose proof (Z.div_mod (Zpos m) (2 ^ n) ltac:(lia)) as Hdm.
    pose proof (Z.mod_pos_bound (Zpos m) (2 ^ n) ltac:(lia)) as Hmod.
    exists M, g. split; [|split].
    + (* lower bound *)
      destruct (decide (g <= el)) as [Hgrid|Hfine].
      * apply (dyadic_le _ _ _ _ e) in Hlo; [|lia|lia]. rewrite Z.sub_diag, Z.pow_0_r, Z.mul_1_r in Hlo.
        apply (dyadic_le _ _ _ _ g); [lia|lia|]. rewrite Z.sub_diag, Z.pow_0_r, Z.mul_1_r.
        replace (el - e) with ((el - g) + n) in Hlo by lia.
        rewrite Z.pow_add_r in Hlo by lia.
        assert (0 <= 2 ^ (el - g)) by (apply Z.pow_nonneg; lia).
        assert (kl * 2 ^ (el - g) <= Zpos m / 2 ^ n).
        { apply Z.div_le_lower_bound; lia. }
        lia.
      * assert (2 ^ 52 <= M) as HMbig by (apply Hnormal; lia).
        apply (dyadic_le _ _ _ _ el); [lia|lia|]. rewrite Z.sub_diag, Z.pow_0_r, Z.mul_1_r.
        assert (2 ^ 53 <= 2 ^ 52 * 2 ^ (g - el)).
        { rewrite <- Z.pow_add_r by lia. apply Z.pow_le_mono_r; lia. }
        assert (0 < 2 ^ (g - el)) by (apply Z.pow_pos_nonneg; lia).
        nia.
    + (* upper bound *)
      apply (dyadic_le _ _ _ _ e) in Hhi; [|lia|lia]. rewrite Z.sub_diag, Z.pow_0_r, Z.mul_1_r in Hhi.
      apply (dyadic_le _ _ _ _ g); [lia|lia|]. rewrite Z.sub_diag, Z.pow_0_r, Z.mul_1_r.
      replace (eh - e) with ((eh - g) + n) in Hhi by lia.
      rewrite Z.pow_add_r in Hhi by lia.
      set (K := kh * 2 ^ (eh - g)) in *.
      assert (Zpos m <= K * 2 ^ n) as HK by (unfold K; lia).
      destruct (decide (Zpos m mod 2 ^ n = 0)) as [Hz|Hnz].
      * rewrite (Hexact Hz). apply Z.div_le_upper_bound; lia.
      * assert (Zpos m / 2 ^ n < K); [|lia].
        apply Z.div_lt_upper_bound; [lia|].
        destruct (decide (Zpos m = K * 2 ^ n)) as [Heq|]; [|lia].
        rewrite Heq, Z.mod_mul in Hnz by lia. done.
    + destruct Hres as [[-> ->]|[(HMr & _ & ->)|[-> ->]]]; [by left| |].
      * right. exists (Z.to_pos M), g.
        assert ((g <=? 971) = true) as -> by (apply Z.leb_le; lia).
        split; [done|]. by rewrite Z2Pos.id by lia.
      * right. exists (2 ^ 52)%positive, (g + 1).
        assert ((g + 1 <=? 971) = true) as -> by (apply Z.leb_le; lia).
        split; [done|]. rewrite (dyadic_shift _ (g + 1) g) by lia.
        replace (g + 1 - g) with 1 by lia. done.
Qed.

(** A bound a double can hold: at most 53 bits at an exponent in range. *)
Local Abbreviation rep k e := (Z.abs k < 2 ^ 53 ∧ -1074 <= e <= 900).

Lemma dyadic_sign_pos k e : 0 < k -> (0 < dyadic k e)%Q.
Proof.
  intros Hk. unfold dyadic. apply Qmult_lt_0_compat; [|apply pow2_pos].
  by rewrite <- (Zlt_Qlt 0).
Qed.

Lemma dyadic_nonneg k e : 0 <= k -> (0 <= dyadic k e)%Q.
Proof.
  intros Hk. unfold dyadic. apply Qmult_le_0_compat; [|apply Qlt_le_weak, pow2_pos].
  by rewrite <- (Zle_Qle 0).
Qed.

Lemma dyadic_pos_inv k e : (0 < dyadic k e)%Q -> 0 < k.
Proof.
  intros H. destruct (decide (0 < k)) as [|Hk]; [done|exfalso].
  assert (0 <= - k) as Hk' by lia. apply (dyadic_nonneg _ e) in Hk'.
  rewrite <- dyadic_opp in Hk'. lra.
Qed.

(** Rounding with a sign. *)
Lemma round_aux_signed s m e kL eL kH eH :
  rep kL eL -> rep kH eH ->
  (dyadic kL eL <= dyadic (cond_Zopp s (Zpos m)) e)%Q ->
  (dyadic (cond_Zopp s (Zpos m)) e <= dyadic kH eH)%Q ->
  let r := binary_round_aux prec emax s (Zpos m) e loc_Exact in
  is_finite r = true ∧ (dyadic kL eL <= to_Q r)%Q ∧ (to_Q r <= dyadic kH eH)%Q.
Proof.
  intros [HkL HeL] [HkH HeH] Hlo Hhi r. subst r.
  pose proof (dyadic_sign_pos (Zpos m) e ltac:(lia)) as Hpos.
  destruct s; cbn [cond_Zopp] in Hlo, Hhi.
  - (* negative *)
    rewrite <- dyadic_opp in Hlo, Hhi.
    assert (0 < - kL) as HkLneg.
    { apply (dyadic_pos_inv _ eL). rewrite <- dyadic_opp. lra. }
    destruct (round_aux_bounds true m e (Z.max (- kH) 0) eH (- kL) eL)
      as (M & g & HMlo & HMhi & Hres); try lia.
    { destruct (Z.max_spec (- kH) 0) as [[_ ->]|[_ ->]].
      - rewrite dyadic_0. lra.
      - rewrite <- dyadic_opp. lra. }
    { rewrite <- dyadic_opp. lra. }
    assert (dyadic (- kH) eH <= dyadic M g)%Q as HMlo'.
    { destruct (Z.max_spec (- kH) 0) as [[Hle Heq]|[Hle Heq]]; rewrite Heq in HMlo.
      - assert (0 <= - (- kH)) as Hn by lia. apply (dyadic_nonneg _ eH) in Hn.
        rewrite <- dyadic_opp in Hn. rewrite dyadic_0 in HMlo. lra.
      - done. }
    rewrite <- dyadic_opp in HMlo', HMhi.
    destruct Hres as [[HM0 ->]|(m' & e' & -> & Hval)].
    + cbn. rewrite HM0, dyadic_0 in *. split; [done|]. lra.
    + cbn [is_finite to_Q cond_Zopp]. split; [done|].
      change (Z.neg m') with (- Z.pos m'). rewrite <- dyadic_opp, Hval. lra.
  - (* positive *)
    assert (0 < kH) as HkHpos by (apply (dyadic_pos_inv _ eH); lra).
    destruct (round_aux_bounds false m e (Z.max kL 0) eL kH eH)
      as (M & g & HMlo & HMhi & Hres); try lia.
    { destruct (Z.max_spec kL 0) as [[_ ->]|[_ ->]]; [rewrite dyadic_0; lra|done]. }
    { done. }
    assert (dyadic kL eL <= dyadic M g)%Q as HMlo'.
    { destruct (Z.max_spec kL 0) as [[Hle Heq]|[Hle Heq]]; rewrite Heq in HMlo.
      - assert (0 <= - kL) as Hn by lia. apply (dyadic_nonneg _ eL) in Hn.
        rewrite <- dyadic_opp in Hn. rewrite dyadic_0 in HMlo. lra.
      - done. }
    destruct Hres as [[HM0 ->]|(m' & e' & -> & Hval)].
    + cbn. rewrite HM0, dyadic_0 in *. split; [done|]. lra.
    + cbn [is_finite to_Q cond_Zopp]. split; [done|]. rewrite Hval. lra.
Qed.

Lemma Pos_iter_xO m d : Zpos (Pos.iter xO m d) = Zpos m * 2 ^ Zpos d.
Proof.
  induction d as [|d IH] using Pos.peano_ind.
  - cbn. lia.
  - rewrite Pos.iter_succ, Pos2Z.inj_xO, IH, Pos2Z.inj_succ, Z.pow_succ_r by lia. lia.
Qed.

Lemma shl_align_value m e e' :
  (dyadic (Zpos (shl_align m e e').1) (shl_align m e e').2 == dyadic (Zpos m) e)%Q.
Proof.
  unfold shl_align. destruct (e' - e) as [|d|d] eqn:Hd; cbn [fst snd]; try done.
  rewrite Pos_iter_xO. rewrite (dyadic_shift (Zpos m) e e') by lia.
  replace (e - e') with (Zpos d) by lia. done.
Qed.

Lemma binary_round_signed s m e kL eL kH eH :
  rep kL eL -> rep kH eH ->
  (dyadic kL eL <= dyadic (cond_Zopp s (Zpos m)) e)%Q ->
  (dyadic (cond_Zopp s (Zpos m)) e <= dyadic kH eH)%Q ->
  let r := binary_round prec emax s m e in
  is_finite r = true ∧ (dyadic kL eL <= to_Q r)%Q ∧ (to_Q r <= dyadic kH eH)%Q.
Proof.
  intros HL HH Hlo Hhi. unfold binary_round.
  pose proof (shl_align_value m e (fexp prec emax (Zpos (digits2_pos m) + e))) as Hval.
  destruct (shl_align m e _) as [mz ez]. cbn [fst snd] in Hval.
  apply round_aux_signed; try done.
  - destruct s; cbn [cond_Zopp] in *.
    + change (Z.neg mz) with (- Z.pos mz). change (Z.neg m) with (- Z.pos m) in Hlo.
      rewrite <- dyadic_opp in *. by rewrite Hval.
    + by rewrite Hval.
  - destruct s; cbn [cond_Zopp] in *.
    + change (Z.neg mz) with (- Z.pos mz). change (Z.neg m) with (- Z.pos m) in Hhi.
      rewrite <- dyadic_opp in *. by rewrite Hval.
    + by rewrite Hval.
Qed.

Lemma normalize_bounds M e szero kL eL kH eH :
  rep kL eL -> rep kH eH ->
  (dyadic kL eL <= dyadic M e)%Q -> (dyadic M e <= dyadic kH eH)%Q ->
  let r := binary_normalize prec emax M e szero in
  is_finite r = true ∧ (dyadic kL eL <= to_Q r)%Q ∧ (to_Q r <= dyadic kH eH)%Q.
Proof.
  intros HL HH Hlo Hhi. destruct M as [|m|m]; cbn [binary_normalize].
  - cbn. rewrite dyadic_0 in *. done.
  - by apply (binary_round_signed false).
  - by apply (binary_round_signed true).
Qed.

(** The three operations keep a result between representable bounds of
    the exact result. *)
Lemma mul_bounds x y kL eL kH eH :
  is_finite x = true -> is_finite y = true ->
  rep kL eL -> rep kH eH ->
  (dyadic kL eL <= to_Q x * to_Q y)%Q -> (to_Q x * to_Q y <= dyadic kH eH)%Q ->
  is_finite (mul x y) = true ∧
  (dyadic kL eL <= to_Q (mul x y))%Q ∧ (to_Q (mul x y) <= dyadic kH eH)%Q.
Proof.
  intros Hx Hy HL HH Hlo Hhi.
  destruct x as [sx|sx| |sx mx ex], y as [sy|sy| |sy my ey]; try done;
    cbn [mul SFmul to_Q is_finite] in *; try (split; [done|]; lra).
  assert (dyadic (cond_Zopp sx (Z.pos mx)) ex * dyadic (cond_Zopp sy (Z.pos my)) ey
            == dyadic (cond_Zopp (xorb sx sy) (Zpos (mx * my))) (ex + ey))%Q as Hval.
  { rewrite dyadic_mul. by destruct sx, sy. }
  rewrite Hval in Hlo, Hhi. by apply round_aux_signed.
Qed.

Lemma shl_align_fst m e c : c <= e -> Zpos (shl_align m e c).1 = Zpos m * 2 ^ (e - c).
Proof.
  intros Hc. unfold shl_align. destruct (c - e) as [|d|d] eqn:Hd; cbn [fst]; try lia.
  - replace (e - c) with 0 by lia. lia.
  - rewrite Pos_iter_xO. f_equal. f_equal. lia.
Qed.

Lemma cond_Zopp_mul s a b : cond_Zopp s a * b = cond_Zopp s (a * b).
Proof. destruct s; cbn; lia. Qed.

Lemma aligned_sum sx mx ex sy my ey (sign : Z) :
  sign = 1 ∨ sign = -1 ->
  let ez := Z.min ex ey in
  (dyadic (cond_Zopp sx (Zpos (shl_align mx ex ez).1)
           + sign * cond_Zopp sy (Zpos (shl_align my ey ez).1)) ez
   == dyadic (cond_Zopp sx (Zpos mx)) ex + inject_Z sign * dyadic (cond_Zopp sy (Zpos my)) ey)%Q.
Proof.
  intros Hsign ez. rewrite !shl_align_fst by lia.
  rewrite (dyadic_shift (cond_Zopp sx (Z.pos mx)) ex ez) by lia.
  rewrite (dyadic_shift (cond_Zopp sy (Z.pos my)) ey ez) by lia.
  rewrite !cond_Zopp_mul. unfold dyadic.
  rewrite inject_Z_plus, inject_Z_mult. ring.
Qed.

Lemma add_bounds x y kL eL kH eH :
  is_finite x = true -> is_finite y = true ->
  rep kL eL -> rep kH eH ->
  (dyadic kL eL <= to_Q x + to_Q y)%Q -> (to_Q x + to_Q y <= dyadic kH eH)%Q ->
  is_finite (add x y) = true ∧
  (dyadic kL eL <= to_Q (add x y))%Q ∧ (to_Q (add x y) <= dyadic kH eH)%Q.
Proof.
  intros Hx Hy HL HH Hlo Hhi.
  destruct x as [sx|sx| |sx mx ex], y as [sy|sy| |sy my ey]; try done;
    cbn [to_Q is_finite] in *; unfold add; cbn [SFadd].
  - destruct sx, sy; cbn; (split; [done|]); lra.
  - cbn [to_Q is_finite]. split; [done|]. lra.
  - cbn [to_Q is_finite]. split; [done|]. lra.
  - pose proof (aligned_sum sx mx ex sy my ey 1 ltac:(by left)) as Hval.
    cbn zeta in Hval. rewrite Z.mul_1_l in Hval. change (inject_Z 1) with 1%Q in Hval.
    apply normalize_bounds; try done; rewrite Hval; lra.
Qed.

Lemma sub_bounds x y kL eL kH eH :
  is_finite x = true -> is_finite y = true ->
  rep kL eL -> rep kH eH ->
  (dyadic kL eL <= to_Q x - to_Q y)%Q -> (to_Q x - to_Q y <= dyadic kH eH)%Q ->
  is_finite (sub x y) = true ∧
  (dyadic kL eL <= to_Q (sub x y))%Q ∧ (to_Q (sub x y) <= dyadic kH eH)%Q.
Proof.
  intros Hx Hy HL HH Hlo Hhi.
  destruct x as [sx|sx| |sx mx ex], y as [sy|sy| |sy my ey]; try done;
    cbn [to_Q is_finite] in *; unfold sub; cbn [SFsub].
  - destruct sx, sy; cbn; (split; [done|]); lra.
  - cbn [to_Q is_finite]. split; [done|].
    assert (dyadic (cond_Zopp (negb sy) (Z.pos my)) ey
            == - dyadic (cond_Zopp sy (Z.pos my)) ey)%Q as ->.
    { rewrite dyadic_opp. by destruct sy. }
    lra.
  - cbn [to_Q is_finite]. split; [done|]. lra.
  - pose proof (aligned_sum sx mx ex sy my ey (-1) ltac:(by right)) as Hval.
    cbn zeta in Hval.
    assert (forall a b, a + -1 * b = a - b) as Hminus by (intros; lia).
    rewrite Hminus in Hval. change (inject_Z (-1)) with (-1 # 1)%Q in Hval.
    apply normalize_bounds; try done; rewrite Hval; lra.
Qed.

Lemma of_Z_value z :
  Z.abs z < 2 ^ 53 -> is_finite (of_Z z) = true ∧ (to_Q (of_Z z) == inject_Z z)%Q.
Proof.
  intros Hz.
  destruct (normalize_bounds z 0 false z 0 z 0) as (Hfin & Hlo & Hhi);
    try (split; lia); try apply Qle_refl.
  split; [done|]. rewrite dyadic_Z in Hlo, Hhi. by apply Qle_antisym.
Qed.

Lemma floor_spec x :
  is_finite x = true -> (0 < to_Q x)%Q ->
  exists z, Math_floor x = of_Z z ∧ (inject_Z z <= to_Q x)%Q ∧
    (forall L, (inject_Z L <= to_Q x)%Q -> L <= z).
Proof.
  intros Hfin Hpos. destruct x as [s|s| |s m e]; try done; cbn [to_Q] in *.
  destruct s; cbn [cond_Zopp] in *.
  { change (Z.neg m) with (- Z.pos m) in Hpos. rewrite <- dyadic_opp in Hpos.
    pose proof (dyadic_sign_pos (Zpos m) e ltac:(lia)). lra. }
  unfold Math_floor. cbn [cond_Zopp].
  destruct (0 <=? e) eqn:He.
  - apply Z.leb_le in He. exists (Zpos m * 2 ^ e). split; [done|].
    rewrite <- dyadic_Z. rewrite (dyadic_shift (Zpos m) e 0) by done.
    rewrite Z.sub_0_r. split; [apply Qle_refl|].
    intros L HL. rewrite <- dyadic_Z in HL.
    rewrite (dyadic_shift (Zpos m) e 0), Z.sub_0_r in HL by done.
    by apply dyadic_le_same in HL.
  - apply Z.leb_gt in He. exists (Zpos m / 2 ^ (- e)). split; [done|].
    assert (0 < 2 ^ (- e)) by (apply Z.pow_pos_nonneg; lia).
    split.
    + rewrite <- dyadic_Z. apply (dyadic_le _ _ _ _ e); [lia|lia|].
      replace (e - e) with 0 by lia. replace (0 - e) with (- e) by lia.
      rewrite Z.pow_0_r, Z.mul_1_r.
      rewrite Z.mul_comm. apply Z.mul_div_le. lia.
    + intros L HL. rewrite <- dyadic_Z in HL.
      apply (dyadic_le _ _ _ _ e) in HL; [|lia|lia].
      replace (e - e) with 0 in HL by lia. replace (0 - e) with (- e) in HL by lia.
      rewrite Z.pow_0_r, Z.mul_1_r in HL.
      apply Z.div_le_lower_bound; lia.
Qed.

Lemma unit_interval_value random :
  unit_interval random ->
  is_finite random = true ∧ (0 <= to_Q random)%Q ∧ (to_Q random < 1)%Q.
Proof.
  destruct random as [[]|s| |[] m e]; try done; cbn [unit_interval is_finite to_Q].
  intros [_ Hd]. split; [done|]. cbn [cond_Zopp].
  split; [apply dyadic_nonneg; lia|].
  pose proof (digits_bounds m) as Hm.
  set (d := Zpos (digits2_pos m)) in *.
  assert (dyadic (Zpos m) e < dyadic 1 0)%Q; [|by rewrite dyadic_Z in *].
  apply Qnot_le_lt. intros Hle.
  apply (dyadic_le _ _ _ _ e) in Hle; [|lia|lia].
  replace (e - e) with 0 in Hle by lia.
  rewrite Z.pow_0_r, Z.mul_1_r, Z.mul_1_l in Hle.
  assert (2 ^ d <= 2 ^ (0 - e)) by (apply Z.pow_le_mono_r; lia). lia.
Qed.

Lemma to_Q_two : (to_Q two == 2)%Q.
Proof. vm_compute. reflexivity. Qed.

Lemma to_Q_one : (to_Q one == 1)%Q.
Proof. vm_compute. reflexivity. Qed.

Lemma to_Q_quarter : (to_Q quarter == 1 # 4)%Q.
Proof. vm_compute. reflexivity. Qed.

(** The jitter of [calculateDelay] on a whole delay [D], for a factor
    between the whole numbers [a] and [b]. *)
Lemma jittered_between D factor a b :
  1 <= D -> 5 * D < 2 ^ 53 -> -1 <= a -> b <= 1 ->
  is_finite factor = true -> (inject_Z a <= to_Q factor)%Q -> (to_Q factor <= inject_Z b)%Q ->
  exists z,
    Math_floor (add (of_Z D) (mul (mul (of_Z D) quarter) factor)) = of_Z z ∧
    (4 + a) * D / 4 <= z <= (4 + b) * D / 4.
Proof.
  intros HD1 HD5 Ha Hb Hffin Hflo Hfhi.
  assert (a <= b) as Hab by (rewrite Zle_Qle; lra).
  destruct (of_Z_value D ltac:(lia)) as [HDfin HDval].
  assert (is_finite quarter = true) as H4fin by done.
  (* delay * 0.25 *)
  assert (forall k, dyadic (k * D) (-2) == inject_Z k * inject_Z D * (1 # 4))%Q as Hquarter.
  { intros k. unfold dyadic. rewrite inject_Z_mult. done. }
  destruct (mul_bounds (of_Z D) quarter (1 * D) (-2) (1 * D) (-2)) as (Hqfin & Hqlo & Hqhi);
    try done; try (split; lia);
    try (rewrite to_Q_quarter, HDval, Hquarter; change (inject_Z 1) with 1%Q; lra).
  rewrite Hquarter in Hqlo, Hqhi. change (inject_Z 1) with 1%Q in Hqlo, Hqhi.
  set (q := mul (of_Z D) quarter) in *.
  assert (1 <= inject_Z D)%Q as HDq by (by rewrite <- (Zle_Qle 1)).
  assert (-1 # 1 <= inject_Z a)%Q as Haq by (by rewrite <- (Zle_Qle (-1))).
  assert (inject_Z b <= 1)%Q as Hbq by (by rewrite <- (Zle_Qle _ 1)).
  (* the jitter *)
  destruct (mul_bounds q factor (a * D) (-2) (b * D) (-2)) as (Hjfin & Hjlo & Hjhi);
    try done; try (split; [nia|lia]).
  { rewrite Hquarter. nra. }
  { rewrite Hquarter. nra. }
  rewrite Hquarter in Hjlo, Hjhi.
  set (j := mul q factor) in *.
  (* the sum *)
  destruct (add_bounds (of_Z D) j ((4 + a) * D) (-2) ((4 + b) * D) (-2))
    as (Hsfin & Hslo & Hshi); try done; try (split; [nia|lia]).
  { rewrite Hquarter, HDval, inject_Z_plus. change (inject_Z 4) with 4%Q. lra. }
  { rewrite Hquarter, HDval, inject_Z_plus. change (inject_Z 4) with 4%Q. lra. }
  rewrite Hquarter in Hslo, Hshi.
  set (sum := add (of_Z D) j) in *.
  assert (0 < to_Q sum)%Q as Hpos.
  { eapply Qlt_le_trans; [|exact Hslo]. rewrite inject_Z_plus.
    change (inject_Z 4) with 4%Q. nra. }
  destruct (floor_spec sum Hsfin Hpos) as (z & Hfloor & Hzle & Hzge).
  exists z. split; [done|]. split.
  - apply Hzge. eapply Qle_trans; [|exact Hslo].
    assert (inject_Z ((4 + a) * D / 4) * 4 <= inject_Z (4 + a) * inject_Z D)%Q; [|lra].
    change 4%Q with (inject_Z 4).
    rewrite <- !inject_Z_mult, <- Zle_Qle.
    pose proof (Z.mul_div_le ((4 + a) * D) 4 ltac:(lia)). lia.
  - apply Z.div_le_lower_bound; [lia|].
    assert (inject_Z z * 4 <= inject_Z (4 + b) * inject_Z D)%Q as Hz by lra.
    change 4%Q with (inject_Z 4) in Hz.
    rewrite <- !inject_Z_mult, <- Zle_Qle in Hz. lia.
Qed.

(** For the factor [random * 2 - 1] of the code, [random] below 1: the
    result is a whole number between three and five quarters of [D]. *)
Lemma jittered_floor D random :
  1 <= D -> 5 * D < 2 ^ 53 -> unit_interval random ->
  exists z,
    Math_floor (add (of_Z D) (mul (mul (of_Z D) quarter) (sub (mul random two) one)))
    = of_Z z ∧
    3 * D / 4 <= z <= 5 * D / 4.
Proof.
  intros HD1 HD5 Hrandom.
  destruct (unit_interval_value random Hrandom) as (Hrfin & Hr0 & Hr1).
  assert (is_finite two = true ∧ is_finite one = true) as (H2fin & H1fin) by done.
  (* random * 2 *)
  destruct (mul_bounds random two 0 0 2 0) as (Hr2fin & Hr2lo & Hr2hi);
    try done; try (split; [done|lia]);
    try (rewrite to_Q_two, dyadic_Z; change (inject_Z 0) with 0%Q;
         change (inject_Z 2) with 2%Q; lra).
  rewrite dyadic_Z in Hr2lo, Hr2hi.
  change (inject_Z 0) with 0%Q in Hr2lo. change (inject_Z 2) with 2%Q in Hr2hi.
  set (r2 := mul random two) in *.
  (* random * 2 - 1 *)
  destruct (sub_bounds r2 one (-1) 0 1 0) as (Hffin & Hflo & Hfhi);
    try done; try (split; [done|lia]);
    try (rewrite to_Q_one, dyadic_Z; change (inject_Z (-1)) with (-1 # 1)%Q;
         change (inject_Z 1) with 1%Q; lra).
  rewrite dyadic_Z in Hflo, Hfhi.
  apply (jittered_between D _ (-1) 1); done || lia.
Qed.

(** At the ends: [random = 0] takes a quarter off, [random = 0.5] leaves
    the delay as it is. *)
Lemma jittered_floor_zero D :
  1 <= D -> 5 * D < 2 ^ 53 ->
  Math_floor (add (of_Z D) (mul (mul (of_Z D) quarter)
                              (sub (mul (S754_zero false) two) one)))
  = of_Z (3 * D / 4).
Proof.
  intros HD1 HD5.
  destruct (jittered_between D (sub (mul (S754_zero false) two) one) (-1) (-1))
    as (z & -> & Hz); try done; try lia.
  f_equal. change (4 + -1) with 3 in Hz. lia.
Qed.

Lemma jittered_floor_half D :
  1 <= D -> 5 * D < 2 ^ 53 ->
  Math_floor (add (of_Z D) (mul (mul (of_Z D) quarter) (sub (mul half two) one)))
  = of_Z D.
Proof.
  intros HD1 HD5.
  destruct (jittered_between D (sub (mul half two) one) 0 0)
    as (z & -> & Hz); try done; try lia.
  f_equal. change (4 + 0) with 4 in Hz.
  rewrite (Z.mul_comm 4 D), Z.div_mul in Hz by done. lia.
Qed.

Lemma pow_exact_two : pow_of_two pow_exact.
Proof.
  intros n Hn. destruct n as [|p|p]; [done| |lia].
  unfold pow_exact, pow_pos, pow_two. cbn [two of_Z].
  change two with (S754_finite false 4503599627370496 (-51)).
  cbn [andb]. unfold binary_round.
  assert (Hm : Zpos (4503599627370496 ^ p) = 2 ^ (52 * Zpos p)).
  { rewrite Pos2Z.inj_pow. change (Zpos 4503599627370496) with (2 ^ 52).
    rewrite <- Z.pow_mul_r by lia. done. }
  assert (Hd : Zpos (digits2_pos (4503599627370496 ^ p)) = 52 * Zpos p + 1).
  { rewrite digits2_pos_log2, Hm, Z.log2_pow2 by lia. done. }
  rewrite Hd, fexp_eq.
  replace (Z.max (52 * Zpos p + 1 + -51 * Zpos p - 53) (-1074)) with (Zpos p - 52) by lia.
  unfold shl_align.
  destruct (Zpos p - 52 - -51 * Zpos p) as [|d|d] eqn:Hdiff; [| |lia].
  - assert (p = 1%positive) as -> by lia. cbn. done.
  - pose proof (round_aux_shift false (4503599627370496 ^ p) (-51 * Zpos p)) as Hr.
    cbn zeta in Hr. rewrite Hd, fexp_eq in Hr.
    replace (Z.max (52 * Zpos p + 1 + -51 * Zpos p - 53) (-1074)) with (Zpos p - 52) in Hr by lia.
    destruct Hr as (M & _ & Hexact & _ & Hres); [lia|].
    rewrite Hm in *.
    assert (HM : M = 2 ^ 52).
    { replace (52 * Zpos p) with (52 + (Zpos p - 52 - -51 * Zpos p)) in Hexact by lia.
      rewrite Z.pow_add_r in Hexact by lia.
      rewrite Z.mod_mul, Z.div_mul in Hexact by (apply Z.pow_nonzero; lia).
      by apply Hexact. }
    destruct Hres as [[HM0 _]|[(_ & _ & ->)|[HM53 _]]].
    + rewrite HM in HM0. done.
    + rewrite HM. change (Z.to_pos (2 ^ 52)) with 4503599627370496%positive.
      destruct (Z.ltb_spec (Zpos p) 1024), (Z.leb_spec (Zpos p - 52) 971); try lia; done.
    + rewrite HM in HM53. done.
Qed.

Lemma shl_align_snd m e c : c <= e -> (shl_align m e c).2 = c.
Proof.
  intros Hc. unfold shl_align. destruct (c - e) as [|d|d] eqn:Hd; cbn; lia.
Qed.

Lemma significand_bounds b :
  0 < b < 2 ^ 53 ->
  2 ^ 52 <= Zpos (significand b) < 2 ^ 53 ∧
  Zpos (significand b) = b * 2 ^ (53 - Zdigits2 b).
Proof.
  intros Hb. pose proof (Zdigits2_le_53 b Hb) as Hd.
  assert (Hlog := Zdigits2_log2 b ltac:(lia)).
  assert (Hspec := Z.log2_spec b ltac:(lia)).
  replace (Z.log2 b) with (Zdigits2 b - 1) in Hspec by lia.
  replace (Z.succ (Zdigits2 b - 1)) with (Zdigits2 b) in Hspec by lia.
  assert (H52 : 2 ^ 52 = 2 ^ (Zdigits2 b - 1) * 2 ^ (53 - Zdigits2 b)).
  { rewrite <- Z.pow_add_r by lia. f_equal. lia. }
  assert (H53 : 2 ^ 53 = 2 ^ Zdigits2 b * 2 ^ (53 - Zdigits2 b)).
  { rewrite <- Z.pow_add_r by lia. f_equal. lia. }
  assert (0 < 2 ^ (53 - Zdigits2 b)) by (apply Z.pow_pos_nonneg; lia).
  unfold significand. rewrite Z2Pos.id by nia. split; [|done].
  rewrite H52, H53. nia.
Qed.

Lemma of_Z_finite b :
  0 < b < 2 ^ 53 -> of_Z b = S754_finite false (significand b) (Zdigits2 b - 53).
Proof.
  intros Hb. destruct (significand_bounds b Hb) as [Hs Hv].
  pose proof (Zdigits2_le_53 b Hb) as Hd.
  destruct b as [|p|p]; [lia| |lia].
  unfold of_Z, binary_normalize, binary_round.
  change (Zpos (digits2_pos p)) with (Zdigits2 (Zpos p)).
  rewrite Z.add_0_r, fexp_eq.
  replace (Z.max (Zdigits2 (Zpos p) - 53) (-1074)) with (Zdigits2 (Zpos p) - 53) by lia.
  destruct (shl_align p 0 (Zdigits2 (Zpos p) - 53)) as [mz ez] eqn:Hal.
  assert (Hmz : Zpos mz = Zpos (significand (Zpos p))).
  { pose proof (shl_align_fst p 0 (Zdigits2 (Zpos p) - 53) ltac:(lia)) as Hf.
    rewrite Hal in Hf. cbn [fst] in Hf. rewrite Hf, Hv. f_equal. f_equal. lia. }
  assert (Hez : ez = Zdigits2 (Zpos p) - 53).
  { pose proof (shl_align_snd p 0 (Zdigits2 (Zpos p) - 53) ltac:(lia)) as Hf.
    by rewrite Hal in Hf. }
  injection Hmz as ->. subst ez.
  apply round_aux_exact; [|lia].
  change (Zpos (digits2_pos (significand (Zpos p))))
    with (Zdigits2 (Zpos (significand (Zpos p)))).
  rewrite (Zdigits2_unique _ 53); [|lia|change (53 - 1) with 52; lia].
  rewrite fexp_eq. lia.
Qed.

Lemma of_Z_shift b k :
  0 < b -> 0 <= k -> b * 2 ^ k < 2 ^ 53 ->
  of_Z (b * 2 ^ k) = S754_finite false (significand b) (Zdigits2 b + k - 53).
Proof.
  intros Hb Hk Hlt.
  assert (0 < 2 ^ k) by (apply Z.pow_pos_nonneg; lia).
  assert (Hd : Zdigits2 (b * 2 ^ k) = Zdigits2 b + k).
  { rewrite !Zdigits2_log2 by nia. rewrite Z.log2_mul_pow2 by lia. lia. }
  assert (Zdigits2 b + k <= 53).
  { pose proof (Zdigits2_le_53 (b * 2 ^ k) ltac:(nia)). lia. }
  assert (0 < Zdigits2 b) by (rewrite Zdigits2_log2 by lia; pose proof (Z.log2_nonneg b); lia).
  rewrite of_Z_finite by nia. rewrite Hd. f_equal.
  unfold significand. rewrite Hd. f_equal.
  rewrite <- Z.mul_assoc, <- Z.pow_add_r by lia. f_equal. f_equal. lia.
Qed.

Lemma mul_pow_two b k :
  0 < b < 2 ^ 53 -> 0 <= k ->
  mul (of_Z b) (pow_two k)
  = if Zdigits2 b + k <=? 1024
    then S754_finite false (significand b) (Zdigits2 b + k - 53)
    else S754_infinity false.
Proof.
  intros Hb Hk. destruct (significand_bounds b Hb) as [Hs Hv].
  pose proof (Zdigits2_le_53 b Hb) as Hd.
  rewrite of_Z_finite by done. unfold pow_two.
  destruct (Z.ltb_spec k 1024) as [Hlt|Hge].
  - unfold mul, SFmul. cbn [xorb].
    pose proof (round_aux_shift false (significand b * 4503599627370496)
                  (Zdigits2 b - 53 + (k - 52))) as Hr.
    cbn zeta in Hr.
    assert (Hdig : Zpos (digits2_pos (significand b * 4503599627370496)) = 105).
    { change (Zpos (digits2_pos ?p)) with (Zdigits2 (Zpos p)).
      apply Zdigits2_unique; [lia|]. rewrite Pos2Z.inj_mul.
      change (Zpos 4503599627370496) with (2 ^ 52).
      change (2 ^ (105 - 1)) with (2 ^ 52 * 2 ^ 52). change (2 ^ 105) with (2 ^ 53 * 2 ^ 52).
      nia. }
    rewrite Hdig, fexp_eq in Hr.
    replace (Z.max (105 + (Zdigits2 b - 53 + (k - 52)) - 53) (-1074))
      with (Zdigits2 b + k - 53) in Hr by lia.
    destruct Hr as (M & _ & Hexact & _ & Hres); [lia|].
    replace (Zdigits2 b + k - 53 - (Zdigits2 b - 53 + (k - 52))) with 52 in Hexact by lia.
    rewrite Pos2Z.inj_mul in Hexact. change (Zpos 4503599627370496) with (2 ^ 52) in Hexact.
    rewrite Z.mod_mul, Z.div_mul in Hexact by done.
    specialize (Hexact eq_refl). subst M.
    destruct Hres as [[HM0 _]|[(_ & _ & ->)|[HM53 _]]]; [lia| |lia].
    rewrite Pos2Z.id.
    destruct (Z.leb_spec (Zdigits2 b + k - 53) 971), (Z.leb_spec (Zdigits2 b + k) 1024);
      try lia; done.
  - cbn. destruct (Z.leb_spec (Zdigits2 b + k) 1024); [lia|done].
Qed.

Lemma compare_of_Z a b :
  0 <= a < 2 ^ 53 -> 0 <= b < 2 ^ 53 -> SFcompare (of_Z a) (of_Z b) = Some (a ?= b).
Proof.
  intros Ha Hb.
  destruct (Z.eq_dec a 0) as [->|Hna], (Z.eq_dec b 0) as [->|Hnb]; [done| | |].
  - rewrite (of_Z_finite b) by lia. change (of_Z 0) with (S754_zero false).
    cbn [SFcompare]. f_equal. symmetry. apply Z.compare_lt_iff. lia.
  - rewrite (of_Z_finite a) by lia. change (of_Z 0) with (S754_zero false).
    cbn [SFcompare]. f_equal. symmetry. apply Z.compare_gt_iff. lia.
  - destruct (significand_bounds a ltac:(lia)) as [Hsa Hva].
    destruct (significand_bounds b ltac:(lia)) as [Hsb Hvb].
    pose proof (Zdigits2_le_53 a ltac:(lia)) as Hda.
    pose proof (Zdigits2_le_53 b ltac:(lia)) as Hdb.
    assert (Hloga := Zdigits2_log2 a ltac:(lia)).
    assert (Hlogb := Zdigits2_log2 b ltac:(lia)).
    assert (Hspeca := Z.log2_spec a ltac:(lia)).
    assert (Hspecb := Z.log2_spec b ltac:(lia)).
    rewrite !of_Z_finite by lia. cbn [SFcompare]. f_equal.
    destruct (Z.compare_spec (Zdigits2 a - 53) (Zdigits2 b - 53)) as [He|He|He].
    + change (Pcompare ?x ?y Eq) with (Zpos x ?= Zpos y).
      rewrite Hva, Hvb. replace (Zdigits2 b) with (Zdigits2 a) by lia.
      assert (0 < 2 ^ (53 - Zdigits2 a)) by (apply Z.pow_pos_nonneg; lia).
      destruct (Z.compare_spec (a * 2 ^ (53 - Zdigits2 a)) (b * 2 ^ (53 - Zdigits2 a))),
        (Z.compare_spec a b); try done; nia.
    + symmetry. apply Z.compare_lt_iff.
      assert (2 ^ Z.succ (Z.log2 a) <= 2 ^ Z.log2 b) by (apply Z.pow_le_mono_r; lia).
      lia.
    + symmetry. apply Z.compare_gt_iff.
      assert (2 ^ Z.succ (Z.log2 b) <= 2 ^ Z.log2 a) by (apply Z.pow_le_mono_r; lia).
      lia.
Qed.

Lemma of_Z_not_negative_zero a : 0 <= a < 2 ^ 53 -> of_Z a ≠ S754_zero true.
Proof.
  intros Ha. destruct (Z.eq_dec a 0) as [->|Hna]; [done|].
  by rewrite of_Z_finite by lia.
Qed.

Lemma Math_min_of_Z a b :
  0 <= a < 2 ^ 53 -> 0 <= b < 2 ^ 53 -> Math_min (of_Z a) (of_Z b) = of_Z (Z.min a b).
Proof.
  intros Ha Hb. unfold Math_min. rewrite compare_of_Z by done.
  pose proof (of_Z_not_negative_zero a Ha) as Hnz.
  unfold Z.min. destruct (Z.compare_spec a b) as [->|Hlt|Hgt]; [|done|done].
  destruct (of_Z b) as [[]| | |]; done.
Qed.

(** The delay before jitter, when [baseDelay] and [maxDelay] are whole
    numbers and the multiplier is 2: the doubles make no error. *)
Lemma clamped_whole b M k :
  0 < b < 2 ^ 53 -> 0 <= M < 2 ^ 53 -> 0 <= k ->
  Math_min (mul (of_Z b) (pow_two k)) (of_Z M) = of_Z (Z.min (b * 2 ^ k) M).
Proof.
  intros Hb HM Hk. rewrite mul_pow_two by done.
  pose proof (Zdigits2_le_53 b Hb) as Hd.
  assert (Hlog := Zdigits2_log2 b ltac:(lia)).
  assert (Hspec := Z.log2_spec b ltac:(lia)).
  assert (0 < 2 ^ k) by (apply Z.pow_pos_nonneg; lia).
  destruct (Z.le_gt_cases (Zdigits2 b + k) 53) as [Hsmall|Hbig].
  - assert (Hlt : b * 2 ^ k < 2 ^ 53).
    { assert (2 ^ (Zdigits2 b + k) <= 2 ^ 53) by (apply Z.pow_le_mono_r; lia).
      rewrite Z.pow_add_r in * by lia.
      replace (Z.succ (Z.log2 b)) with (Zdigits2 b) in Hspec by lia. nia. }
    destruct (Z.leb_spec (Zdigits2 b + k) 1024); [|lia].
    rewrite <- of_Z_shift by lia. apply Math_min_of_Z; [nia|done].
  - assert (Hge : 2 ^ 53 <= b * 2 ^ k).
    { assert (2 ^ 53 <= 2 ^ (Z.log2 b + k)) by (apply Z.pow_le_mono_r; lia).
      rewrite Z.pow_add_r in * by (pose proof (Z.log2_nonneg b); lia). nia. }
    rewrite Z.min_r by lia.
    assert (Hgt : forall x, SFcompare x (of_Z M) = Some Gt -> Math_min x (of_Z M) = of_Z M).
    { intros x Hx. unfold Math_min. by rewrite Hx. }
    apply Hgt.
    destruct (Z.eq_dec M 0) as [->|HnM].
    + by destruct (Zdigits2 b + k <=? 1024).
    + rewrite (of_Z_finite M) by lia.
      pose proof (Zdigits2_le_53 M ltac:(lia)) as HdM.
      destruct (Zdigits2 b + k <=? 1024); [|done].
      cbn [SFcompare]. f_equal.
      destruct (Z.compare_spec (Zdigits2 b + k - 53) (Zdigits2 M - 53)); [lia|lia|done].
Qed.

Lemma floor_of_Z D : 0 <= D < 2 ^ 53 -> Math_floor (of_Z D) = of_Z D.
Proof.
  intros HD. destruct (Z.eq_dec D 0) as [->|Hn]; [done|].
  destruct (significand_bounds D ltac:(lia)) as [Hs Hv].
  pose proof (Zdigits2_le_53 D ltac:(lia)) as Hd.
  rewrite of_Z_finite by lia. unfold Math_floor. cbn [cond_Zopp].
  rewrite <- of_Z_finite by lia. unfold of_Z. f_equal.
  destruct (Z.leb_spec 0 (Zdigits2 D - 53)).
  - rewrite Hv. replace (53 - Zdigits2 D) with 0 by lia.
    replace (Zdigits2 D - 53) with 0 by lia. lia.
  - rewrite Hv. replace (- (Zdigits2 D - 53)) with (53 - Zdigits2 D) by lia.
    apply Z.div_mul. apply Z.pow_nonzero; lia.
Qed.

End DoubleFacts.

(** ** RetryHandler *)

Section RetryHandlerClaims.
Import Errors Double RetryHandler.
Import CircuitBreaker (attempt, Succeeds, Fails).

Lemma surfaced_not_retried cfg e : surfaced e -> shouldRetry cfg e = false.
Proof. intros []; cbn; apply andb_false_r. Qed.

Lemma attempts_retried {T} Math_pow cfg (operation : Z -> attempt T) random n :
  forall remaining attempt lastError e,
  (forall i, attempt <= i < attempt + Z.of_nat n ->
     i ≠ maxAttempts cfg ∧
     exists e', operation i = Fails e' ∧ shouldRetry cfg e' = true) ->
  operation (attempt + Z.of_nat n) = Fails e ->
  shouldRetry cfg e = false ->
  (n < remaining)%nat ->
  attempts Math_pow cfg operation random remaining attempt lastError =
    (retried Math_pow cfg random n attempt ++ [Attempt (attempt + Z.of_nat n)],
     Thrown (Some e)).
Proof.
  induction n as [|n IH]; intros remaining a lastError e Hbefore Hop Hno Hrem;
    (destruct remaining as [|remaining]; [lia|]); cbn [attempts retried].
  - rewrite Z.add_0_r in *. rewrite Hop, Hno. cbn.
    by destruct (a =? maxAttempts cfg).
  - destruct (Hbefore a) as (Hne & e' & He' & Hretry); [lia|].
    rewrite He', Hretry. apply Z.eqb_neq in Hne. rewrite Hne. cbn [negb].
    rewrite (IH remaining (a + 1) (Some e') e).
    + replace (a + 1 + Z.of_nat n) with (a + Z.of_nat (S n)) by lia. done.
    + intros i Hi. apply Hbefore. lia.
    + rewrite <- Hop. f_equal. lia.
    + done.
    + lia.
Qed.

(** C8.  When the operation fails with the circuit-open, rate-limit,
    resource-limit or operation-timeout error on some attempt (the earlier
    attempts having failed and been retried), [RetryHandler.execute]
    rethrows that error after that attempt: the attempt is the last step,
    with no sleep and no attempt after it. *)
Theorem execute_surfaces_without_retry {T} Math_pow cfg (operation : Z -> attempt T) random
    (n : nat) (e : error) :
  surfaced e ->
  Z.of_nat n < maxAttempts cfg ->
  (forall i, 1 <= i <= Z.of_nat n ->
     exists e', operation i = Fails e' ∧ shouldRetry cfg e' = true) ->
  operation (1 + Z.of_nat n) = Fails e ->
  execute Math_pow cfg operation random =
    (retried Math_pow cfg random n 1 ++ [Attempt (1 + Z.of_nat n)], Thrown (Some e)).
Proof.
  intros Hs Hn Hbefore Hop. unfold execute.
  apply attempts_retried.
  - intros i Hi. split; [lia|]. apply Hbefore. lia.
  - done.
  - by apply surfaced_not_retried.
  - lia.
Qed.

Lemma execute_surfaces_without_retry_witness :
  execute pow_exact default_config reset_then_open (fun _ => half) =
    ([Attempt 1; Sleep (of_Z 1000); Attempt 2], Thrown (Some (circuit_open_error "docs"))).
Proof.
  rewrite (execute_surfaces_without_retry pow_exact default_config reset_then_open
             (fun _ => half) 1 (circuit_open_error "docs")).
  - vm_compute. reflexivity.
  - constructor.
  - reflexivity.
  - intros i Hi. assert (i = 1) as -> by lia. eexists. split; reflexivity.
  - reflexivity.
Defined.

Lemma clampedDelay_whole Math_pow cfg b M attempt :
  pow_of_two Math_pow ->
  baseDelay cfg = of_Z b -> maxDelay cfg = of_Z M -> backoffMultiplier cfg = two ->
  0 < b < 2 ^ 53 -> 0 <= M < 2 ^ 53 -> 1 <= attempt ->
  clampedDelay Math_pow cfg attempt = of_Z (Z.min (b * 2 ^ (attempt - 1)) M).
Proof.
  intros Hpow Hb HM H2 Hbr HMr Ha. unfold clampedDelay.
  rewrite Hb, HM, H2, Hpow by lia. apply clamped_whole; done || lia.
Qed.

Lemma clampedDelay_example Math_pow attempt :
  pow_of_two Math_pow -> 1 <= attempt ->
  clampedDelay Math_pow backoff_example attempt
  = of_Z (Z.min (1000 * 2 ^ (attempt - 1)) 10000).
Proof.
  intros Hpow Ha. by apply clampedDelay_whole.
Qed.

Lemma leb_of_Z a b : 0 <= a < 2 ^ 53 -> 0 <= b < 2 ^ 53 -> a <= b -> SFleb (of_Z a) (of_Z b) = true.
Proof.
  intros Ha Hb Hab. unfold SFleb. rewrite compare_of_Z by done.
  destruct (Z.compare_spec a b); done || lia.
Qed.

(** C9.  The delay [calculateDelay] computes before jitter is
    [min(baseDelay * backoffMultiplier^(attempt-1), maxDelay)], in the
    doubles of the code: the result is its floor without jitter, and with
    jitter the floor of that delay plus [delay * 0.25 * (random * 2 - 1)].
    Where [baseDelay] and [maxDelay] are whole numbers, the multiplier is 2
    and [Math.pow] is exact on the powers of 2, the doubles make no error:
    for every attempt from 1 on the delay before jitter is the whole number
    [min(baseDelay * 2^(attempt-1), maxDelay)], and the jitter, for
    [Math.random()] below 1, gives a whole number between three and five
    quarters of it, three quarters at [random = 0] and the delay itself at
    [random = 0.5].  With [baseDelay = 1000], [backoffMultiplier = 2] and
    [maxDelay = 10000] the delay before jitter is 1000, 2000, 4000, 8000
    for attempts 1 to 4 and 10000 for every later attempt, and never
    decreases from one attempt to the next. *)
Theorem calculateDelay_backoff Math_pow :
  pow_of_two Math_pow ->
  (forall cfg random attempt,
     let delay :=
       Math_min (mul (baseDelay cfg) (Math_pow (backoffMultiplier cfg) (attempt - 1)))
                (maxDelay cfg) in
     clampedDelay Math_pow cfg attempt = delay ∧
     calculateDelay Math_pow cfg random attempt
       = Math_floor (if jitter cfg
                     then add delay (mul (mul delay quarter) (sub (mul random two) one))
                     else delay)) ∧
  (forall cfg b M attempt,
     baseDelay cfg = of_Z b -> maxDelay cfg = of_Z M -> backoffMultiplier cfg = two ->
     0 < b < 2 ^ 53 -> 0 <= M < 2 ^ 53 -> 1 <= attempt ->
     let D := Z.min (b * 2 ^ (attempt - 1)) M in
     clampedDelay Math_pow cfg attempt = of_Z D ∧
     (jitter cfg = false ->
      forall random, calculateDelay Math_pow cfg random attempt = of_Z D) ∧
     (jitter cfg = true -> 1 <= D -> 5 * D < 2 ^ 53 ->
      (forall random, unit_interval random ->
         exists z, calculateDelay Math_pow cfg random attempt = of_Z z ∧
                   3 * D / 4 <= z <= 5 * D / 4) ∧
      calculateDelay Math_pow cfg (S754_zero false) attempt = of_Z (3 * D / 4) ∧
      calculateDelay Math_pow cfg half attempt = of_Z D)) ∧
  clampedDelay Math_pow backoff_example <$> [1; 2; 3; 4]
    = of_Z <$> [1000; 2000; 4000; 8000] ∧
  (forall attempt, 5 <= attempt ->
     clampedDelay Math_pow backoff_example attempt = of_Z 10000) ∧
  (forall a b, 1 <= a <= b ->
     SFleb (clampedDelay Math_pow backoff_example a)
           (clampedDelay Math_pow backoff_example b) = true) ∧
  calculateDelay Math_pow backoff_example below_tenth 1 = of_Z 800.
Proof.
  intros Hpow. split; [|split; [|split; [|split; [|split]]]].
  - intros cfg random attempt delay. split; [done|].
    unfold calculateDelay, clampedDelay. by destruct (jitter cfg).
  - intros cfg b M attempt Hb HM H2 Hbr HMr Ha D.
    pose proof (clampedDelay_whole Math_pow cfg b M attempt Hpow Hb HM H2 Hbr HMr Ha) as HD.
    fold D in HD. split; [done|]. unfold calculateDelay. rewrite HD. split.
    + intros -> random. apply floor_of_Z. lia.
    + intros -> HD1 HD5. split; [|split].
      * intros random Hrandom. by apply jittered_floor.
      * by apply jittered_floor_zero.
      * by apply jittered_floor_half.
  - cbn [fmap list_fmap]. by rewrite !clampedDelay_example by (done || lia).
  - intros attempt Ha. rewrite clampedDelay_example by (done || lia).
    f_equal. apply Z.min_r.
    assert (2 ^ 4 <= 2 ^ (attempt - 1)) by (apply Z.pow_le_mono_r; lia). lia.
  - intros a b Hab. rewrite !clampedDelay_example by (done || lia).
    assert (0 < 2 ^ (a - 1)) by (apply Z.pow_pos_nonneg; lia).
    assert (2 ^ (a - 1) <= 2 ^ (b - 1)) by (apply Z.pow_le_mono_r; lia).
    apply leb_of_Z; lia.
  - unfold calculateDelay. rewrite clampedDelay_example by (done || lia).
    vm_compute. reflexivity.
Qed.

Lemma calculateDelay_backoff_witness :
  SFleb (clampedDelay pow_exact backoff_example 2)
        (clampedDelay pow_exact backoff_example 7) = true.
Proof.
  apply (proj1 (proj2 (proj2 (proj2 (proj2
           (calculateDelay_backoff pow_exact pow_exact_two)))))).
  lia.
Defined.

End RetryHandlerClaims.

(** ** MemoryManager *)

Section MemoryManagerClaims.
Import MemoryManager.
Context {T : Type}.
Variable estimateSize : T -> Z.

Lemma entries_get_set key (entry : CacheEntry (T:=T)) cache :
  entries_get key (entries_set key entry cache) = Some entry.
Proof.
  induction cache as [|[k e] rest IH]; cbn.
  - by rewrite decide_True.
  - destruct (decide (k = key)); cbn.
    + by rewrite decide_True.
    + by rewrite decide_False.
Qed.

Lemma setCache_ttl_unused cacheName key (value : T) ttl ttl' now caches :
  setCache estimateSize cacheName key value ttl now caches
  = setCache estimateSize cacheName key value ttl' now caches.
Proof. reflexivity. Qed.

Lemma getCache_after_setCache cacheName key (value : T) ttl t0 t1 caches :
  (getCache cacheName key t1
     (setCache estimateSize cacheName key value ttl t0 caches)).1
  = if maxCacheAge <? t1 - t0 then None else Some value.
Proof.
  unfold getCache, setCache. rewrite lookup_insert_eq, entries_get_set.
  cbn [timestamp data]. by destruct (_ <? _).
Qed.

End MemoryManagerClaims.

(** C7, on the code.  The bound [getCache] applies is the constant
    [maxCacheAge] (30 minutes), whatever [ttl] was passed to [setCache]: the
    stored entry does not depend on [ttl], and a [getCache] at [t1] after a
    [setCache] at [t0] returns the value iff [t1 - t0 <= maxCacheAge].  An
    entry set with a [ttl] of one second is still returned after two
    seconds, and an entry set with a [ttl] of two hours is gone after
    thirty minutes and one millisecond. *)
Theorem getCache_ignores_ttl :
  (forall (T : Type) (estimateSize : T -> Z) cacheName key (value : T) ttl ttl' now caches,
     MemoryManager.setCache estimateSize cacheName key value ttl now caches
     = MemoryManager.setCache estimateSize cacheName key value ttl' now caches) ∧
  (forall (T : Type) (estimateSize : T -> Z) cacheName key (value : T) ttl t0 t1 caches,
     (MemoryManager.getCache cacheName key t1
        (MemoryManager.setCache estimateSize cacheName key value ttl t0 caches)).1
     = if MemoryManager.maxCacheAge <? t1 - t0 then None else Some value) ∧
  (MemoryManager.getCache "docs" "k" 2000
     (MemoryManager.setCache (fun _ : string => 6) "docs" "k" "v" 1000 0 ∅)).1 = Some "v" ∧
  (MemoryManager.getCache "docs" "k" 1800001
     (MemoryManager.setCache (fun _ : string => 6) "docs" "k" "v" 7200000 0 ∅)).1 = None.
Proof.
  split; [intros; apply setCache_ttl_unused|].
  split; [intros; apply getCache_after_setCache|].
  split; vm_compute; reflexivity.
Qed.

(** ** CachedHttpClient *)

Section ClientFacts.
Import CachedHttpClient.
Variable getCacheKey : string -> string.
Variable caching_enabled : bool.
Variable caching_ttl : Z.

Local Abbreviation invariant := (invariant getCacheKey).
Local Abbreviation step := (step getCacheKey caching_enabled caching_ttl).
Local Abbreviation run := (run getCacheKey caching_enabled caching_ttl).
Local Abbreviation fetch_call := (fetch_call getCacheKey caching_enabled caching_ttl).

Lemma invariant_new now files : invariant (new caching_ttl now files).
Proof.
  constructor; cbn; intros *; try (rewrite lookup_nil; done);
    try (rewrite lookup_empty; done).
  by intros ?%elem_of_nil.
Qed.

(** The invariant reads only the registered promises, the activations,
    the invocations and the transport log. *)
Lemma invariant_frame c c' :
  activeRequests c' = activeRequests c -> requests c' = requests c ->
  calls c' = calls c -> transport c' = transport c ->
  invariant c -> invariant c'.
Proof.
  intros Ha Hr Hc Ht [].
  constructor; unfold attempts_made; rewrite ?Ha, ?Hr, ?Hc, ?Ht; done.
Qed.

Lemma invariant_push_call cl stats c :
  invariant c ->
  (forall p, c_role cl ≠ Owner p) ->
  (forall p, c_role cl = Deduplicated p ->
     c_result cl = None ∧ (p < length (requests c))%nat) ->
  invariant (push_call cl stats c).
Proof.
  intros [] Hno Hded. constructor; cbn [push_call calls requests activeRequests transport];
    unfold attempts_made; cbn [push_call transport]; try done.
  - intros cid cl0 p [[_ Hold]|[_ <-]]%lookup_snoc_Some; [eauto|].
    intros ?. by destruct (Hno p).
  - intros cid1 cid2 cl1 cl2 p [[_ H1]|[_ <-]]%lookup_snoc_Some
      [[_ H2]|[_ <-]]%lookup_snoc_Some; try (intros ?; by destruct (Hno p));
      try (intros _ ?; by destruct (Hno p)).
    eauto.
  - intros cid cl0 p [[_ Hold]|[_ <-]]%lookup_snoc_Some; [eauto|].
    intros [?|Hd]; [by destruct (Hno p)|]. by apply Hded.
  - intros cid cl0 p o [[_ Hold]|[_ <-]]%lookup_snoc_Some; [eauto|].
    intros [?|Hd]; [by destruct (Hno p)|]. destruct (Hded p Hd). congruence.
Qed.

Lemma attempts_made_snoc p q u (log : list (nat * string)) :
  length (filter (fun x : nat * string => x.1 = p) (log ++ [(q, u)])) =
  (length (filter (fun x : nat * string => x.1 = p) log) + (if decide (q = p) then 1 else 0))%nat.
Proof.
  rewrite filter_app, length_app. f_equal.
  rewrite filter_cons, filter_nil. cbn. by destruct (decide (q = p)).
Qed.

Lemma attempts_made_fresh p (log : list (nat * string)) :
  (forall u, (p, u) ∉ log) ->
  length (filter (fun x : nat * string => x.1 = p) log) = O.
Proof.
  intros Hfresh. destruct (filter _ log) as [|[q u] rest] eqn:Hf; [done|].
  assert ((q, u) ∈ filter (fun x : nat * string => x.1 = p) log) as Hin
    by (rewrite Hf; left).
  apply list_elem_of_filter in Hin as [Hq Hin]. cbn in Hq. subst q.
  by destruct (Hfresh u).
Qed.

Lemma invariant_startRequest u key now c :
  invariant c ->
  activeRequests c !! key = None ->
  key = getCacheKey u ->
  invariant (startRequest u key now c).
Proof.
  intros [] Hfree ->. 
  assert (forall cid cl p, calls c !! cid = Some cl -> c_role cl = Owner p ->
            c_result cl = None -> getCacheKey (c_url cl) ≠ getCacheKey u) as Hother.
  { intros cid cl p Hc Hr Hn Heq.
    pose proof (inv_owner_active0 cid cl p Hc Hr Hn) as H. congruence. }
  constructor; cbn [startRequest calls requests activeRequests transport];
    unfold attempts_made; cbn [startRequest transport].
  - intros cid cl p [[_ Hold]|[_ <-]]%lookup_snoc_Some; cbn.
    + intros Hr Hn. rewrite lookup_insert_ne by (symmetry; eauto). eauto.
    + intros [= <-] _. by rewrite lookup_insert_eq.
  - intros cid1 cid2 cl1 cl2 p [[Hl1 H1]|[-> <-]]%lookup_snoc_Some
      [[Hl2 H2]|[-> <-]]%lookup_snoc_Some; cbn; try done.
    + eauto.
    + intros Hr [= <-].
      assert (length (requests c) < length (requests c))%nat; [|lia].
      eapply inv_attached_bound0; [exact H1|by left].
    + intros [= <-] Hr.
      assert (length (requests c) < length (requests c))%nat; [|lia].
      eapply inv_attached_bound0; [exact H2|by left].
  - intros cid cl p [[_ Hold]|[_ <-]]%lookup_snoc_Some Hatt; rewrite length_app; cbn.
    + assert (p < length (requests c))%nat by eauto. lia.
    + destruct Hatt as [[= <-]|?]; [lia|done].
  - intros p r [[_ Hold]|[_ <-]]%lookup_snoc_Some; [eauto|done].
  - intros p r [[_ Hold]|[-> <-]]%lookup_snoc_Some Hpend; cbn.
    + pose proof (inv_pending_active0 p r Hold Hpend) as Hact.
      rewrite lookup_insert_ne by congruence. done.
    + by rewrite lookup_insert_eq.
  - intros cid cl p o [[_ Hold]|[_ <-]]%lookup_snoc_Some Hatt; [|done].
    intros Hres. rewrite lookup_app_l by eauto. eauto.
  - intros p r [[Hlt Hold]|[-> <-]]%lookup_snoc_Some; rewrite attempts_made_snoc.
    + rewrite decide_False by lia. rewrite Nat.add_0_r. eauto.
    + rewrite decide_True by done. cbn.
      rewrite attempts_made_fresh; [done|].
      intros u' Hin. destruct (inv_transport0 _ _ Hin) as (r & Hr & _).
      apply lookup_lt_Some in Hr. lia.
  - intros p u' [Hin|Heq%list_elem_of_singleton]%elem_of_app.
    + destruct (inv_transport0 _ _ Hin) as (r & Hr & Hu).
      exists r. split; [|done]. rewrite lookup_app_l; [done|by eapply lookup_lt_Some].
    + injection Heq as -> ->. eexists. split; [by apply list_lookup_middle|done].
  - intros key p. destruct (decide (key = getCacheKey u)) as [->|Hne].
    + rewrite lookup_insert_eq. intros [= <-].
      eexists. split; [by apply list_lookup_middle|done].
    + rewrite lookup_insert_ne by done. intros Hact.
      destruct (inv_active_request0 _ _ Hact) as (r & Hr & Hk).
      exists r. split; [|done]. rewrite lookup_app_l; [done|by eapply lookup_lt_Some].
Qed.

Lemma invariant_fetch_call u now c : invariant c -> invariant (fetch_call u now c).
Proof.
  intros Hinv. unfold CachedHttpClient.fetch_call.
  destruct (decide (u = EmptyString)); [by apply invariant_push_call|].
  destruct (activeRequests c !! getCacheKey u) as [p|] eqn:Hact.
  - apply invariant_push_call; [done|done|]. cbn. intros ? [= <-]. split; [done|].
    destruct (inv_active_request _ _ Hinv _ _ Hact) as (r & Hr & _).
    by eapply lookup_lt_Some.
  - destruct (cache c !! getCacheKey u) as [cachedEntry|];
      [|by apply invariant_startRequest].
    destruct caching_enabled; [|by apply invariant_startRequest].
    destruct (_ <? _); [by apply invariant_push_call|].
    apply invariant_startRequest; [|done|done].
    by apply (invariant_frame c).
Qed.

(** An activation waiting for the transport moves to another phase. *)
Lemma invariant_phase p r ph c c' :
  invariant c ->
  requests c !! p = Some r -> r_phase r = AwaitingTransport ->
  (forall d, ph = Sleeping d -> r_attempt r < maxRetries retryOptions) ->
  activeRequests c' = activeRequests c -> calls c' = calls c ->
  transport c' = transport c ->
  requests c' = <[p := with_phase ph r]> (requests c) ->
  invariant c'.
Proof.
  intros [] Hr Hph Hsleep Ha Hc Ht Hrs.
  assert (settled r = None) as Hpend by (unfold settled; by rewrite Hph).
  constructor; unfold attempts_made; rewrite ?Ha, ?Hc, ?Ht, ?Hrs; try done.
  - intros *. rewrite length_insert. eauto.
  - intros p' r' [(-> & <- & _)|[_ Hold]]%list_lookup_insert_Some; cbn; eauto.
  - intros p' r' [(-> & <- & _)|[_ Hold]]%list_lookup_insert_Some; cbn; eauto.
  - intros cid cl p' o Hcl Hatt Hres.
    pose proof (inv_returned0 _ _ _ _ Hcl Hatt Hres) as Hold.
    destruct (decide (p = p')) as [<-|Hne]; [|by rewrite list_lookup_insert_ne].
    rewrite Hr in Hold. cbn in Hold. congruence.
  - intros p' r' [(-> & <- & _)|[_ Hold]]%list_lookup_insert_Some; cbn; [|eauto].
    destruct (inv_attempts0 _ _ Hr) as (? & ? & ?). eauto.
  - intros p' u Hin. destruct (inv_transport0 _ _ Hin) as (r' & Hr' & Hu).
    destruct (decide (p = p')) as [<-|Hne].
    + exists (with_phase ph r). rewrite list_lookup_insert_eq by (by eapply lookup_lt_Some).
      split; [done|]. cbn. congruence.
    + exists r'. by rewrite list_lookup_insert_ne.
  - intros key p' Hact. destruct (inv_active_request0 _ _ Hact) as (r' & Hr' & Hk).
    destruct (decide (p = p')) as [<-|Hne].
    + exists (with_phase ph r). rewrite list_lookup_insert_eq by (by eapply lookup_lt_Some).
      split; [done|]. cbn. congruence.
    + exists r'. by rewrite list_lookup_insert_ne.
Qed.

Lemma invariant_transport_reply p resp now c :
  invariant c -> invariant (transport_reply caching_enabled p resp now c).
Proof.
  intros Hinv. unfold transport_reply.
  destruct (requests c !! p) as [r|] eqn:Hr; [|done].
  destruct (r_phase r) eqn:Hph; try done.
  destruct (attempt_result resp) as [text|errorMessage].
  - by eapply (invariant_phase p r (Settled (Fulfilled text)) c).
  - destruct (isRetryable errorMessage && (r_attempt r <? maxRetries retryOptions)) eqn:Hretry.
    + eapply (invariant_phase p r (Sleeping (retry_delay (r_attempt r))) c); try done.
      intros d _. apply andb_true_iff in Hretry as [_ Hlt]. by apply Z.ltb_lt.
    + by eapply (invariant_phase p r (Settled (Rejected _)) c).
Qed.

Lemma invariant_wake p c : invariant c -> invariant (wake p c).
Proof.
  intros Hinv. unfold wake.
  destruct (requests c !! p) as [r|] eqn:Hr; [|done].
  destruct (r_phase r) as [|d|o] eqn:Hph; try done.
  destruct Hinv.
  assert (settled r = None) as Hpend by (unfold settled; by rewrite Hph).
  assert (p < length (requests c))%nat as Hlt by (by eapply lookup_lt_Some).
  constructor; cbn [calls requests activeRequests transport];
    unfold attempts_made; cbn [transport]; try done.
  - intros *. rewrite length_insert. eauto.
  - intros p' r' [(-> & <- & _)|[_ Hold]]%list_lookup_insert_Some; cbn; eauto.
  - intros p' r' [(-> & <- & _)|[_ Hold]]%list_lookup_insert_Some; cbn; eauto.
  - intros cid cl p' o Hcl Hatt Hres.
    pose proof (inv_returned0 _ _ _ _ Hcl Hatt Hres) as Hold.
    destruct (decide (p = p')) as [<-|Hne]; [|by rewrite list_lookup_insert_ne].
    rewrite Hr in Hold. cbn in Hold. congruence.
  - intros p' r' Hlook. rewrite attempts_made_snoc.
    apply list_lookup_insert_Some in Hlook as [(-> & <- & _)|[Hne Hold]];
      cbn [r_attempt r_phase].
    + rewrite decide_True by done.
      destruct (inv_attempts0 _ _ Hr) as (Hcount & Hb & Hs).
      specialize (Hs d Hph). unfold attempts_made in Hcount.
      split; [lia|]. split; [lia|done].
    + rewrite decide_False by done. rewrite Nat.add_0_r. eauto.
  - intros p' u [Hin|Heq%list_elem_of_singleton]%elem_of_app.
    + destruct (inv_transport0 _ _ Hin) as (r' & Hr' & Hu).
      destruct (decide (p = p')) as [<-|Hne].
      * eexists. rewrite list_lookup_insert_eq by done. split; [done|]. cbn. congruence.
      * exists r'. by rewrite list_lookup_insert_ne.
    + injection Heq as -> ->. eexists. by rewrite list_lookup_insert_eq by done.
  - intros key p' Hact. destruct (inv_active_request0 _ _ Hact) as (r' & Hr' & Hk).
    destruct (decide (p = p')) as [<-|Hne].
    + eexists. rewrite list_lookup_insert_eq by done. split; [done|]. cbn. congruence.
    + exists r'. by rewrite list_lookup_insert_ne.
Qed.

Lemma attached_functional cl p q : attached cl p -> attached cl q -> p = q.
Proof. intros [Hp|Hp] [Hq|Hq]; congruence. Qed.

Lemma lookup_with_result cid cl o (cs : list call) i cl' :
  cs !! cid = Some cl ->
  <[cid := with_result o cl]> cs !! i = Some cl' ->
  exists cl0, cs !! i = Some cl0 ∧ c_role cl' = c_role cl0 ∧ c_url cl' = c_url cl0 ∧
    ((i = cid ∧ cl0 = cl ∧ c_result cl' = Some o) ∨ (i ≠ cid ∧ cl' = cl0)).
Proof.
  intros Hcl [(-> & <- & _)|[Hne Hold]]%list_lookup_insert_Some.
  - exists cl. eauto 10.
  - exists cl'. eauto 10.
Qed.

(** A suspended call is resumed with the outcome of its promise; the
    owner also removes the registration of the promise. *)
Lemma invariant_resolve cid cl p o c c' :
  invariant c ->
  calls c !! cid = Some cl -> c_result cl = None -> attached cl p ->
  requests c !! p ≫= settled = Some o ->
  calls c' = <[cid := with_result o cl]> (calls c) ->
  requests c' = requests c -> transport c' = transport c ->
  (c_role cl = Deduplicated p ∧ activeRequests c' = activeRequests c) ∨
  (c_role cl = Owner p ∧
   activeRequests c' = delete (getCacheKey (c_url cl)) (activeRequests c)) ->
  invariant c'.
Proof.
  intros [] Hcl Hnone Hatt Hset Hcs Hrs Hts Hrole.
  constructor; unfold attempts_made; rewrite ?Hcs, ?Hrs, ?Hts; try done.
  - intros i cl' p0 Hl Hr Hn.
    destruct (lookup_with_result _ _ _ _ _ _ Hcl Hl)
      as (cl0 & Hold & Hrole0 & Hurl0 & [(-> & -> & Hres)|[Hne ->]]); [congruence|].
    pose proof (inv_owner_active0 _ _ _ Hold Hr Hn) as Hact.
    destruct Hrole as [[_ ->]|[Hown ->]]; [done|].
    rewrite lookup_delete_ne; [done|]. intros Hk.
    pose proof (inv_owner_active0 _ _ _ Hcl Hown Hnone) as Hact'.
    rewrite Hk in Hact'. rewrite Hact in Hact'. injection Hact' as ->.
    apply Hne. eauto.
  - intros i1 i2 cl1 cl2 p0 Hl1 Hl2 Hr1 Hr2.
    destruct (lookup_with_result _ _ _ _ _ _ Hcl Hl1) as (c1 & Ho1 & Hro1 & _).
    destruct (lookup_with_result _ _ _ _ _ _ Hcl Hl2) as (c2 & Ho2 & Hro2 & _).
    rewrite Hro1 in Hr1. rewrite Hro2 in Hr2. eauto.
  - intros i cl' p0 Hl Hat.
    destruct (lookup_with_result _ _ _ _ _ _ Hcl Hl) as (c0 & Ho & Hro & _).
    eapply inv_attached_bound0; [exact Ho|]. unfold attached in *. by rewrite <- Hro.
  - intros p' r Hr Hpend. pose proof (inv_pending_active0 _ _ Hr Hpend) as Hact.
    destruct Hrole as [[_ ->]|[Hown ->]]; [done|].
    rewrite lookup_delete_ne; [done|]. intros Hk.
    pose proof (inv_owner_active0 _ _ _ Hcl Hown Hnone) as Hact'.
    rewrite Hk in Hact'. rewrite Hact in Hact'. injection Hact' as ->.
    rewrite Hr in Hset. cbn in Hset. congruence.
  - intros i cl' p0 o' Hl Hat Hres.
    destruct (lookup_with_result _ _ _ _ _ _ Hcl Hl)
      as (cl0 & Hold & Hrole0 & Hurl0 & [(-> & -> & Hres')|[Hne ->]]).
    + assert (attached cl p0) as Hat' by (unfold attached in *; by rewrite <- Hrole0).
      rewrite (attached_functional _ _ _ Hat' Hatt). congruence.
    + eauto.
  - intros key p'. destruct Hrole as [[_ ->]|[Hown ->]]; [eauto|].
    intros [_ Hact]%lookup_delete_Some. eauto.
Qed.

Lemma invariant_resume cid now c :
  invariant c -> invariant (resume getCacheKey cid now c).
Proof.
  intros Hinv. unfold resume.
  destruct (calls c !! cid) as [cl|] eqn:Hcl; [|done].
  destruct (c_result cl) eqn:Hres; [done|].
  destruct (c_role cl) as [| |p|p] eqn:Hrole; try done.
  - destruct (requests c !! p ≫= settled) as [o|] eqn:Hset; [|done].
    eapply (invariant_resolve cid cl p o c); try done; [by left|].
    right. done.
  - destruct (requests c !! p ≫= settled) as [o|] eqn:Hset; [|done].
    eapply (invariant_resolve cid cl p o c); try done; [by right|].
    left. done.
Qed.

Lemma invariant_step e c : invariant c -> invariant (step e c).
Proof.
  intros Hinv. destruct e as [u now|p resp now|p|cid now|now|]; cbn.
  - by apply invariant_fetch_call.
  - by apply invariant_transport_reply.
  - by apply invariant_wake.
  - by apply invariant_resume.
  - by apply (invariant_frame c).
  - by apply (invariant_frame c).
Qed.

Lemma invariant_run events : forall c, invariant c -> invariant (run events c).
Proof.
  induction events as [|e events IH]; intros c Hinv; [done|].
  cbn. apply IH. by apply invariant_step.
Qed.

(** C2, as the code has it.  With caching enabled, a successful request
    stores its payload under the cache key, in the map and on disk, with
    the time of the write; a later [fetch] of the URL that finds the entry
    and no request in flight returns the stored payload without a
    transport request when [t1 - t0 < TTL], and otherwise (from
    [t1 - t0 = TTL] on) deletes the entry from the map and from the disk
    and then goes to the network, so that an entry of age [TTL] or more is
    never served. *)
Theorem fetch_cache_freshness :
  caching_enabled = true ->
  (forall c p r resp text t0,
     requests c !! p = Some r -> r_phase r = AwaitingTransport ->
     attempt_result resp = inl text ->
     let c' := transport_reply caching_enabled p resp t0 c in
     let entry := {| data := text; timestamp := t0; url := r_url r |} in
     cache c' !! r_key r = Some entry ∧ disk c' !! r_key r = Some entry ∧
     requests c' !! p ≫= settled = Some (Fulfilled text)) ∧
  (forall c u t1 entry,
     u ≠ EmptyString ->
     activeRequests c !! getCacheKey u = None ->
     cache c !! getCacheKey u = Some entry ->
     let c' := fetch_call u t1 c in
     (t1 - timestamp entry < caching_ttl ->
      calls c' = calls c ++
        [{| c_url := u; c_start := t1; c_role := CacheHit;
            c_result := Some (Fulfilled (data entry)) |}] ∧
      transport c' = transport c ∧ requests c' = requests c ∧
      cache c' = cache c ∧ disk c' = disk c) ∧
     (caching_ttl <= t1 - timestamp entry ->
      cache c' !! getCacheKey u = None ∧ disk c' !! getCacheKey u = None ∧
      calls c' = calls c ++
        [{| c_url := u; c_start := t1; c_role := Owner (length (requests c));
            c_result := None |}] ∧
      transport c' = transport c ++ [(length (requests c), u)])).
Proof.
  intros Hen. split.
  - intros c p r resp text t0 Hr Hph Hres c' entry. subst c'.
    unfold transport_reply. rewrite Hr, Hph, Hres, Hen.
    assert (text ≠ EmptyString) as Hne.
    { intros ->. destruct resp as [ok status statusText text|message0]; cbn in Hres;
        [|done]. destruct ok; cbn in Hres; [|done].
      destruct (String.eqb text EmptyString) eqn:Heq; [done|].
      injection Hres as ->. done. }
    apply String.eqb_neq in Hne. rewrite Hne. cbn.
    rewrite !lookup_insert_eq.
    rewrite list_lookup_insert_eq by (by eapply lookup_lt_Some). done.
  - intros c u t1 entry Hu Hact Hcache c'. subst c'.
    unfold CachedHttpClient.fetch_call.
    rewrite decide_False by done. rewrite Hact, Hcache, Hen. split.
    + intros Hfresh. apply Z.ltb_lt in Hfresh. rewrite Hfresh. done.
    + intros Hold. apply Z.ltb_ge in Hold. rewrite Hold. cbn.
      by rewrite !lookup_delete_eq.
Qed.

End ClientFacts.

(** C1 as stated fails where a transport attempt is retried: both calls
    are made before the request settles and both return the same payload,
    yet two transport requests go to the URL. *)
Lemma fetch_single_transport_counterexample :
  let c := CachedHttpClient.run (fun u => u) true 86400000
             CachedHttpClient.retried_run (CachedHttpClient.new 86400000 0 ∅) in
  CachedHttpClient.c_role <$> CachedHttpClient.calls c
    = [CachedHttpClient.Owner 0; CachedHttpClient.Deduplicated 0] ∧
  CachedHttpClient.c_result <$> CachedHttpClient.calls c
    = [Some (CachedHttpClient.Fulfilled "# Style guide");
       Some (CachedHttpClient.Fulfilled "# Style guide")] ∧
  CachedHttpClient.transport c
    = [(O, CachedHttpClient.guide); (O, CachedHttpClient.guide)].
Proof. vm_compute. repeat split. Qed.

Lemma fetch_cache_freshness_witness :
  let c := CachedHttpClient.cached_guide in
  let c' := CachedHttpClient.fetch_call (fun u => u) true 1000 CachedHttpClient.guide 999 c in
  CachedHttpClient.calls c' = CachedHttpClient.calls c ++
    [{| CachedHttpClient.c_url := CachedHttpClient.guide; CachedHttpClient.c_start := 999;
        CachedHttpClient.c_role := CachedHttpClient.CacheHit;
        CachedHttpClient.c_result :=
          Some (CachedHttpClient.Fulfilled
                  (CachedHttpClient.data CachedHttpClient.guide_entry)) |}] ∧
  CachedHttpClient.transport c' = CachedHttpClient.transport c ∧
  CachedHttpClient.requests c' = CachedHttpClient.requests c ∧
  CachedHttpClient.cache c' = CachedHttpClient.cache c ∧
  CachedHttpClient.disk c' = CachedHttpClient.disk c.
Proof.
  apply (proj2 (fetch_cache_freshness (fun u => u) true 1000 eq_refl)
           CachedHttpClient.cached_guide CachedHttpClient.guide 999
           CachedHttpClient.guide_entry).
  - done.
  - vm_compute. reflexivity.
  - vm_compute. reflexivity.
  - cbn. lia.
Defined.

(** C2 as stated fails at [t1 - t0 = TTL]: the entry written at time 0
    under a TTL of 1000 is not served at time 1000; it is deleted and a
    transport request is issued. *)
Lemma fetch_cache_freshness_counterexample :
  let c' := CachedHttpClient.fetch_call (fun u => u) true 1000
              CachedHttpClient.guide 1000 CachedHttpClient.cached_guide in
  1000 - 0 <= 1000 ∧
  CachedHttpClient.calls c' =
    [{| CachedHttpClient.c_url := CachedHttpClient.guide; CachedHttpClient.c_start := 1000;
        CachedHttpClient.c_role := CachedHttpClient.Owner 0;
        CachedHttpClient.c_result := None |}] ∧
  CachedHttpClient.transport c' = [(O, CachedHttpClient.guide)] ∧
  CachedHttpClient.cache c' !! CachedHttpClient.guide = None ∧
  CachedHttpClient.disk c' !! CachedHttpClient.guide = None.
Proof. vm_compute. repeat split; discriminate. Qed.

(** ** fetchBatch *)

Section FetchBatchClaims.
Import CachedHttpClient FetchBatch.

Lemma occupied_replicate_None n : occupied (replicate n None) = [].
Proof. induction n; [done|]. cbn. done. Qed.

Lemma fetchBatch_start_waiting urls concurrency :
  all_waiting (fetchBatch_start urls concurrency).
Proof.
  unfold all_waiting, fetchBatch_start. cbn.
  rewrite occupied_replicate_None. rewrite Forall_fmap. apply Forall_true. by intros u.
Qed.

Lemma race_empty b : race b [] = None.
Proof.
  unfold race. induction (settledLog b) as [|jo l IH]; [done|].
  rewrite filter_cons_False; [done|]. apply not_elem_of_nil.
Qed.

Lemma step_waiting e b : all_waiting b -> FetchBatch.step e b = b.
Proof.
  intros Hall. destruct e as [i|i o]; cbn.
  - unfold proceed. destruct (workers b !! i) as [w|] eqn:Hw; [|done].
    rewrite (proj1 (Forall_lookup _ _) Hall i w Hw). by rewrite race_empty.
  - unfold fetch_settled. destruct (workers b !! i) as [w|] eqn:Hw; [|done].
    by rewrite (proj1 (Forall_lookup _ _) Hall i w Hw).
Qed.

Lemma run_waiting events b : all_waiting b -> FetchBatch.run events b = b.
Proof.
  intros Hall. induction events as [|e events IH]; [done|].
  cbn. by rewrite step_waiting.
Qed.

Lemma omap_crash_waiting (ws : list worker) :
  Forall (fun w => w_stage w = AwaitingSlot []) ws -> omap crash ws = [].
Proof.
  induction 1 as [|w ws Hw _ IH]; [done|].
  cbn. rewrite IH. unfold crash. by rewrite Hw.
Qed.

Lemma waiting_result b : all_waiting b -> workers b ≠ [] -> fetchBatch_result b = None.
Proof.
  unfold all_waiting, fetchBatch_result. intros Hall Hne.
  rewrite omap_crash_waiting by done. cbn.
  destruct (workers b) as [|w ws]; [done|].
  apply Forall_cons in Hall as [Hw _]. cbn. unfold is_done. by rewrite Hw.
Qed.

(** C3.  [fetchBatch] does not get as far as the claim.  Over one source
    or more, with any number of slots, every worker stops at its first
    [await], on [Promise.race] over no promise at all: whatever events
    follow, the batch stays as it started, no worker reaches its call of
    [fetch], nothing is recorded, and the batch neither returns a map nor
    throws.  Only the batch over no source returns, at once, with the
    empty map. *)
Theorem fetchBatch_never_returns urls concurrency events :
  (urls ≠ [] ->
   let b := FetchBatch.run events (fetchBatch_start urls concurrency) in
   b = fetchBatch_start urls concurrency ∧
   Forall (fun w => w_stage w = AwaitingSlot []) (workers b) ∧
   length (workers b) = length urls ∧
   results b = ∅ ∧
   fetchBatch_result b = None) ∧
  fetchBatch_result (FetchBatch.run events (fetchBatch_start [] concurrency))
    = Some (inl ∅).
Proof.
  split.
  - intros Hne b. subst b.
    rewrite run_waiting by apply fetchBatch_start_waiting.
    split; [done|]. split; [apply fetchBatch_start_waiting|].
    split; [cbn; by rewrite length_fmap|]. split; [done|].
    apply waiting_result; [apply fetchBatch_start_waiting|].
    cbn. by destruct urls.
  - by rewrite run_waiting by apply fetchBatch_start_waiting.
Qed.

Lemma fetchBatch_never_returns_witness :
  fetchBatch_result
    (FetchBatch.run [Proceed 3; FetchSettled 3 (Rejected "Network error"); Proceed 0]
       (fetchBatch_start ten_sources 5)) = None.
Proof.
  apply (proj1 (fetchBatch_never_returns ten_sources 5
                  [Proceed 3; FetchSettled 3 (Rejected "Network error"); Proceed 0])).
  discriminate.
Defined.

End FetchBatchClaims.

(** * Further properties of the same code *)

(** ** RateLimiter: the rate bound, the sweep, the reset *)

Section RateLimiterMore.
Import RateLimiter.


Lemma in_window_narrow w w' (l : list Z) :
  w' <= w -> in_window w (in_window w' l) = in_window w l.
Proof.
  intros Hw. unfold in_window. induction l as [|x l IH]; [done|].
  destruct (decide (w' < x)) as [Hx|Hx].
  - rewrite (filter_cons_True (fun t => w' < t)) by done.
    destruct (decide (w < x)).
    + rewrite !(filter_cons_True (fun t => w < t)) by done. by rewrite IH.
    + rewrite !(filter_cons_False (fun t => w < t)) by done. done.
  - rewrite (filter_cons_False (fun t => w' < t)) by done.
    rewrite (filter_cons_False (fun t => w < t)) by lia. done.
Qed.






End RateLimiterMore.

Section RateLimiterSweep.
Import RateLimiter.

Lemma cleanup_lookup configWindowMs now requests key :
  in_window (now - Z.max configWindowMs 300000)
    (default [] (cleanup configWindowMs now requests !! key))
  = in_window (now - Z.max configWindowMs 300000) (default [] (requests !! key)) ∧
  (forall w, now - Z.max configWindowMs 300000 <= w ->
     in_window w (default [] (cleanup configWindowMs now requests !! key))
     = in_window w (default [] (requests !! key))).
Proof.
  assert (forall w, now - Z.max configWindowMs 300000 <= w ->
     in_window w (default [] (cleanup configWindowMs now requests !! key))
     = in_window w (default [] (requests !! key))) as Hw.
  { intros w Hle. unfold cleanup. rewrite lookup_omap.
    destruct (requests !! key) as [timestamps|];
      cbn [mbind option_bind default from_option id]; [|done].
    destruct (decide (length _ = O)) as [Hempty|Hne]; cbn [default from_option id].
    - rewrite <- (in_window_narrow w _ timestamps Hle).
      apply nil_length_inv in Hempty. by rewrite Hempty.
    - destruct (decide (_ < _)%nat); cbn [default from_option id]; [|done].
      by apply in_window_narrow. }
  split; [apply Hw; lia|exact Hw].
Qed.

(** X2.  The periodic sweep cannot be seen by the limiter: for a window
    no longer than the sweep's own (the larger of the configured window
    and five minutes), a call made at or after the sweep gets the same
    answer as if no sweep had run; and after that call the timestamps
    stored under every key are the same, with and without the sweep, in
    every window that starts at the sweep's cutoff or later. *)
Theorem cleanup_preserves_isAllowed configWindowMs swept now requests identifier cfg :
  windowMs cfg <= Z.max configWindowMs 300000 ->
  swept <= now ->
  let with_sweep := isAllowed (cleanup configWindowMs swept requests) now identifier cfg in
  let without := isAllowed requests now identifier cfg in
  with_sweep.1 = without.1 ∧
  (forall key windowStart,
     swept - Z.max configWindowMs 300000 <= windowStart ->
     in_window windowStart (default [] (with_sweep.2 !! key))
     = in_window windowStart (default [] (without.2 !! key))).
Proof.
  intros HW Hnow with_sweep without. subst with_sweep without.
  pose proof (fun key => proj2 (cleanup_lookup configWindowMs swept requests key)) as Hsame.
  unfold isAllowed. cbn [fst snd].
  rewrite (Hsame (key_of cfg identifier) (now - windowMs cfg)) by lia.
  split; [done|]. intros key windowStart Hw.
  destruct (_ <? maxRequests cfg); [|by apply Hsame].
  destruct (decide (key = key_of cfg identifier)) as [->|Hne].
  - by rewrite !lookup_insert_eq.
  - rewrite !lookup_insert_ne by done. by apply Hsame.
Qed.

Lemma cleanup_preserves_isAllowed_witness :
  (isAllowed (cleanup 60000 400000 {["client" := [1000; 390000; 395000]]}) 400500
     "client" sliding_window_example).1
  = (isAllowed {["client" := [1000; 390000; 395000]]} 400500
       "client" sliding_window_example).1.
Proof.
  apply (proj1 (cleanup_preserves_isAllowed 60000 400000 400500
                  {["client" := [1000; 390000; 395000]]} "client"
                  sliding_window_example ltac:(cbn; lia) ltac:(lia))).
Defined.

(** X3.  After a sweep every key that is left holds at least one
    timestamp, all of them newer than the cutoff and all of them recorded
    before; a key whose timestamps are all at or before the cutoff is
    gone. *)
Theorem cleanup_keeps_recent configWindowMs now requests key :
  let cutoff := now - Z.max configWindowMs 300000 in
  match cleanup configWindowMs now requests !! key with
  | Some kept =>
      kept ≠ [] ∧ Forall (fun ts => cutoff < ts) kept ∧
      exists timestamps, requests !! key = Some timestamps ∧ kept = in_window cutoff timestamps
  | None =>
      forall timestamps, requests !! key = Some timestamps ->
        Forall (fun ts => ts <= cutoff) timestamps
  end.
Proof.
  intros cutoff. unfold cleanup. rewrite lookup_omap.
  destruct (requests !! key) as [timestamps|]; cbn; [|done].
  fold cutoff.
  assert (Forall (fun ts => cutoff < ts) (in_window cutoff timestamps)) as Hall.
  { apply Forall_forall. by intros ts [_ ?]%in_window_spec. }
  destruct (decide (length (in_window cutoff timestamps) = O)) as [Hempty|Hne]; cbn.
  - intros ? [= <-]. apply nil_length_inv in Hempty.
    apply Forall_forall. intros ts Hts.
    destruct (decide (ts <= cutoff)); [done|].
    assert (ts ∈ in_window cutoff timestamps) as Hin by (apply in_window_spec; split; [done|lia]).
    rewrite Hempty in Hin. by apply elem_of_nil in Hin.
  - destruct (decide (_ < _)%nat) as [Hlt|Hge]; cbn.
    + split; [by intros Heq; rewrite Heq in Hne|]. split; [done|]. eauto.
    + assert (in_window cutoff timestamps = timestamps) as Heq.
      { unfold in_window in *. clear Hall Hne.
        induction timestamps as [|x l IH]; [done|].
        destruct (decide (cutoff < x)).
        - rewrite filter_cons_True in * by done. cbn in Hge. f_equal. apply IH. lia.
        - rewrite filter_cons_False in Hge by done.
          pose proof (length_filter (fun ts => cutoff < ts) l). cbn in Hge. lia. }
      rewrite Heq in Hall, Hne. split; [by intros ->|]. split; [done|]. eauto.
Qed.

(** X4.  [reset(id)] with a non-empty [id] forgets the history stored
    under [id] and nothing else, so that the next request whose key is
    [id] is allowed with [maxRequests - 1] remaining, if the limit is at
    least 1; without an identifier, or with the empty string, it forgets
    every key. *)
Theorem reset_forgets requests identifier cfg now :
  identifier ≠ EmptyString ->
  key_of cfg identifier = identifier ->
  1 <= maxRequests cfg ->
  let after := reset (Some identifier) requests in
  let result := (isAllowed after now identifier cfg).1 in
  allowed result = true ∧ remaining result = maxRequests cfg - 1 ∧
  (forall other, other ≠ identifier -> after !! other = requests !! other) ∧
  reset None requests = ∅ ∧ reset (Some EmptyString) requests = ∅.
Proof.
  intros Hne Hkey HN after result. subst after result.
  unfold reset. rewrite decide_False by done. rewrite decide_True by done.
  unfold isAllowed. rewrite Hkey, lookup_delete_eq.
  cbn [default from_option id fst allowed remaining].
  change (in_window (now - windowMs cfg) []) with (@nil Z).
  cbn [length Z.of_nat].
  destruct (0 <? maxRequests cfg) eqn:Hlt; [|apply Z.ltb_ge in Hlt; lia].
  split; [done|]. split; [|split; [|done]].
  { cbn. change (Z.of_nat 0) with 0. rewrite Hlt. cbn. lia. }
  intros other Hother. by rewrite lookup_delete_ne.
Qed.

Lemma reset_forgets_witness :
  let after := reset (Some "client") {["client" := [1; 2; 3]; "other" := [4]]} in
  let result := (isAllowed after 5 "client" sliding_window_example).1 in
  allowed result = true ∧ remaining result = 3 - 1 ∧
  (forall other, other ≠ "client" ->
     after !! other = ({["client" := [1; 2; 3]; "other" := [4]]} : gmap string (list Z)) !! other) ∧
  reset None ({["client" := [1; 2; 3]; "other" := [4]]} : gmap string (list Z)) = ∅ ∧
  reset (Some EmptyString) ({["client" := [1; 2; 3]; "other" := [4]]} : gmap string (list Z)) = ∅.
Proof.
  apply (reset_forgets {["client" := [1; 2; 3]; "other" := [4]]} "client"
           sliding_window_example 5).
  - done.
  - reflexivity.
  - cbn. lia.
Defined.

End RateLimiterSweep.

(** ** ResourceManager: health, admission between samples, connections *)

Section ResourceManagerMore.
Import ResourceManager.

Lemma getHealthStatus_refused rm :
  checkResourceAvailability rm = false -> getHealthStatus rm = critical.
Proof.
  intros Href. apply checkResourceAvailability_false in Href.
  unfold getHealthStatus. cbn [getResourceLimits maxMemoryUsage maxConcurrentOperations].
  assert (Qgt_bool (memoryUsage (metrics rm) / inject_Z 512) (95 # 100)
          || Qgt_bool (inject_Z (concurrentOperations (metrics rm)) / inject_Z 100) (95 # 100)
          = true) as ->; [|done].
  apply orb_true_iff. destruct Href as [Hmem|Hops].
  - left. apply Qgt_bool_spec. unfold Qdiv.
    change (/ inject_Z 512)%Q with (1 # 512)%Q.
    change (inject_Z 512) with (512 # 1)%Q in Hmem. lra.
  - right. apply Qgt_bool_spec. unfold Qdiv.
    change (/ inject_Z 100)%Q with (1 # 100)%Q.
    assert (inject_Z 100 <= inject_Z (concurrentOperations (metrics rm)))%Q as Hq
      by (by rewrite <- Zle_Qle).
    change (inject_Z 100) with (100 # 1)%Q in Hq. lra.
Qed.

(** X5.  Whenever admission is refused the health status is [critical]:
    the admission ceilings lie above the 95% mark of the health check. *)
Theorem refusal_is_critical rm :
  checkResourceAvailability rm = false -> getHealthStatus rm = critical.
Proof. apply getHealthStatus_refused. Qed.

Lemma refusal_is_critical_witness : getHealthStatus saturated = critical.
Proof. apply refusal_is_critical. vm_compute. reflexivity. Defined.

Lemma admit_all_allowed ids : forall rm,
  checkResourceAvailability rm = true ->
  exists rm', admit_all ids rm = Some rm' ∧
    activeOperations rm' = list_to_set ids ∪ activeOperations rm ∧
    metrics rm' = metrics rm.
Proof.
  induction ids as [|id ids IH]; intros rm Hok.
  - exists rm. cbn. split; [done|]. split; [|done].
    by rewrite (left_id_L ∅ (∪)).
  - cbn [admit_all]. unfold executeWithResourceLimit_admit. rewrite Hok. cbn [negb].
    destruct (IH (with_activeOperations ({[id]} ∪ activeOperations rm) rm))
      as (rm' & Hadm & Hact & Hmet); [done|].
    exists rm'. split; [done|]. split; [|done].
    rewrite Hact. cbn [with_activeOperations activeOperations].
    rewrite list_to_set_cons.
    rewrite (comm_L (∪) {[id]} (list_to_set ids)).
    by rewrite <- (assoc_L (∪)).
Qed.

(** X6.  Admission does not bound concurrency between two samples: on a
    manager that admits one operation, any number of further operations is
    admitted as well, each joining the active set, the sampled metrics
    staying as they were. *)
Theorem admission_unbounded_between_samples rm ids :
  checkResourceAvailability rm = true ->
  exists rm', admit_all ids rm = Some rm' ∧
    activeOperations rm' = list_to_set ids ∪ activeOperations rm ∧
    metrics rm' = metrics rm ∧
    checkResourceAvailability rm' = true.
Proof.
  intros Hok. destruct (admit_all_allowed ids rm Hok) as (rm' & Hadm & Hact & Hmet).
  exists rm'. repeat split; try done.
  unfold checkResourceAvailability in *. by rewrite Hmet.
Qed.

Lemma admission_unbounded_between_samples_witness :
  exists rm', admit_all (op_id <$> seq 0 150) (new 0) = Some rm' ∧
    activeOperations rm' = list_to_set (op_id <$> seq 0 150) ∪ activeOperations (new 0) ∧
    metrics rm' = metrics (new 0) ∧
    checkResourceAvailability rm' = true.
Proof.
  apply (admission_unbounded_between_samples (new 0) (op_id <$> seq 0 150)).
  reflexivity.
Defined.

Lemma connections_bounds opens : forall rm,
  0 <= connectionCount rm ->
  0 <= connectionCount (connections opens rm) ∧
  connectionCount rm + net_opened opens <= connectionCount (connections opens rm) ∧
  (well_paired (connectionCount rm) opens ->
   connectionCount (connections opens rm) = connectionCount rm + net_opened opens).
Proof.
  induction opens as [|[] opens IH]; intros rm H0; cbn [connections net_opened well_paired].
  - repeat split; (done || lia).
  - destruct (IH (incrementConnections rm)) as (IH1 & IH2 & IH3); [cbn; lia|].
    cbn [incrementConnections with_connectionCount connectionCount] in IH2, IH3.
    split; [done|]. split; [lia|]. intros Hp. rewrite IH3 by done. lia.
  - destruct (IH (decrementConnections rm)) as (IH1 & IH2 & IH3); [cbn; lia|].
    cbn [decrementConnections with_connectionCount connectionCount] in IH2, IH3.
    split; [done|]. split; [lia|]. intros [Hd Hp].
    replace (Z.max 0 (connectionCount rm - 1)) with (connectionCount rm - 1) in IH3 by lia.
    rewrite IH3 by done. lia.
Qed.

(** X7.  The connection counter never goes below zero and never below
    what was opened minus what was closed; it equals that difference when
    no connection is closed that was not opened before. *)
Theorem connectionCount_tracks_open_connections rm opens :
  0 <= connectionCount rm ->
  0 <= connectionCount (connections opens rm) ∧
  connectionCount rm + net_opened opens <= connectionCount (connections opens rm) ∧
  (well_paired (connectionCount rm) opens ->
   connectionCount (connections opens rm) = connectionCount rm + net_opened opens).
Proof. apply connections_bounds. Qed.

Lemma connectionCount_tracks_open_connections_witness :
  0 <= connectionCount (connections [true; false; false; true] (new 0)) ∧
  connectionCount (new 0) + net_opened [true; false; false; true]
    <= connectionCount (connections [true; false; false; true] (new 0)) ∧
  (well_paired (connectionCount (new 0)) [true; false; false; true] ->
   connectionCount (connections [true; false; false; true] (new 0))
   = connectionCount (new 0) + net_opened [true; false; false; true]).
Proof.
  apply (connectionCount_tracks_open_connections (new 0) [true; false; false; true]).
  cbn. lia.
Defined.

End ResourceManagerMore.

(** ** RateLimitMiddleware *)

Section RateLimitMiddlewareMore.
Import Errors RateLimiter RateLimitMiddleware.

(** X8.  [withRateLimit] asks the limiter first.  A denied request throws
    the rate-limit error carrying [ceil(windowMs / 1000)] and touches
    neither the limiter nor the resource manager.  A request the limiter
    allows but the resource manager refuses throws the resource-limit
    error, and its timestamp stays recorded: the refused request has used
    one of the [maxRequests] slots of the window. *)
Theorem withRateLimit_admission cfg requests rm now identifier operationId :
  let key := key_of cfg identifier in
  let kept := in_window (now - windowMs cfg) (default [] (requests !! key)) in
  let outcome := withRateLimit_admit cfg requests rm now identifier operationId in
  (maxRequests cfg <= Z.of_nat (length kept) ->
   outcome = (Some (rate_limited_error (pretty (ceil_seconds (windowMs cfg)))), requests, rm)) ∧
  (Z.of_nat (length kept) < maxRequests cfg ->
   ResourceManager.checkResourceAvailability rm = false ->
   outcome = (Some (resource_exhausted_error (String.append "rate_limited_" identifier)),
              <[key := kept ++ [now]]> requests, rm)) ∧
  (Z.of_nat (length kept) < maxRequests cfg ->
   ResourceManager.checkResourceAvailability rm = true ->
   outcome = (None, <[key := kept ++ [now]]> requests,
              ResourceManager.with_activeOperations
                ({[operationId]} ∪ ResourceManager.activeOperations rm) rm)).
Proof.
  intros key kept outcome. subst outcome.
  unfold withRateLimit_admit, middleware, isAllowed. fold key. fold kept.
  split; [|split].
  - intros Hfull. apply Z.ltb_ge in Hfull. rewrite Hfull. done.
  - intros Hfree Hres. apply Z.ltb_lt in Hfree. rewrite Hfree. cbn.
    unfold ResourceManager.executeWithResourceLimit_admit. by rewrite Hres.
  - intros Hfree Hres. apply Z.ltb_lt in Hfree. rewrite Hfree. cbn.
    unfold ResourceManager.executeWithResourceLimit_admit. by rewrite Hres.
Qed.

Lemma withRateLimit_admission_witness :
  withRateLimit_admit sliding_window_example ∅ ResourceManager.saturated 7000
    "client" "rate_limited_client_7000_x"
  = (Some (resource_exhausted_error (String.append "rate_limited_" "client")),
     <[key_of sliding_window_example "client" :=
         in_window (7000 - windowMs sliding_window_example)
           (default [] ((∅ : gmap string (list Z)) !! key_of sliding_window_example "client"))
         ++ [7000]]> ∅,
     ResourceManager.saturated).
Proof.
  apply (proj1 (proj2 (withRateLimit_admission sliding_window_example ∅
                         ResourceManager.saturated 7000 "client"
                         "rate_limited_client_7000_x"))).
  - vm_compute. reflexivity.
  - vm_compute. reflexivity.
Defined.

End RateLimitMiddlewareMore.

(** ** CircuitBreaker: the failure counter *)

Section CircuitBreakerMore.
Import Errors CircuitBreaker.
Context {T : Type}.

Lemma execute_closed_success cb now (v : T) settled :
  state cb = CLOSED ->
  let r := execute now (Succeeds v) settled cb in
  invoked r = true ∧ state (breaker r) = CLOSED ∧ failureCount (breaker r) = 0 ∧
  config (breaker r) = config cb.
Proof.
  intros Hc. unfold execute. rewrite gate_not_open by congruence. cbn.
  unfold onSuccess. destruct (decide (state cb = HALF_OPEN)); [congruence|]. done.
Qed.

Lemma calls_closed (cs : list (Z * attempt T * Z)) : forall cb,
  state cb = CLOSED ->
  runs_below (failureThreshold (config cb)) (failureCount cb) cs ->
  state (calls cs cb).1 = CLOSED ∧
  failureCount (calls cs cb).1 = final_run (failureCount cb) cs ∧
  (calls cs cb).2 = replicate (length cs) true.
Proof.
  induction cs as [|[[now operation] settled] cs IH]; intros cb Hc Hruns; [done|].
  cbn [calls]. destruct (calls cs _) as [cb' invocations] eqn:Hrest.
  destruct operation as [v|e]; cbn [runs_below final_run] in *.
  - destruct (execute_closed_success cb now v settled Hc) as (Hi & Hs & Hf & Hcfg).
    specialize (IH _ Hs). rewrite Hrest, Hcfg, Hf in IH. cbn [fst snd] in IH |- *.
    destruct (IH Hruns) as (? & ? & ->). by rewrite Hi.
  - destruct Hruns as [Hlt Hruns].
    destruct (execute_closed_failure (T:=T) cb now e settled Hc)
      as (Hi & _ & Hf & _ & Hs & Hcfg).
    apply Z.leb_gt in Hlt. rewrite Hlt in Hs.
    specialize (IH _ Hs). rewrite Hrest, Hcfg, Hf in IH. cbn [fst snd] in IH |- *.
    destruct (IH Hruns) as (? & ? & ->). by rewrite Hi.
Qed.

(** X9.  Failures open a closed breaker only in an unbroken run: through
    any sequence of calls in which no run of consecutive failures reaches
    [failureThreshold] the breaker stays [CLOSED], invokes every
    operation, and counts the failures since the last success; one more
    failure once the count is [failureThreshold - 1] opens it. *)
Theorem breaker_opens_on_unbroken_run cb (cs : list (Z * attempt T * Z)) :
  state cb = CLOSED ->
  runs_below (failureThreshold (config cb)) (failureCount cb) cs ->
  let after := (calls cs cb).1 in
  state after = CLOSED ∧
  failureCount after = final_run (failureCount cb) cs ∧
  (calls cs cb).2 = replicate (length cs) true ∧
  (forall now e settled,
     failureThreshold (config cb) <= failureCount after + 1 ->
     state (breaker (execute (T:=T) now (Fails e) settled after)) = OPEN).
Proof.
  intros Hc Hruns after.
  destruct (calls_closed cs cb Hc Hruns) as (Hs & Hf & Hi). fold after in Hs, Hf.
  split; [done|]. split; [done|]. split; [done|].
  intros now e settled Hthr.
  destruct (execute_closed_failure (T:=T) after now e settled Hs)
    as (_ & _ & _ & _ & Hst & _).
  assert (config after = config cb) as Hcfg.
  { clear -Hc Hruns. subst after. revert cb Hc Hruns.
    induction cs as [|[[now operation] settled] cs IH]; intros cb Hc Hruns; [done|].
    cbn [calls]. destruct (calls cs _) as [cb' invocations] eqn:Hrest.
    destruct operation as [v|e]; cbn [runs_below] in Hruns.
    - destruct (execute_closed_success cb now v settled Hc) as (_ & Hs & Hf & Hcfg).
      specialize (IH _ Hs). rewrite Hrest, Hcfg, Hf in IH. cbn [fst] in IH |- *. auto.
    - destruct Hruns as [Hlt Hruns].
      destruct (execute_closed_failure (T:=T) cb now e settled Hc)
        as (_ & _ & Hf & _ & Hs & Hcfg).
      apply Z.leb_gt in Hlt. rewrite Hlt in Hs.
      specialize (IH _ Hs). rewrite Hrest, Hcfg, Hf in IH. cbn [fst] in IH |- *. auto. }
  rewrite Hcfg in Hst. apply Z.leb_le in Hthr. by rewrite Hthr in Hst.
Qed.

End CircuitBreakerMore.

Lemma breaker_opens_on_unbroken_run_witness :
  let e := Errors.Native "ECONNRESET" "Error" "socket hang up" in
  let cb := CircuitBreaker.new "docs" CircuitBreaker.example_config in
  let cs := [(0, CircuitBreaker.Fails e, 1); (2, CircuitBreaker.Fails e, 3);
             (4, CircuitBreaker.Succeeds "ok", 5); (6, CircuitBreaker.Fails e, 7);
             (8, CircuitBreaker.Fails e, 9)] in
  let after := (CircuitBreaker.calls cs cb).1 in
  CircuitBreaker.state after = CircuitBreaker.CLOSED ∧
  CircuitBreaker.failureCount after = CircuitBreaker.final_run (CircuitBreaker.failureCount cb) cs ∧
  (CircuitBreaker.calls cs cb).2 = replicate (length cs) true ∧
  (forall now e' settled,
     CircuitBreaker.failureThreshold (CircuitBreaker.config cb)
       <= CircuitBreaker.failureCount after + 1 ->
     CircuitBreaker.state
       (CircuitBreaker.breaker
          (CircuitBreaker.execute (T:=string) now (CircuitBreaker.Fails e') settled after))
     = CircuitBreaker.OPEN).
Proof.
  intros e cb cs. apply (breaker_opens_on_unbroken_run (T:=string) cb cs).
  - reflexivity.
  - cbn. lia.
Defined.

Section CircuitBreakerCounter.
Import CircuitBreaker.

(** X10.  In every state the breaker reaches, with a threshold of at
    least 1, the failure counter is not negative, and while the breaker is
    [CLOSED] it is below the threshold. *)
Theorem closed_below_threshold nm cfg cb :
  reachable nm cfg cb ->
  1 <= failureThreshold cfg ->
  config cb = cfg ∧ 0 <= failureCount cb ∧
  (state cb = CLOSED -> failureCount cb < failureThreshold cfg).
Proof.
  intros Hreach Hthr.
  induction Hreach as [|cb cb' now _ IH Hgate|cb _ IH|cb now _ IH|cb _ IH].
  - cbn. split; [done|]. split; lia.
  - destruct IH as (Hc & H0 & Hcl).
    unfold gate in Hgate. destruct (decide (state cb = OPEN)) as [Ho|Ho].
    + destruct (shouldAttemptReset now cb); [|done].
      injection Hgate as <-. cbn. done.
    + by injection Hgate as <-.
  - destruct IH as (Hc & H0 & Hcl). unfold onSuccess.
    destruct (decide (state cb = HALF_OPEN)).
    + destruct (3 <=? successCount cb + 1); cbn; (split; [done|]); split; (done || lia).
    + cbn. split; [done|]. split; lia.
  - destruct IH as (Hc & H0 & Hcl). unfold onFailure.
    destruct (decide (state cb = HALF_OPEN)).
    + cbn. split; [done|]. split; [lia|done].
    + destruct (failureThreshold (config cb) <=? failureCount cb + 1) eqn:Hle; cbn.
      * split; [done|]. split; [lia|done].
      * apply Z.leb_gt in Hle. rewrite Hc in Hle. split; [done|]. split; lia.
  - cbn. destruct IH as (Hc & _). split; [done|]. split; lia.
Qed.

Lemma closed_below_threshold_witness :
  let cb := onFailure 9 (onFailure 7 (new "docs" example_config)) in
  config cb = example_config ∧ 0 <= failureCount cb ∧
  (state cb = CLOSED -> failureCount cb < failureThreshold example_config).
Proof.
  apply (closed_below_threshold "docs" example_config).
  - do 2 apply reach_failure. apply reach_new.
  - cbn. lia.
Defined.

End CircuitBreakerCounter.

(** ** RetryHandler: the shape of a run, the range of the delays *)

Section RetryHandlerMore.
Import Errors Double RetryHandler.
Import CircuitBreaker (attempt, Succeeds, Fails).

Lemma attempts_shape {T} Math_pow cfg (operation : Z -> attempt T) random remaining :
  forall a lastError,
  (1 <= remaining)%nat ->
  Z.of_nat remaining = maxAttempts cfg - a + 1 ->
  exists n : nat,
    (n < remaining)%nat ∧
    (attempts Math_pow cfg operation random remaining a lastError).1
      = retried Math_pow cfg random n a ++ [Attempt (a + Z.of_nat n)] ∧
    (forall i, a <= i < a + Z.of_nat n ->
       exists e, operation i = Fails e ∧ shouldRetry cfg e = true) ∧
    match operation (a + Z.of_nat n) with
    | Succeeds v => (attempts Math_pow cfg operation random remaining a lastError).2 = Returned v
    | Fails e =>
        (attempts Math_pow cfg operation random remaining a lastError).2 = Thrown (Some e) ∧
        (a + Z.of_nat n = maxAttempts cfg ∨ shouldRetry cfg e = false)
    end.
Proof.
  induction remaining as [|remaining IH]; intros a lastError Hpos Hrem; [lia|].
  cbn [attempts].
  destruct (operation a) as [v|e] eqn:Hop.
  - exists O. rewrite Z.add_0_r, Hop. cbn. repeat split; (done || lia || (intros; lia)).
  - destruct (a =? maxAttempts cfg) eqn:Hlast.
    + apply Z.eqb_eq in Hlast.
      exists O. rewrite Z.add_0_r, Hop. cbn. repeat split; (lia || auto || (intros; lia)).
    + apply Z.eqb_neq in Hlast.
      destruct (shouldRetry cfg e) eqn:Hretry; cbn [negb].
      * destruct (IH (a + 1) (Some e)) as (n & Hn & Hsteps & Hbefore & Hend); [lia|lia|].
        destruct (attempts Math_pow cfg operation random remaining (a + 1) (Some e))
          as [steps r] eqn:Hrest.
        cbn [fst snd] in Hsteps, Hend |- *.
        exists (S n). split; [lia|].
        replace (a + Z.of_nat (S n)) with (a + 1 + Z.of_nat n) by lia.
        split; [cbn [retried]; by rewrite Hsteps|]. split; [|done].
        intros i Hi. destruct (decide (i = a)) as [->|Hne]; [eauto|].
        apply Hbefore. lia.
      * exists O. rewrite Z.add_0_r, Hop. cbn.
        repeat split; (lia || auto || (intros; lia)).
Qed.

(** X11.  Whatever the operation does, [execute] with [maxAttempts >= 1]
    calls it [1 + n] times for some [n < maxAttempts], numbered from 1, and
    sleeps once after each of the first [n] calls and at no other time;
    those [n] calls failed with errors [shouldRetry] accepts; the last call
    either succeeded, and its value is returned, or failed, and its error
    is rethrown because it was attempt [maxAttempts] or an error
    [shouldRetry] refuses.  With [maxAttempts <= 0] the operation is never
    called and [undefined] is thrown. *)
Theorem execute_run_shape {T} Math_pow cfg (operation : Z -> attempt T) random :
  (maxAttempts cfg <= 0 -> execute Math_pow cfg operation random = ([], Thrown None)) ∧
  (1 <= maxAttempts cfg ->
   exists n : nat,
     Z.of_nat n < maxAttempts cfg ∧
     (execute Math_pow cfg operation random).1
       = retried Math_pow cfg random n 1 ++ [Attempt (1 + Z.of_nat n)] ∧
     (forall i, 1 <= i <= Z.of_nat n ->
        exists e, operation i = Fails e ∧ shouldRetry cfg e = true) ∧
     match operation (1 + Z.of_nat n) with
     | Succeeds v => (execute Math_pow cfg operation random).2 = Returned v
     | Fails e =>
         (execute Math_pow cfg operation random).2 = Thrown (Some e) ∧
         (1 + Z.of_nat n = maxAttempts cfg ∨ shouldRetry cfg e = false)
     end).
Proof.
  unfold execute. split.
  - intros Hle. replace (Z.to_nat (maxAttempts cfg)) with O by lia. done.
  - intros Hpos.
    destruct (attempts_shape Math_pow cfg operation random (Z.to_nat (maxAttempts cfg)) 1 None)
      as (n & Hn & Hsteps & Hbefore & Hend); [lia|lia|].
    exists n. split; [lia|]. split; [done|]. split; [|done].
    intros i Hi. apply Hbefore. lia.
Qed.

Lemma execute_run_shape_witness :
  exists n : nat,
    Z.of_nat n < maxAttempts default_config ∧
    (execute pow_exact default_config reset_then_open (fun _ => half)).1
      = retried pow_exact default_config (fun _ => half) n 1 ++ [Attempt (1 + Z.of_nat n)] ∧
    (forall i, 1 <= i <= Z.of_nat n ->
       exists e, reset_then_open i = Fails e ∧ shouldRetry default_config e = true) ∧
    match reset_then_open (1 + Z.of_nat n) with
    | Succeeds v =>
        (execute pow_exact default_config reset_then_open (fun _ => half)).2 = Returned v
    | Fails e =>
        (execute pow_exact default_config reset_then_open (fun _ => half)).2 = Thrown (Some e) ∧
        (1 + Z.of_nat n = maxAttempts default_config ∨ shouldRetry default_config e = false)
    end.
Proof.
  apply (proj2 (execute_run_shape pow_exact default_config reset_then_open (fun _ => half))).
  cbn. lia.
Defined.

(** X12.  With the default configuration (1000, doubling, at most 30000)
    and [Math.pow] exact on the powers of 2, [calculateDelay] returns, for
    every attempt from 1 on and every value of [Math.random()] below 1, a
    whole number between 750 and 37500.  The range is lost when the base
    delay is 0: with the multiplier 2, from attempt 1025 on the power is
    [Infinity], 0 times it is [NaN], and [NaN] is what [calculateDelay]
    returns, whatever the maximum, the jitter and the random number. *)
Theorem calculateDelay_bounded Math_pow :
  pow_of_two Math_pow ->
  (forall random attempt,
     1 <= attempt -> unit_interval random ->
     exists z, calculateDelay Math_pow default_config random attempt = of_Z z ∧
               750 <= z <= 37500) ∧
  (forall cfg random attempt,
     baseDelay cfg = of_Z 0 -> backoffMultiplier cfg = two -> 1025 <= attempt ->
     calculateDelay Math_pow cfg random attempt = S754_nan).
Proof.
  intros Hpow. split.
  - intros random attempt Ha Hrandom. unfold calculateDelay.
    rewrite (clampedDelay_whole Math_pow default_config 1000 30000) by (done || lia).
    cbn [default_config jitter].
    set (D := Z.min (1000 * 2 ^ (attempt - 1)) 30000).
    assert (0 < 2 ^ (attempt - 1)) by (apply Z.pow_pos_nonneg; lia).
    assert (1000 <= D <= 30000) as HD by lia.
    destruct (jittered_floor D random) as (z & Hz & Hlo & Hhi); [lia|lia|done|].
    exists z. split; [done|].
    assert (750 <= 3 * D / 4) by (apply Z.div_le_lower_bound; lia).
    assert (5 * D / 4 <= 37500) by (apply Z.div_le_upper_bound; lia).
    lia.
  - intros cfg random attempt Hb H2 Ha. unfold calculateDelay, clampedDelay.
    rewrite Hb, H2, Hpow by lia. unfold pow_two.
    destruct (Z.ltb_spec (attempt - 1) 1024); [lia|].
    change (mul (of_Z 0) (S754_infinity false)) with S754_nan.
    change (Math_min S754_nan (maxDelay cfg)) with S754_nan.
    by destruct (jitter cfg).
Qed.

Lemma calculateDelay_bounded_witness :
  exists z, calculateDelay pow_exact default_config half 40 = of_Z z ∧ 750 <= z <= 37500.
Proof.
  apply (proj1 (calculateDelay_bounded pow_exact pow_exact_two) half 40).
  - lia.
  - vm_compute. split; [reflexivity|discriminate].
Defined.

End RetryHandlerMore.

(** ** ErrorHandler: conversion and retry, retry around a breaker *)

Section ErrorHandlerMore.
Import Errors ErrorHandler.

(** X13.  Once [handleError] has converted an error object, the default
    retry policy retries it exactly when it is not a [ValidationError] and
    either is a [TimeoutError] or mentions [ENOTFOUND] or [ECONNREFUSED] in
    its message; its [code], by which [shouldRetry] judges the unconverted
    error, no longer counts.  An [EnterpriseError] passes through
    unchanged. *)
Theorem handleError_retry_decision code name msg :
  (RetryHandler.shouldRetry RetryHandler.default_config
     (Enterprise (handleError (Native code name msg))) = true
   ↔ name ≠ "ValidationError" ∧
     (name = "TimeoutError" ∨ CachedHttpClient.includes msg "ENOTFOUND" = true
      ∨ CachedHttpClient.includes msg "ECONNREFUSED" = true)) ∧
  (RetryHandler.shouldRetry RetryHandler.default_config (Native code name msg) = true
   ↔ code = "ECONNRESET" ∨ code = "ECONNREFUSED" ∨ code = "ETIMEDOUT"
     ∨ name = "TimeoutError") ∧
  (forall e, handleError (Enterprise e) = e).
Proof.
  split; [|split; [|done]].
  - cbn [handleError]. unfold convertToEnterpriseError.
    destruct (decide (name = "ValidationError")) as [Hv|Hv].
    { split; [done|]. by intros [? _]. }
    destruct (decide (name = "TimeoutError")) as [Ht|Ht].
    { split; [|done]. auto. }
    destruct (CachedHttpClient.includes msg "ENOTFOUND") eqn:H1.
    { split; [|done]. auto. }
    destruct (CachedHttpClient.includes msg "ECONNREFUSED") eqn:H2.
    { split; [|done]. auto. }
    split; [done|]. intros [_ [?|[?|?]]]; done.
  - cbn [RetryHandler.shouldRetry]. rewrite !orb_true_iff, !bool_decide_eq_true. tauto.
Qed.

(** X14.  Retrying around a breaker does not hammer an open circuit: when
    the breaker registered under the name is [OPEN] and its reset timeout
    has not elapsed at the first attempt, [withCircuitBreakerAndRetry]
    makes that one attempt, never invokes the operation, does not sleep,
    throws the circuit-open error and leaves the registry as it was,
    whatever the retry configuration with [maxAttempts >= 1]. *)
Theorem retry_stops_at_open_circuit {T} Math_pow cfg circuitBreakerName enter settle
    (operation : Z -> CircuitBreaker.attempt T) random circuitBreakers cb last :
  1 <= RetryHandler.maxAttempts cfg ->
  circuitBreakers !! circuitBreakerName = Some cb ->
  CircuitBreaker.state cb = CircuitBreaker.OPEN ->
  CircuitBreaker.lastFailureTime cb = Some last ->
  enter 1 - last < CircuitBreaker.resetTimeout (CircuitBreaker.config cb) ->
  withCircuitBreakerAndRetry Math_pow cfg circuitBreakerName enter settle operation random
    circuitBreakers
  = ([RetryHandler.Attempt 1],
     RetryHandler.Thrown (Some (circuit_open_error (CircuitBreaker.name cb))),
     (circuitBreakers, O)).
Proof.
  intros Hmax Hreg Hopen Hlast Hearly.
  unfold withCircuitBreakerAndRetry, RetryHandler.execute_in.
  destruct (Z.to_nat (RetryHandler.maxAttempts cfg)) as [|remaining] eqn:Hrem; [lia|].
  cbn [RetryHandler.attempts_in]. unfold withCircuitBreaker. cbn [fst snd]. rewrite Hreg.
  rewrite (execute_open_refused cb last (enter 1) (operation 1) (settle 1) Hopen Hlast Hearly).
  cbn [CircuitBreaker.outcome CircuitBreaker.invoked CircuitBreaker.breaker].
  rewrite (insert_id circuitBreakers circuitBreakerName cb Hreg).
  unfold circuit_open_error at 1 2.
  cbn [RetryHandler.shouldRetry retryable andb negb].
  rewrite andb_false_r. cbn [negb].
  by destruct (1 =? RetryHandler.maxAttempts cfg).
Qed.

End ErrorHandlerMore.

Lemma retry_stops_at_open_circuit_witness :
  ErrorHandler.withCircuitBreakerAndRetry Double.pow_exact RetryHandler.default_config "docs"
    (fun n => 2000 * n) (fun n => 2000 * n + 500) RetryHandler.reset_then_open
    (fun _ => Double.half) {["docs" := ErrorHandler.tripped]}
  = ([RetryHandler.Attempt 1],
     RetryHandler.Thrown
       (Some (Errors.circuit_open_error (CircuitBreaker.name ErrorHandler.tripped))),
     ({["docs" := ErrorHandler.tripped]}, O)).
Proof.
  apply (retry_stops_at_open_circuit Double.pow_exact RetryHandler.default_config "docs"
           (fun n => 2000 * n) (fun n => 2000 * n + 500) RetryHandler.reset_then_open
           (fun _ => Double.half) {["docs" := ErrorHandler.tripped]} ErrorHandler.tripped 1000).
  - cbn. lia.
  - reflexivity.
  - reflexivity.
  - reflexivity.
  - cbn. lia.
Defined.

(** ** MemoryManager: eviction, the size of a cache, the sweep *)

Section MemoryManagerMore.
Import MemoryManager.
Context {T : Type}.
Variable estimateSize : T -> Z.

Local Abbreviation entry := (CacheEntry (T:=T)).
Local Abbreviation scan_step :=
  (fun (acc : option string * Z) (kv : string * entry) =>
     if lastAccessed (snd kv) <? snd acc
     then (Some (fst kv), lastAccessed (snd kv)) else acc).

Lemma scan_stable (l : list (string * entry)) acc :
  Forall (fun kv => acc.2 <= lastAccessed kv.2) l ->
  fold_left scan_step l acc = acc.
Proof.
  induction 1 as [|kv l Hkv _ IH]; [done|].
  cbn. destruct (_ <? _) eqn:Hlt; [apply Z.ltb_lt in Hlt; lia|]. done.
Qed.

Lemma scan_lower_bound (l : list (string * entry)) : forall acc m,
  Forall (fun kv => m < lastAccessed kv.2) l -> m < acc.2 ->
  m < (fold_left scan_step l acc).2.
Proof.
  induction l as [|kv l IH]; intros acc m Hall Hm; [done|].
  apply Forall_cons in Hall as [Hkv Hall]. cbn [fold_left].
  apply IH; [done|]. by destruct (_ <? _).
Qed.

Lemma scan_first_least pre k (e : entry) post acc :
  lastAccessed e < acc.2 ->
  Forall (fun kv => lastAccessed e < lastAccessed kv.2) pre ->
  Forall (fun kv => lastAccessed e <= lastAccessed kv.2) post ->
  fold_left scan_step (pre ++ (k, e) :: post) acc = (Some k, lastAccessed e).
Proof.
  intros Hacc Hpre Hpost. rewrite fold_left_app. cbn [fold_left].
  pose proof (scan_lower_bound pre acc (lastAccessed e) Hpre Hacc) as Hlow.
  cbn [fst snd]. apply Z.ltb_lt in Hlow. rewrite Hlow.
  by apply scan_stable.
Qed.

Lemma entries_delete_middle pre k (e : entry) post :
  k ∉ pre.*1 -> entries_delete k (pre ++ (k, e) :: post) = pre ++ post.
Proof.
  induction pre as [|[k' e'] pre IH]; intros Hk; cbn.
  - by rewrite decide_True.
  - apply not_elem_of_cons in Hk as [Hne Hk].
    rewrite decide_False by done. by rewrite IH.
Qed.

(** X15.  [evictLRU] removes one entry, the first of those accessed least
    recently, provided it was accessed before the present instant and its
    key is not the empty string; when every entry was accessed at the
    present instant or later it removes nothing. *)
Theorem evictLRU_removes_least_recent now (cache : list (string * entry)) :
  (Forall (fun kv => now <= lastAccessed kv.2) cache -> evictLRU now cache = cache) ∧
  (forall pre k e post,
     cache = pre ++ (k, e) :: post ->
     lastAccessed e < now ->
     Forall (fun kv => lastAccessed e < lastAccessed kv.2) pre ->
     Forall (fun kv => lastAccessed e <= lastAccessed kv.2) post ->
     k ∉ pre.*1 ->
     evictLRU now cache = if decide (k = EmptyString) then cache else pre ++ post).
Proof.
  split.
  - intros Hall. unfold evictLRU. by rewrite (scan_stable cache (None, now)).
  - intros pre k e post -> Hnow Hpre Hpost Hk. unfold evictLRU.
    rewrite (scan_first_least pre k e post (None, now)) by done. cbn [fst].
    destruct (decide (k = EmptyString)); [done|]. by apply entries_delete_middle.
Qed.

End MemoryManagerMore.

Lemma evictLRU_removes_least_recent_witness :
  MemoryManager.evictLRU 10 MemoryManager.three_entries
  = if decide ("b" = EmptyString) then MemoryManager.three_entries
    else [("a", {| MemoryManager.data := "A"; MemoryManager.timestamp := 1;
                   MemoryManager.accessCount := 2; MemoryManager.lastAccessed := 5;
                   MemoryManager.size := 6 |})]
         ++ [("c", {| MemoryManager.data := "C"; MemoryManager.timestamp := 3;
                      MemoryManager.accessCount := 0; MemoryManager.lastAccessed := 3;
                      MemoryManager.size := 6 |})].
Proof.
  apply (proj2 (evictLRU_removes_least_recent 10 MemoryManager.three_entries)
           _ "b" {| MemoryManager.data := "B"; MemoryManager.timestamp := 2;
                    MemoryManager.accessCount := 0; MemoryManager.lastAccessed := 3;
                    MemoryManager.size := 6 |}).
  - reflexivity.
  - cbn. lia.
  - repeat constructor.
  - repeat constructor; cbn; lia.
  - cbn. intros [=]%list_elem_of_singleton.
Defined.

Section MemoryManagerSize.
Import MemoryManager.
Context {T : Type}.
Variable estimateSize : T -> Z.

Local Abbreviation entry := (CacheEntry (T:=T)).

Lemma first_least_exists (l : list (string * entry)) : forall bound,
  Exists (fun kv => lastAccessed kv.2 < bound) l ->
  exists pre k e post,
    l = pre ++ (k, e) :: post ∧ lastAccessed e < bound ∧
    Forall (fun kv => lastAccessed e < lastAccessed kv.2) pre ∧
    Forall (fun kv => lastAccessed e <= lastAccessed kv.2) post.
Proof.
  induction l as [|[k e] rest IH]; intros bound Hex; [by apply Exists_nil in Hex|].
  destruct (decide (lastAccessed e < bound)) as [Hlt|Hge].
  - destruct (decide (Exists (fun kv : string * entry => lastAccessed kv.2 < lastAccessed e) rest))
      as [Hlower|Hnone].
    + destruct (IH _ Hlower) as (pre & k' & e' & post & -> & Hb & Hpre & Hpost).
      exists ((k, e) :: pre), k', e', post. split; [done|]. split; [lia|].
      split; [|done]. constructor; [done|done].
    + exists [], k, e, rest. split; [done|]. split; [done|]. split; [constructor|].
      apply Forall_forall. intros kv Hin.
      destruct (decide (lastAccessed e <= lastAccessed kv.2)); [done|].
      exfalso. apply Hnone. apply Exists_exists. exists kv. split; [done|lia].
  - apply Exists_cons in Hex as [Hhd|Htl]; [cbn in Hhd; lia|].
    destruct (IH _ Htl) as (pre & k' & e' & post & -> & Hb & Hpre & Hpost).
    exists ((k, e) :: pre), k', e', post. split; [done|]. split; [done|].
    split; [|done]. constructor; [cbn; lia|done].
Qed.

Lemma entries_delete_length k (cache : list (string * entry)) :
  k ∈ cache.*1 -> S (length (entries_delete k cache)) = length cache.
Proof.
  induction cache as [|[k' e'] cache IH]; intros Hin; [by apply elem_of_nil in Hin|].
  cbn. destruct (decide (k' = k)) as [->|Hne]; [done|].
  cbn. f_equal. apply IH. cbn in Hin. apply elem_of_cons in Hin as [?|?]; [congruence|done].
Qed.

Lemma entries_set_length k (e : entry) cache :
  (length (entries_set k e cache) <= S (length cache))%nat.
Proof.
  induction cache as [|[k' e'] cache IH]; cbn; [lia|].
  destruct (decide (k' = k)); cbn; lia.
Qed.

Lemma evictLRU_shrinks now (cache : list (string * entry)) :
  Exists (fun kv => lastAccessed kv.2 < now) cache ->
  Forall (fun kv => kv.1 ≠ EmptyString) cache ->
  S (length (evictLRU now cache)) = length cache.
Proof.
  intros Hex Hkeys.
  destruct (first_least_exists cache now Hex) as (pre & k & e & post & -> & Hb & Hpre & Hpost).
  unfold evictLRU.
  rewrite (scan_first_least pre k e post (None, now)) by done. cbn [fst].
  assert (k ≠ EmptyString) as Hk.
  { apply Forall_app in Hkeys as [_ Hk]. by apply Forall_cons in Hk as [Hk _]. }
  rewrite decide_False by done.
  apply entries_delete_length. rewrite fmap_app. apply elem_of_app. right. cbn. left.
Qed.

(** X16.  [setCache] keeps a named cache within 1000 entries as long as
    it was below that number; on a cache of 1000 entries or more it does
    not add to the number of entries, provided some entry was last
    accessed before the present instant and no key is the empty string. *)
Theorem setCache_size cacheName key (value : T) ttl now caches :
  let before := default [] (caches !! cacheName) in
  let after := default [] (setCache estimateSize cacheName key value ttl now caches
                            !! cacheName) in
  ((length before < 1000)%nat -> (length after <= 1000)%nat) ∧
  ((1000 <= length before)%nat ->
   Exists (fun kv => lastAccessed kv.2 < now) before ->
   Forall (fun kv => kv.1 ≠ EmptyString) before ->
   (length after <= length before)%nat).
Proof.
  intros before after. subst after. unfold setCache. rewrite lookup_insert_eq.
  cbn [default from_option id]. fold before. split.
  - intros Hlt. destruct (1000 <=? Z.of_nat (length before)) eqn:Hfull;
      [apply Z.leb_le in Hfull; lia|].
    pose proof (entries_set_length key
      {| data := value; timestamp := now; accessCount := 0; lastAccessed := now;
         size := estimateSize value |} before). lia.
  - intros Hfull Hex Hkeys.
    destruct (1000 <=? Z.of_nat (length before)) eqn:Hf; [|apply Z.leb_gt in Hf; lia].
    pose proof (evictLRU_shrinks now before Hex Hkeys).
    pose proof (entries_set_length key
      {| data := value; timestamp := now; accessCount := 0; lastAccessed := now;
         size := estimateSize value |} (evictLRU now before)). lia.
Qed.

End MemoryManagerSize.

Lemma setCache_size_witness :
  (length (default [] (MemoryManager.setCache (fun _ : string => 6%Z) "docs" "d" "D" 1000%Z 10%Z
                         {["docs" := MemoryManager.three_entries]} !! "docs")) <= 1000)%nat.
Proof.
  apply (proj1 (setCache_size (fun _ : string => 6%Z) "docs" "d" "D" 1000%Z 10%Z
                  {["docs" := MemoryManager.three_entries]})).
  vm_compute. lia.
Defined.

Section MemoryManagerSweep.
Import MemoryManager.
Context {T : Type}.
Variable estimateSize : T -> Z.

Local Abbreviation entry := (CacheEntry (T:=T)).

Lemma entries_get_None key (cache : list (string * entry)) :
  key ∉ cache.*1 -> entries_get key cache = None.
Proof.
  induction cache as [|[k e] cache IH]; intros Hk; [done|].
  cbn in *. apply not_elem_of_cons in Hk as [Hne Hk].
  rewrite decide_False by done. by apply IH.
Qed.

Lemma entries_get_filter (P : string * entry -> Prop) `{!forall kv, Decision (P kv)}
    key (cache : list (string * entry)) :
  NoDup cache.*1 ->
  entries_get key (filter P cache)
  = match entries_get key cache with
    | Some e => if decide (P (key, e)) then Some e else None
    | None => None
    end.
Proof.
  induction cache as [|[k e] cache IH]; intros Hnd; [done|].
  cbn in Hnd. apply NoDup_cons in Hnd as [Hk Hnd].
  cbn [entries_get]. destruct (decide (k = key)) as [->|Hne].
  - destruct (decide (P (key, e))) as [HP|HP].
    + rewrite filter_cons_True by done. cbn. by rewrite decide_True.
    + rewrite filter_cons_False by done. apply entries_get_None.
      intros Hin. apply Hk. apply list_elem_of_fmap in Hin as (kv & -> & Hin).
      apply list_elem_of_fmap. exists kv. split; [done|].
      by apply list_elem_of_filter in Hin as [_ ?].
  - destruct (decide (P (k, e))).
    + rewrite filter_cons_True by done. cbn. rewrite decide_False by done. by apply IH.
    + rewrite filter_cons_False by done. by apply IH.
Qed.

(** X17.  The periodic removal of expired entries cannot be seen by a
    reader: a [getCache] at or after the sweep returns what it would have
    returned without it. *)
Theorem cleanupExpiredEntries_preserves_getCache cacheName key swept now
    (caches : gmap string (list (string * entry))) :
  swept <= now ->
  (forall cache, caches !! cacheName = Some cache -> NoDup cache.*1) ->
  (getCache cacheName key now (cleanupExpiredEntries swept caches)).1
  = (getCache cacheName key now caches).1.
Proof.
  intros Hnow Hnd. unfold getCache, cleanupExpiredEntries. rewrite lookup_fmap.
  destruct (caches !! cacheName) as [cache|] eqn:Hcache; cbn [fmap option_fmap option_map]; [|done].
  rewrite entries_get_filter by eauto.
  destruct (entries_get key cache) as [e|]; [|done].
  destruct (decide _) as [Hkeep|Hdrop]; cbn [snd] in *.
  - by destruct (_ <? _).
  - assert ((maxCacheAge <? now - timestamp e) = true) as ->; [|done].
    apply Z.ltb_lt. apply dec_stable in Hdrop. lia.
Qed.

Lemma entries_get_set_ne key key' (e : entry) cache :
  key ≠ key' -> entries_get key' (entries_set key e cache) = entries_get key' cache.
Proof.
  intros Hne. induction cache as [|[k e'] cache IH]; cbn.
  - by rewrite decide_False.
  - destruct (decide (k = key)) as [->|Hk]; cbn.
    + by rewrite !decide_False.
    + destruct (decide (k = key')); [done|]. apply IH.
Qed.

(** X18.  Writing one key does not disturb the others: while the named
    cache holds fewer than 1000 entries, a [setCache] of [key] leaves what
    [getCache] returns for any other key of that cache as it was, and it
    never changes what is returned from another cache. *)
Theorem setCache_leaves_other_keys cacheName key (value : T) ttl t0 now
    (caches : gmap string (list (string * entry))) :
  let caches' := setCache estimateSize cacheName key value ttl t0 caches in
  (forall key',
     key' ≠ key ->
     (length (default [] (caches !! cacheName)) < 1000)%nat ->
     (getCache cacheName key' now caches').1 = (getCache cacheName key' now caches).1) ∧
  (forall otherName key',
     otherName ≠ cacheName ->
     (getCache otherName key' now caches').1 = (getCache otherName key' now caches).1).
Proof.
  intros caches'. subst caches'. split.
  - intros key' Hne Hsmall. unfold getCache, setCache. rewrite lookup_insert_eq.
    destruct (1000 <=? _) eqn:Hfull; [apply Z.leb_le in Hfull; lia|].
    rewrite entries_get_set_ne by done.
    destruct (caches !! cacheName) as [cache|]; cbn [default from_option id]; [|done].
    destruct (entries_get key' cache) as [e|]; [|done].
    by destruct (_ <? _).
  - intros otherName key' Hne. unfold getCache, setCache.
    rewrite lookup_insert_ne by done.
    destruct (caches !! otherName) as [cache|]; [|done].
    destruct (entries_get key' cache) as [e|]; [|done].
    by destruct (_ <? _).
Qed.

End MemoryManagerSweep.

Lemma cleanupExpiredEntries_preserves_getCache_witness :
  (MemoryManager.getCache "docs" "b" 1800003
     (MemoryManager.cleanupExpiredEntries 1800002
        {["docs" := MemoryManager.three_entries]})).1
  = (MemoryManager.getCache "docs" "b" 1800003
       {["docs" := MemoryManager.three_entries]}).1.
Proof.
  apply (cleanupExpiredEntries_preserves_getCache "docs" "b" 1800002 1800003).
  - lia.
  - intros cache Hc. rewrite lookup_singleton_eq in Hc. injection Hc as <-.
    apply (bool_decide_unpack _). vm_compute. exact I.
Defined.

Lemma setCache_leaves_other_keys_witness :
  (MemoryManager.getCache "docs" "a" 20
     (MemoryManager.setCache (fun _ : string => 6) "docs" "d" "D" 1000 10
        {["docs" := MemoryManager.three_entries]})).1
  = (MemoryManager.getCache "docs" "a" 20 {["docs" := MemoryManager.three_entries]}).1.
Proof.
  apply (proj1 (setCache_leaves_other_keys (fun _ : string => 6) "docs" "d" "D" 1000 10 20
                  {["docs" := MemoryManager.three_entries]})).
  - done.
  - vm_compute. lia.
Defined.

(** ** CachedHttpClient: the two caches, registrations, retries, counters *)

Section ClientMore.
Import CachedHttpClient.
Variable getCacheKey : string -> string.
Variable caching_enabled : bool.
Variable caching_ttl : Z.

Local Abbreviation step := (step getCacheKey caching_enabled caching_ttl).
Local Abbreviation run := (run getCacheKey caching_enabled caching_ttl).

Lemma run_ind_from (P : client -> Prop) events :
  (forall e c, P c -> P (step e c)) -> forall c, P c -> P (run events c).
Proof.
  intros Hstep. induction events as [|e events IH]; intros c Hc; [done|].
  cbn. apply IH. by apply Hstep.
Qed.

Lemma step_cache_disk e c : cache c = disk c -> cache (step e c) = disk (step e c).
Proof.
  intros Heq. destruct e as [u now|p resp now|p|cid now|now|]; cbn.
  - unfold fetch_call. destruct (decide (u = EmptyString)); [done|].
    destruct (activeRequests c !! getCacheKey u); [done|].
    destruct (cache c !! getCacheKey u); [|done].
    destruct caching_enabled; [|done].
    destruct (_ <? _); [done|]. cbn. by rewrite Heq.
  - unfold transport_reply. destruct (requests c !! p) as [r|]; [|done].
    destruct (r_phase r); try done.
    destruct (attempt_result resp) as [text|errorMessage].
    + cbn. destruct (caching_enabled && _); by rewrite ?Heq.
    + by destruct (isRetryable errorMessage && _).
  - unfold wake. destruct (requests c !! p) as [r|]; [|done]. by destruct (r_phase r).
  - unfold resume. destruct (calls c !! cid) as [cl|]; [|done].
    destruct (c_result cl); [done|].
    destruct (c_role cl); try done; by destruct (requests c !! _ ≫= settled).
  - unfold cleanupCache. cbn. rewrite <- Heq.
    apply map_filter_ext. intros key entry Hkey. cbn. by rewrite Hkey.
  - done.
Qed.

(** X19.  As long as the file system does what it is asked, the map in
    memory and the cache files always hold the same
    entries: from the constructor on, through every fetch, reply, sweep
    and clearing, [cache] and [disk] are equal. *)
Theorem cache_and_disk_agree now0 files events :
  let c := run events (new caching_ttl now0 files) in
  cache c = disk c.
Proof. apply run_ind_from; [apply step_cache_disk|done]. Qed.

Lemma step_owned e c : owned_registrations getCacheKey c ->
  owned_registrations getCacheKey (step e c).
Proof.
  intros Hown. destruct e as [u now|p resp now|p|cid now|now|]; cbn.
  - assert (forall cl stats, owned_registrations getCacheKey (push_call cl stats c)) as Hpush.
    { intros cl stats key p Hact. destruct (Hown key p Hact) as (cid & cl0 & Hc & ?).
      exists cid, cl0. split; [|done]. cbn. rewrite lookup_app_l; [done|].
      by eapply lookup_lt_Some. }
    assert (forall c0, activeRequests c0 = activeRequests c -> calls c0 = calls c ->
              owned_registrations getCacheKey (startRequest u (getCacheKey u) now c0)) as Hstart.
    { intros c0 Ha Hcs key p. unfold startRequest. cbn. rewrite Ha, Hcs.
      destruct (decide (key = getCacheKey u)) as [->|Hne].
      - rewrite lookup_insert_eq. intros [= <-].
        exists (length (calls c)). eexists. split; [by apply list_lookup_middle|].
        done.
      - rewrite lookup_insert_ne by done. intros Hact.
        destruct (Hown key p Hact) as (cid & cl0 & Hc & ?).
        exists cid, cl0. split; [|done]. rewrite lookup_app_l; [done|].
        by eapply lookup_lt_Some. }
    unfold fetch_call. destruct (decide (u = EmptyString)); [apply Hpush|].
    destruct (activeRequests c !! getCacheKey u); [apply Hpush|].
    destruct (cache c !! getCacheKey u); [|by apply Hstart].
    destruct caching_enabled; [|by apply Hstart].
    destruct (_ <? _); [apply Hpush|]. by apply Hstart.
  - unfold transport_reply. destruct (requests c !! p) as [r|]; [|done].
    destruct (r_phase r); try done.
    destruct (attempt_result resp) as [text|errorMessage]; [done|].
    by destruct (isRetryable errorMessage && _).
  - unfold wake. destruct (requests c !! p) as [r|]; [|done]. by destruct (r_phase r).
  - unfold resume. destruct (calls c !! cid) as [cl|] eqn:Hcl; [|done].
    destruct (c_result cl) eqn:Hres; [done|].
    destruct (c_role cl) as [| |p|p] eqn:Hrole; try done;
      (destruct (requests c !! p ≫= settled) as [o|]; [|done]).
    + intros key p'. cbn. intros [Hne Hact]%lookup_delete_Some.
      destruct (Hown key p' Hact) as (cid' & cl' & Hc' & Hr' & Hn' & Hk').
      exists cid', cl'. split; [|done].
      rewrite list_lookup_insert_ne; [done|]. intros <-. congruence.
    + intros key p'. cbn. intros Hact.
      destruct (Hown key p' Hact) as (cid' & cl' & Hc' & Hr' & Hn' & Hk').
      exists cid', cl'. split; [|done].
      rewrite list_lookup_insert_ne; [done|]. intros <-. congruence.
  - done.
  - done.
Qed.

(** X20.  No registration outlives its owner: in every state, a promise
    registered under a cache key belongs to a call that started it and has
    not yet returned; so once every call has returned, no request is
    registered and a later caller cannot wait on a promise of the past. *)
Theorem registrations_have_owners now0 files events :
  let c := run events (new caching_ttl now0 files) in
  owned_registrations getCacheKey c ∧
  (Forall (fun cl => is_Some (c_result cl)) (calls c) -> activeRequests c = ∅).
Proof.
  intros c.
  assert (owned_registrations getCacheKey c) as Hown.
  { apply run_ind_from; [apply step_owned|]. intros key p. cbn. by rewrite lookup_empty. }
  split; [done|]. intros Hall. apply map_empty. intros key.
  destruct (activeRequests c !! key) as [p|] eqn:Hact; [|done].
  destruct (Hown key p Hact) as (cid & cl & Hc & _ & Hnone & _).
  apply (proj1 (Forall_lookup _ _) Hall) in Hc. rewrite Hnone in Hc. by destruct Hc.
Qed.

Lemma reply_settles_or_sleeps p resp now c r :
  requests c !! p = Some r -> r_phase r = AwaitingTransport ->
  let c' := step (Reply p resp now) c in
  (exists o, requests c' !! p = Some (with_phase (Settled o) r)) ∨
  (r_attempt r < maxRetries retryOptions ∧
   requests c' !! p = Some (with_phase (Sleeping (retry_delay (r_attempt r))) r)).
Proof.
  intros Hr Hph. cbn. unfold transport_reply. rewrite Hr, Hph.
  assert (p < length (requests c))%nat by (by eapply lookup_lt_Some).
  destruct (attempt_result resp) as [text|errorMessage].
  - left. eexists. cbn. by rewrite list_lookup_insert_eq.
  - destruct (isRetryable errorMessage) ; cbn [andb].
    + destruct (r_attempt r <? maxRetries retryOptions) eqn:Hlt.
      * right. split; [by apply Z.ltb_lt|]. cbn. by rewrite list_lookup_insert_eq.
      * left. eexists. cbn. by rewrite list_lookup_insert_eq.
    + left. eexists. cbn. by rewrite list_lookup_insert_eq.
Qed.

Lemma settled_stays e c p o :
  requests c !! p ≫= settled = Some o -> requests (step e c) !! p ≫= settled = Some o.
Proof.
  intros Hset.
  destruct (requests c !! p) as [r|] eqn:Hr; [|done]. cbn in Hset.
  assert (r_phase r = Settled o) as Hph.
  { unfold settled in Hset. destruct (r_phase r); congruence. }
  destruct e as [u now|q resp now|q|cid now|now|]; cbn.
  - assert (forall cl stats, requests (push_call cl stats c) = requests c) as Hpush by done.
    assert (forall k c0, requests c0 = requests c ->
              requests (startRequest u k now c0) !! p ≫= settled = Some o) as Hstart.
    { intros k c0 Hc0. cbn. rewrite Hc0, lookup_app_l by (by eapply lookup_lt_Some).
      rewrite Hr. cbn. unfold settled. by rewrite Hph. }
    unfold fetch_call. destruct (decide (u = EmptyString)); [by rewrite Hpush, Hr|].
    destruct (activeRequests c !! getCacheKey u); [by rewrite Hpush, Hr|].
    destruct (cache c !! getCacheKey u); [|by apply Hstart].
    destruct caching_enabled; [|by apply Hstart].
    destruct (_ <? _); [by rewrite Hpush, Hr|]. by apply Hstart.
  - unfold transport_reply. destruct (requests c !! q) as [r'|] eqn:Hr'; [|by rewrite Hr].
    destruct (r_phase r') eqn:Hph'; try by rewrite Hr.
    assert (q ≠ p) as Hne by (intros ->; congruence).
    destruct (attempt_result resp) as [text|errorMessage]; cbn.
    + rewrite list_lookup_insert_ne by done. by rewrite Hr.
    + destruct (isRetryable errorMessage && _); cbn;
        rewrite list_lookup_insert_ne by done; by rewrite Hr.
  - unfold wake. destruct (requests c !! q) as [r'|] eqn:Hr'; [|by rewrite Hr].
    destruct (r_phase r') eqn:Hph'; try by rewrite Hr.
    assert (q ≠ p) as Hne by (intros ->; congruence).
    cbn. rewrite list_lookup_insert_ne by done. by rewrite Hr.
  - unfold resume. destruct (calls c !! cid) as [cl|]; [|by rewrite Hr].
    destruct (c_result cl); [by rewrite Hr|].
    destruct (c_role cl) as [| |p0|p0]; try (by rewrite Hr);
      (destruct (requests c !! p0 ≫= settled); cbn; by rewrite Hr).
  - by rewrite Hr.
  - by rewrite Hr.
Qed.

Lemma wake_sleeping p c r d :
  requests c !! p = Some r -> r_phase r = Sleeping d ->
  exists r', requests (step (Wake p) c) !! p = Some r' ∧
    r_phase r' = AwaitingTransport ∧ r_attempt r' = r_attempt r + 1.
Proof.
  intros Hr Hph. cbn. unfold wake. rewrite Hr, Hph. cbn.
  assert (p < length (requests c))%nat by (by eapply lookup_lt_Some).
  eexists. by rewrite list_lookup_insert_eq.
Qed.

(** One reply and the wake after it: the request has settled, or it waits
    for the transport again with one attempt more, which leaves it below
    the limit only if it was. *)
Lemma reply_wake p resp now c r :
  requests c !! p = Some r -> r_phase r = AwaitingTransport ->
  let c' := step (Wake p) (step (Reply p resp now) c) in
  is_Some (requests c' !! p ≫= settled) ∨
  (r_attempt r < maxRetries retryOptions ∧
   exists r', requests c' !! p = Some r' ∧ r_phase r' = AwaitingTransport ∧
     r_attempt r' = r_attempt r + 1).
Proof.
  intros Hr Hph c'.
  destruct (reply_settles_or_sleeps p resp now c r Hr Hph) as [[o Ho]|[Hlt Hs]].
  - left. exists o. apply settled_stays. by rewrite Ho.
  - right. split; [done|].
    destruct (wake_sleeping p _ _ _ Hs eq_refl) as (r' & Hr' & Hph' & Ha').
    exists r'. done.
Qed.

(** X21.  A request is given up after three attempts.  In every state, a
    request that waits for the transport has settled, with the payload or
    with an error, once the transport has answered three times (the
    request waking from its sleep in between), whatever the answers and
    whenever they come: no request retries for ever. *)
Theorem request_settles_within_three_replies now0 files events p r
    resp1 resp2 resp3 t1 t2 t3 :
  let c := run events (new caching_ttl now0 files) in
  requests c !! p = Some r ->
  r_phase r = AwaitingTransport ->
  is_Some (requests (run (three_replies p resp1 resp2 resp3 t1 t2 t3) c) !! p ≫= settled).
Proof.
  intros c Hr Hph.
  assert (1 <= r_attempt r) as Hge.
  { pose proof (invariant_run getCacheKey caching_enabled caching_ttl events _
                  (invariant_new getCacheKey caching_ttl now0 files)) as Hinv.
    destruct (inv_attempts _ _ Hinv p r Hr) as (_ & ? & _). lia. }
  unfold three_replies. cbn [CachedHttpClient.run fold_left].
  destruct (reply_wake p resp1 t1 c r Hr Hph) as [[o Ho]|(Hlt1 & r1 & Hr1 & Hph1 & Ha1)].
  { exists o. do 3 apply settled_stays. done. }
  destruct (reply_wake p resp2 t2 _ r1 Hr1 Hph1) as [[o Ho]|(Hlt2 & r2 & Hr2 & Hph2 & Ha2)].
  { exists o. by apply settled_stays. }
  destruct (reply_settles_or_sleeps p resp3 t3 _ r2 Hr2 Hph2) as [[o Ho]|[Hlt3 _]].
  - exists o. by rewrite Ho.
  - cbn in Hlt1, Hlt2, Hlt3. lia.
Qed.

Lemma attempt_result_inl resp text : attempt_result resp = inl text -> text ≠ EmptyString.
Proof.
  destruct resp as [ok status statusText body|message]; [|done]. cbn.
  destruct ok; [|done]. cbn. destruct (String.eqb body EmptyString) eqn:Hbody; [done|].
  intros [= <-]. by apply String.eqb_neq.
Qed.

Lemma step_settled_shape e c :
  Forall settled_shape (requests c) -> Forall settled_shape (requests (step e c)).
Proof.
  intros Hall. destruct e as [u now|p resp now|p|cid now|now|]; cbn.
  - assert (forall k c0, requests c0 = requests c ->
              Forall settled_shape (requests (startRequest u k now c0))) as Hstart.
    { intros k c0 Hc0. cbn. rewrite Hc0. apply Forall_app. split; [done|].
      by repeat constructor. }
    unfold fetch_call. destruct (decide (u = EmptyString)); [done|].
    destruct (activeRequests c !! getCacheKey u); [done|].
    destruct (cache c !! getCacheKey u); [|by apply Hstart].
    destruct caching_enabled; [|by apply Hstart].
    destruct (_ <? _); [done|]. by apply Hstart.
  - unfold transport_reply. destruct (requests c !! p) as [r|] eqn:Hr; [|done].
    destruct (r_phase r) eqn:Hph; try done.
    destruct (attempt_result resp) as [text|errorMessage] eqn:Hres.
    + cbn. apply Forall_insert; [done|]. unfold settled_shape. cbn.
      by eapply attempt_result_inl.
    + destruct (isRetryable errorMessage && _); cbn; (apply Forall_insert; [done|]).
      * done.
      * unfold settled_shape. cbn. by eexists.
  - unfold wake. destruct (requests c !! p) as [r|] eqn:Hr; [|done].
    destruct (r_phase r) eqn:Hph; try done.
    cbn. by apply Forall_insert.
  - unfold resume. destruct (calls c !! cid) as [cl|]; [|done].
    destruct (c_result cl); [done|].
    destruct (c_role cl) as [| |p0|p0]; try done;
      by destruct (requests c !! p0 ≫= settled).
  - done.
  - done.
Qed.

Lemma step_call_shape e c :
  let shape cl :=
    match c_role cl with
    | Invalid => c_url cl = EmptyString ∧
                 c_result cl = Some (Rejected "Invalid URL provided")
    | CacheHit => exists payload, c_result cl = Some (Fulfilled payload)
    | _ => True
    end in
  Forall shape (calls c) -> Forall shape (calls (step e c)).
Proof.
  intros shape Hall. destruct e as [u now|p resp now|p|cid now|now|]; cbn.
  - assert (forall cl stats, shape cl -> Forall shape (calls (push_call cl stats c))) as Hpush.
    { intros cl stats Hcl. cbn. apply Forall_app. split; [done|]. by constructor. }
    assert (forall k c0, calls c0 = calls c ->
              Forall shape (calls (startRequest u k now c0))) as Hstart.
    { intros k c0 Hc0. cbn. rewrite Hc0. apply Forall_app. split; [done|].
      by repeat constructor. }
    unfold fetch_call. destruct (decide (u = EmptyString)); [by apply Hpush|].
    destruct (activeRequests c !! getCacheKey u); [by apply Hpush|].
    destruct (cache c !! getCacheKey u); [|by apply Hstart].
    destruct caching_enabled; [|by apply Hstart].
    destruct (_ <? _); [|by apply Hstart]. apply Hpush. unfold shape. cbn. by eexists.
  - unfold transport_reply. destruct (requests c !! p) as [r|]; [|done].
    destruct (r_phase r); try done.
    destruct (attempt_result resp) as [text|errorMessage]; [done|].
    by destruct (isRetryable errorMessage && _).
  - unfold wake. destruct (requests c !! p) as [r|]; [|done]. by destruct (r_phase r).
  - unfold resume. destruct (calls c !! cid) as [cl|]; [|done].
    destruct (c_result cl); [done|].
    destruct (c_role cl) as [| |p0|p0] eqn:Hrole; try done;
      (destruct (requests c !! p0 ≫= settled); [|done]);
      cbn; (apply Forall_insert; [done|]); unfold shape; cbn; by rewrite Hrole.
  - done.
  - done.
Qed.

(** X22.  What [fetch] can return.  A call refused for its URL throws
    [Invalid URL provided]; a call served from the cache never throws; and
    a call that went to the network, or waited for one that did, returns a
    payload that is not the empty string, or throws the message of
    [performRequest], [Network error fetching <url>: ...], with the URL of
    the request it awaited. *)
Theorem fetch_results now0 files events cid cl o :
  let c := run events (new caching_ttl now0 files) in
  calls c !! cid = Some cl ->
  c_result cl = Some o ->
  match c_role cl with
  | Invalid => o = Rejected "Invalid URL provided"
  | CacheHit => exists payload, o = Fulfilled payload
  | Owner p | Deduplicated p =>
      exists r, requests c !! p = Some r ∧
        match o with
        | Fulfilled payload => payload ≠ EmptyString
        | Rejected message =>
            exists errorMessage,
              message = String.append "Network error fetching "
                          (String.append (r_url r) (String.append ": " errorMessage))
        end
  end.
Proof.
  intros c Hcl Hres.
  assert (forall p, attached cl p ->
            exists r, requests c !! p = Some r ∧
              match o with
              | Fulfilled payload => payload ≠ EmptyString
              | Rejected message =>
                  exists errorMessage,
                    message = String.append "Network error fetching "
                                (String.append (r_url r) (String.append ": " errorMessage))
              end) as Hatt.
  { intros p Hp.
    pose proof (invariant_run getCacheKey caching_enabled caching_ttl events _
                  (invariant_new getCacheKey caching_ttl now0 files)) as Hinv.
    pose proof (inv_returned _ _ Hinv cid cl p o Hcl Hp Hres) as Hset.
    fold c in Hset. destruct (requests c !! p) as [r|] eqn:Hr; [|done].
    exists r. split; [done|].
    assert (Forall settled_shape (requests c)) as Hshape.
    { apply run_ind_from; [apply step_settled_shape|]. constructor. }
    pose proof (proj1 (Forall_lookup _ _) Hshape p r Hr) as Hs.
    cbn in Hset. unfold settled in Hset. unfold settled_shape in Hs.
    destruct (r_phase r); try done. by injection Hset as ->. }
  pose proof (run_ind_from _ events (fun e c => step_call_shape e c)
                (new caching_ttl now0 files) (Forall_nil_2 _)) as Hcalls.
  pose proof (proj1 (Forall_lookup _ _) Hcalls cid cl Hcl) as Hs. cbn beta in Hs.
  destruct (c_role cl) as [| |p|p] eqn:Hrole.
  - destruct Hs as [_ Hs]. congruence.
  - destruct Hs as [payload Hs]. exists payload. congruence.
  - apply Hatt. by left.
  - apply Hatt. by right.
Qed.

Lemma updateRequestStats_ok u responseTime fromCache error stats :
  fromCache && error = false ->
  map_Forall (fun _ => stat_ok) stats ->
  map_Forall (fun _ => stat_ok) (updateRequestStats u responseTime fromCache error stats).
Proof.
  intros Hfe Hall. unfold updateRequestStats.
  destruct (stats !! u) as [existing|] eqn:Hu.
  - apply map_Forall_insert_2; [|done].
    pose proof (Hall u existing Hu) as (? & ? & ? & ?).
    unfold stat_ok. cbn. destruct fromCache, error; try done; lia.
  - apply map_Forall_insert_2; [|done].
    unfold stat_ok. cbn. destruct fromCache, error; try done; lia.
Qed.

Lemma step_stats_ok e c :
  map_Forall (fun _ => stat_ok) (requestStats c) ->
  map_Forall (fun _ => stat_ok) (requestStats (step e c)).
Proof.
  intros Hall. destruct e as [u now|p resp now|p|cid now|now|]; cbn.
  - unfold fetch_call. destruct (decide (u = EmptyString)); [done|].
    destruct (activeRequests c !! getCacheKey u); [done|].
    destruct (cache c !! getCacheKey u); [|done].
    destruct caching_enabled; [|done].
    destruct (_ <? _); [|done]. cbn. by apply updateRequestStats_ok.
  - unfold transport_reply. destruct (requests c !! p) as [r|]; [|done].
    destruct (r_phase r); try done.
    destruct (attempt_result resp) as [text|errorMessage].
    + cbn. by apply updateRequestStats_ok.
    + destruct (isRetryable errorMessage && _); [done|].
      cbn. by apply updateRequestStats_ok.
  - unfold wake. destruct (requests c !! p) as [r|]; [|done]. by destruct (r_phase r).
  - unfold resume. destruct (calls c !! cid) as [cl|]; [|done].
    destruct (c_result cl); [done|].
    destruct (c_role cl) as [| |p0|p0]; try done;
      (destruct (requests c !! p0 ≫= settled) as [o|]; [|done]); [done|].
    cbn. destruct o; [|done]. by apply updateRequestStats_ok.
  - done.
  - done.
Qed.

Lemma totals_ok (l : list RequestStats) :
  Forall stat_ok l ->
  0 <= foldr (fun stat sum => sum + cacheHits stat) 0 l
    <= foldr (fun stat sum => sum + requestCount stat) 0 l.
Proof.
  induction 1 as [|stat l (? & ? & ? & ?) _ IH]; cbn; lia.
Qed.

(** X23.  The hit rate that [getCacheStats] reports is a ratio between 0
    and 1 in every state: the counters of a URL never count more cache
    hits than requests, because no update counts one request both as a hit
    and as an error. *)
Theorem hitRate_is_a_ratio now0 files events :
  let c := run events (new caching_ttl now0 files) in
  map_Forall (fun _ => stat_ok) (requestStats c) ∧
  (0 <= hitRate c <= 1)%Q.
Proof.
  intros c.
  assert (map_Forall (fun _ => stat_ok) (requestStats c)) as Hall.
  { apply run_ind_from; [apply step_stats_ok|]. cbn. apply map_Forall_empty. }
  split; [done|].
  assert (Forall stat_ok (map_to_list (requestStats c)).*2) as Hl.
  { apply Forall_fmap. apply map_Forall_to_list in Hall.
    eapply Forall_impl; [exact Hall|]. by intros [k v]. }
  apply totals_ok in Hl. unfold hitRate, totalCacheHits, totalRequests.
  generalize dependent (foldr (fun stat sum => sum + cacheHits stat) 0
                          (map_to_list (requestStats c)).*2).
  generalize (foldr (fun stat sum => sum + requestCount stat) 0
                (map_to_list (requestStats c)).*2).
  intros total hits Hl.
  destruct (0 <? total) eqn:Hpos; [|done].
  apply Z.ltb_lt in Hpos. destruct total as [|total|total]; try lia.
  unfold Qle, Qdiv, Qmult, Qinv, inject_Z. cbn. lia.
Qed.

(** X24.  The hourly sweep is invisible to callers.  A sweep deletes only
    entries that [fetch] would refuse from then on, so a [fetch] that
    follows it starts the same request or returns the same cached payload,
    and updates the same counters, as if no sweep had run. *)
Theorem cleanupCache_invisible_to_fetch u swept now c :
  swept <= now ->
  let a := fetch_call getCacheKey caching_enabled caching_ttl u now (cleanupCache caching_ttl swept c) in
  let b := fetch_call getCacheKey caching_enabled caching_ttl u now c in
  calls a = calls b ∧ requests a = requests b ∧ transport a = transport b ∧
  activeRequests a = activeRequests b ∧ requestStats a = requestStats b.
Proof.
  intros Hle a b. subst a b.
  assert (cache (cleanupCache caching_ttl swept c) !! getCacheKey u
          = match cache c !! getCacheKey u with
            | Some cachedEntry =>
                if is_expired caching_ttl swept (Some cachedEntry) then None
                else Some cachedEntry
            | None => None
            end) as Hlook.
  { cbn [cache cleanupCache].
    destruct (cache c !! getCacheKey u) as [cachedEntry|] eqn:Hc.
    - destruct (is_expired caching_ttl swept (Some cachedEntry)) eqn:Hexp.
      + apply map_lookup_filter_None. right. intros x Hx. cbn in *. congruence.
      + by apply map_lookup_filter_Some_2.
    - apply map_lookup_filter_None. by left. }
  unfold fetch_call. destruct (decide (u = EmptyString)); [done|].
  change (activeRequests (cleanupCache caching_ttl swept c)) with (activeRequests c).
  destruct (activeRequests c !! getCacheKey u); [done|].
  rewrite Hlook. clear Hlook.
  destruct (cache c !! getCacheKey u) as [cachedEntry|]; [|done].
  destruct (is_expired caching_ttl swept (Some cachedEntry)) eqn:Hexp.
  - destruct caching_enabled; [|done].
    assert ((now - timestamp cachedEntry <? caching_ttl) = false) as ->; [|done].
    cbn in Hexp. apply Z.ltb_lt in Hexp. apply Z.ltb_ge. lia.
  - destruct caching_enabled; [|done]. by destruct (_ <? _).
Qed.

End ClientMore.

Lemma registrations_have_owners_witness :
  let c := CachedHttpClient.run (fun u => u) true 86400000 CachedHttpClient.retried_run
             (CachedHttpClient.new 86400000 0 ∅) in
  CachedHttpClient.activeRequests c = ∅.
Proof.
  apply (proj2 (registrations_have_owners (fun u => u) true 86400000 0 ∅
                  CachedHttpClient.retried_run)).
  vm_compute. repeat (constructor; [eexists; reflexivity|]). constructor.
Defined.

Lemma request_settles_within_three_replies_witness :
  let c := CachedHttpClient.run (fun u => u) true 86400000
             (take 1 CachedHttpClient.retried_run) (CachedHttpClient.new 86400000 0 ∅) in
  let refused := CachedHttpClient.NetworkError "connect ECONNREFUSED 93.184.216.34:443" in
  is_Some (CachedHttpClient.requests
             (CachedHttpClient.run (fun u => u) true 86400000
                (CachedHttpClient.three_replies 0 refused refused refused 100 1200 3300) c)
             !! 0%nat ≫= CachedHttpClient.settled).
Proof.
  apply (request_settles_within_three_replies (fun u => u) true 86400000 0 ∅
           (take 1 CachedHttpClient.retried_run) 0%nat
           {| CachedHttpClient.r_url := CachedHttpClient.guide;
              CachedHttpClient.r_key := CachedHttpClient.guide;
              CachedHttpClient.r_start := 0; CachedHttpClient.r_attempt := 1;
              CachedHttpClient.r_phase := CachedHttpClient.AwaitingTransport |}).
  - vm_compute. reflexivity.
  - reflexivity.
Defined.

Lemma fetch_results_witness :
  let c := CachedHttpClient.run (fun u => u) true 86400000 CachedHttpClient.retried_run
             (CachedHttpClient.new 86400000 0 ∅) in
  exists r, CachedHttpClient.requests c !! 0%nat = Some r ∧ "# Style guide" ≠ EmptyString.
Proof.
  apply (fetch_results (fun u => u) true 86400000 0 ∅ CachedHttpClient.retried_run 1%nat
           {| CachedHttpClient.c_url := CachedHttpClient.guide;
              CachedHttpClient.c_start := 1;
              CachedHttpClient.c_role := CachedHttpClient.Deduplicated 0;
              CachedHttpClient.c_result :=
                Some (CachedHttpClient.Fulfilled "# Style guide") |}
           (CachedHttpClient.Fulfilled "# Style guide")).
  - vm_compute. reflexivity.
  - reflexivity.
Defined.

Lemma cleanupCache_invisible_to_fetch_witness :
  let a := CachedHttpClient.fetch_call (fun u => u) true 1000 CachedHttpClient.guide 2000
             (CachedHttpClient.cleanupCache 1000 1500 CachedHttpClient.cached_guide) in
  let b := CachedHttpClient.fetch_call (fun u => u) true 1000 CachedHttpClient.guide 2000
             CachedHttpClient.cached_guide in
  CachedHttpClient.calls a = CachedHttpClient.calls b ∧
  CachedHttpClient.requests a = CachedHttpClient.requests b ∧
  CachedHttpClient.transport a = CachedHttpClient.transport b ∧
  CachedHttpClient.activeRequests a = CachedHttpClient.activeRequests b ∧
  CachedHttpClient.requestStats a = CachedHttpClient.requestStats b.
Proof.
  apply (cleanupCache_invisible_to_fetch (fun u => u) true 1000 CachedHttpClient.guide
           1500 2000 CachedHttpClient.cached_guide).
  lia.
Defined.

(** ** Deduplication of concurrent fetches *)

Section ClientDedup.
Import CachedHttpClient.
Variable getCacheKey : string -> string.
Variable caching_enabled : bool.
Variable caching_ttl : Z.

Local Abbreviation step := (step getCacheKey caching_enabled caching_ttl).
Local Abbreviation run := (run getCacheKey caching_enabled caching_ttl).
Local Abbreviation fetch_call := (fetch_call getCacheKey caching_enabled caching_ttl).

(** A step issues at most one transport request: the first of a request
    that the step creates, or the next of a request that was asleep. *)
Lemma step_transport e c :
  transport (step e c) = transport c ∨
  exists p u, transport (step e c) = transport c ++ [(p, u)] ∧
    ((requests c !! p = None ∧ exists now, e = Call u now) ∨
     (e = Wake p ∧
      exists r d, requests c !! p = Some r ∧ r_phase r = Sleeping d ∧ r_url r = u)).
Proof.
  destruct e as [u now|p resp now|p|cid now|now|]; cbn.
  - assert (forall c0, requests c0 = requests c -> transport c0 = transport c ->
              exists p u', transport (startRequest u (getCacheKey u) now c0)
                            = transport c ++ [(p, u')] ∧
                ((requests c !! p = None ∧ exists now', Call u now = Call u' now') ∨
                 (Call u now = Wake p ∧
                  exists r d, requests c !! p = Some r ∧ r_phase r = Sleeping d ∧
                    r_url r = u'))) as Hstart.
    { intros c0 Hr Ht. exists (length (requests c)), u. cbn. rewrite Hr, Ht.
      split; [done|]. left. split; [by apply lookup_ge_None|by exists now]. }
    unfold CachedHttpClient.fetch_call. destruct (decide (u = EmptyString)); [by left|].
    destruct (activeRequests c !! getCacheKey u); [by left|].
    destruct (cache c !! getCacheKey u); [|right; by apply Hstart].
    destruct caching_enabled; [|right; by apply Hstart].
    destruct (_ <? _); [by left|]. right. by apply Hstart.
  - left. unfold transport_reply. destruct (requests c !! p) as [r|]; [|done].
    destruct (r_phase r); try done.
    destruct (attempt_result resp) as [text|errorMessage]; [done|].
    by destruct (isRetryable errorMessage && _).
  - unfold wake. destruct (requests c !! p) as [r|] eqn:Hr; [|by left].
    destruct (r_phase r) as [|d|o] eqn:Hph; try by left.
    right. exists p, (r_url r). split; [done|]. right. split; [done|]. by exists r, d.
  - left. unfold resume. destruct (calls c !! cid) as [cl|]; [|done].
    destruct (c_result cl); [done|].
    destruct (c_role cl) as [| |p0|p0]; try done; by destruct (requests c !! p0 ≫= settled).
  - by left.
  - by left.
Qed.

(** A request goes to sleep only when the transport request it was
    waiting for fails with a retryable error before the last attempt. *)
Lemma step_sleeping e c p r' d :
  requests (step e c) !! p = Some r' -> r_phase r' = Sleeping d ->
  requests c !! p = Some r' ∨
  exists r resp now errorMessage,
    e = Reply p resp now ∧ requests c !! p = Some r ∧ r_phase r = AwaitingTransport ∧
    attempt_result resp = inr errorMessage ∧ isRetryable errorMessage = true ∧
    r_attempt r < maxRetries retryOptions ∧
    r' = with_phase (Sleeping (retry_delay (r_attempt r))) r.
Proof.
  destruct e as [u now|q resp now|q|cid now|now|]; cbn.
  - assert (forall c0, requests c0 = requests c ->
              requests (startRequest u (getCacheKey u) now c0) !! p = Some r' ->
              r_phase r' = Sleeping d -> requests c !! p = Some r') as Hstart.
    { intros c0 Hr. cbn. rewrite Hr. intros Hlook Hph.
      apply lookup_app_Some in Hlook as [Hlook|[_ Hlook]]; [done|].
      apply list_lookup_singleton_Some in Hlook as [_ <-]. done. }
    unfold CachedHttpClient.fetch_call. destruct (decide (u = EmptyString)); [by left|].
    destruct (activeRequests c !! getCacheKey u); [by left|].
    destruct (cache c !! getCacheKey u); [|left; by eapply Hstart].
    destruct caching_enabled; [|left; by eapply Hstart].
    destruct (_ <? _); [by left|]. left. by eapply (Hstart (removeExpired _ c)).
  - unfold transport_reply. destruct (requests c !! q) as [r|] eqn:Hr; [|by left].
    destruct (r_phase r) eqn:Hph; try by left.
    assert (q < length (requests c))%nat by (by eapply lookup_lt_Some).
    destruct (attempt_result resp) as [text|errorMessage] eqn:Hres.
    + cbn. destruct (decide (p = q)) as [->|Hne].
      * rewrite list_lookup_insert_eq by done. by intros [= <-].
      * rewrite list_lookup_insert_ne by done. by left.
    + destruct (isRetryable errorMessage) eqn:Hretry; cbn [andb].
      * destruct (r_attempt r <? maxRetries retryOptions) eqn:Hlt; cbn.
        -- destruct (decide (p = q)) as [->|Hne].
           ++ rewrite list_lookup_insert_eq by done. intros [= <-] _. right.
              exists r, resp, now, errorMessage.
              repeat split; try done. by apply Z.ltb_lt.
           ++ rewrite list_lookup_insert_ne by done. by left.
        -- destruct (decide (p = q)) as [->|Hne].
           ++ rewrite list_lookup_insert_eq by done. by intros [= <-].
           ++ rewrite list_lookup_insert_ne by done. by left.
      * cbn. destruct (decide (p = q)) as [->|Hne].
        -- rewrite list_lookup_insert_eq by done. by intros [= <-].
        -- rewrite list_lookup_insert_ne by done. by left.
  - unfold wake. destruct (requests c !! q) as [r|] eqn:Hr; [|by left].
    destruct (r_phase r) eqn:Hph; try by left.
    assert (q < length (requests c))%nat by (by eapply lookup_lt_Some).
    cbn. destruct (decide (p = q)) as [->|Hne].
    + rewrite list_lookup_insert_eq by done. by intros [= <-].
    + rewrite list_lookup_insert_ne by done. by left.
  - assert (requests (resume getCacheKey cid now c) = requests c) as ->; [|by left].
    unfold resume. destruct (calls c !! cid) as [cl|]; [|done].
    destruct (c_result cl); [done|].
    destruct (c_role cl) as [| |p0|p0]; try done; by destruct (requests c !! p0 ≫= settled).
  - by left.
  - by left.
Qed.

(** A request that waits for the transport stays as it is until the
    transport answers it. *)
Lemma step_awaiting e c p r :
  requests c !! p = Some r -> r_phase r = AwaitingTransport ->
  requests (step e c) !! p = Some r ∨ exists resp now, e = Reply p resp now.
Proof.
  intros Hr Hph. assert (p < length (requests c))%nat by (by eapply lookup_lt_Some).
  destruct e as [u now|q resp now|q|cid now|now|]; cbn.
  - left.
    assert (forall c0, requests c0 = requests c ->
              requests (startRequest u (getCacheKey u) now c0) !! p = Some r) as Hstart.
    { intros c0 Hc0. cbn. rewrite Hc0. by rewrite lookup_app_l. }
    unfold CachedHttpClient.fetch_call. destruct (decide (u = EmptyString)); [done|].
    destruct (activeRequests c !! getCacheKey u); [done|].
    destruct (cache c !! getCacheKey u); [|by apply Hstart].
    destruct caching_enabled; [|by apply Hstart].
    destruct (_ <? _); [done|]. by apply Hstart.
  - destruct (decide (q = p)) as [->|Hne]; [right; by exists resp, now|]. left.
    unfold transport_reply. destruct (requests c !! q) as [r0|] eqn:Hr0; [|done].
    destruct (r_phase r0); try done.
    destruct (attempt_result resp) as [text|errorMessage]; cbn.
    + by rewrite list_lookup_insert_ne.
    + destruct (isRetryable errorMessage && _); cbn; by rewrite list_lookup_insert_ne.
  - left. unfold wake. destruct (requests c !! q) as [r0|] eqn:Hr0; [|done].
    destruct (r_phase r0) eqn:Hph0; try done.
    assert (q ≠ p) by (intros ->; congruence).
    cbn. by rewrite list_lookup_insert_ne.
  - left. unfold resume. destruct (calls c !! cid) as [cl|]; [|done].
    destruct (c_result cl); [done|].
    destruct (c_role cl) as [| |p0|p0]; try done; by destruct (requests c !! p0 ≫= settled).
  - by left.
  - by left.
Qed.

Lemma attempts_made_other p q u (t : list (nat * string)) :
  q ≠ p ->
  length (filter (fun x : nat * string => x.1 = p) (t ++ [(q, u)]))
  = length (filter (fun x : nat * string => x.1 = p) t).
Proof.
  intros Hne. rewrite filter_app, length_app.
  rewrite (filter_cons_False _ (q, u)) by done. cbn. lia.
Qed.

(** A request that has settled issues no further transport request. *)
Lemma attempts_made_settled events' : forall c p o,
  requests c !! p ≫= settled = Some o ->
  attempts_made p (run events' c) = attempts_made p c.
Proof.
  induction events' as [|e events' IH]; intros c p o Hset; [done|].
  change (run (e :: events') c) with (run events' (step e c)).
  rewrite (IH _ p o) by (by apply settled_stays).
  unfold attempts_made.
  destruct (step_transport e c) as [->|(q & u & -> & Hwhy)]; [done|].
  apply (attempts_made_other p q u). intros ->.
  destruct (requests c !! p) as [r|] eqn:Hr; [|done]. cbn in Hset.
  destruct Hwhy as [[Hnone _]|(_ & r0 & d & Hr0 & Hph & _)]; [done|].
  injection Hr0 as <-. unfold settled in Hset. by rewrite Hph in Hset.
Qed.

(** C1, as the code has it.  In every state the event loop reaches:
    an activation of [performRequest] that has not settled is the one
    registered under its cache key, so at most one is in flight per key
    and per URL; a [fetch] of a URL made while the first call for that URL
    has not returned attaches to the request of that call and starts
    neither a request nor a transport request of its own; all calls
    attached to one request that have returned have returned its outcome,
    the same payload or the same error, and a suspended one returns it
    when resumed; the transport requests of one activation number between
    1 and [maxRetries = 3], one for each attempt of [fetchWithRetry], and
    all go to its URL; they are issued one at a time: a step issues at
    most one, the first when the activation starts and each further one
    when the activation wakes from the sleep that only a retryable failure
    of the previous one, before the last attempt, sends it to, and while
    one is awaited nothing but its answer changes the activation; and an
    answer that is a payload, a failure that is not retryable or the
    failure of the last attempt settles the request, after which it issues
    no transport request, ever: exactly one in all when the first attempt
    is answered so. *)
Theorem fetch_deduplicates now0 files events :
  let c := run events (new caching_ttl now0 files) in
  (forall p r, requests c !! p = Some r -> settled r = None ->
     activeRequests c !! r_key r = Some p) ∧
  (forall p1 p2 r1 r2,
     requests c !! p1 = Some r1 -> requests c !! p2 = Some r2 ->
     settled r1 = None -> settled r2 = None ->
     r_key r1 = r_key r2 ∨ r_url r1 = r_url r2 -> p1 = p2) ∧
  (forall u now cid cl p,
     u ≠ EmptyString -> calls c !! cid = Some cl -> c_role cl = Owner p ->
     c_result cl = None -> c_url cl = u ->
     let c' := fetch_call u now c in
     requests c' = requests c ∧ transport c' = transport c ∧
     activeRequests c' = activeRequests c ∧
     calls c' = calls c ++
       [{| c_url := u; c_start := now; c_role := Deduplicated p; c_result := None |}]) ∧
  (forall cid1 cid2 cl1 cl2 p o1 o2,
     calls c !! cid1 = Some cl1 -> calls c !! cid2 = Some cl2 ->
     attached cl1 p -> attached cl2 p ->
     c_result cl1 = Some o1 -> c_result cl2 = Some o2 ->
     o1 = o2 ∧ requests c !! p ≫= settled = Some o1) ∧
  (forall cid cl p o now,
     calls c !! cid = Some cl -> attached cl p -> c_result cl = None ->
     requests c !! p ≫= settled = Some o ->
     calls (resume getCacheKey cid now c) !! cid = Some (with_result o cl)) ∧
  (forall p r, requests c !! p = Some r ->
     Z.of_nat (attempts_made p c) = r_attempt r ∧
     1 <= r_attempt r <= 3 ∧
     (forall u, (p, u) ∈ transport c -> u = r_url r)) ∧
  (forall e,
     transport (step e c) = transport c ∨
     exists p u, transport (step e c) = transport c ++ [(p, u)] ∧
       ((requests c !! p = None ∧ exists now, e = Call u now) ∨
        (e = Wake p ∧
         exists r d, requests c !! p = Some r ∧ r_phase r = Sleeping d ∧ r_url r = u))) ∧
  (forall e p r' d,
     requests (step e c) !! p = Some r' -> r_phase r' = Sleeping d ->
     requests c !! p = Some r' ∨
     exists r resp now errorMessage,
       e = Reply p resp now ∧ requests c !! p = Some r ∧
       r_phase r = AwaitingTransport ∧
       attempt_result resp = inr errorMessage ∧ isRetryable errorMessage = true ∧
       r_attempt r < 3) ∧
  (forall e p r,
     requests c !! p = Some r -> r_phase r = AwaitingTransport ->
     requests (step e c) !! p = Some r ∨ exists resp now, e = Reply p resp now) ∧
  (forall p r resp now,
     requests c !! p = Some r -> r_phase r = AwaitingTransport ->
     (forall errorMessage,
        attempt_result resp = inr errorMessage ->
        isRetryable errorMessage = false ∨ r_attempt r = 3) ->
     let c' := step (Reply p resp now) c in
     transport c' = transport c ∧
     is_Some (requests c' !! p ≫= settled) ∧
     (forall later, Z.of_nat (attempts_made p (run later c')) = r_attempt r)).
Proof.
  intros c.
  assert (invariant getCacheKey c) as Hinv by apply invariant_run, invariant_new.
  destruct Hinv.
  assert (forall p1 p2 r1 r2,
     requests c !! p1 = Some r1 -> requests c !! p2 = Some r2 ->
     settled r1 = None -> settled r2 = None ->
     r_key r1 = r_key r2 ∨ r_url r1 = r_url r2 -> p1 = p2) as Hone.
  { intros p1 p2 r1 r2 H1 H2 Hp1 Hp2 Hsame.
    assert (r_key r1 = r_key r2) as Hk.
    { destruct Hsame as [|Hu]; [done|].
      rewrite (inv_key0 _ _ H1), (inv_key0 _ _ H2). by rewrite Hu. }
    pose proof (inv_pending_active0 _ _ H1 Hp1) as Ha1.
    pose proof (inv_pending_active0 _ _ H2 Hp2) as Ha2.
    rewrite Hk in Ha1. congruence. }
  split; [done|]. split; [exact Hone|].
  split; [|split; [|split; [|split; [|split; [|split; [|split]]]]]].
  - intros u now cid cl p Hu Hcl Hrole Hnone Hurl c'. subst c'.
    unfold CachedHttpClient.fetch_call. rewrite decide_False by done.
    pose proof (inv_owner_active0 _ _ _ Hcl Hrole Hnone) as Hact.
    rewrite Hurl in Hact. rewrite Hact. done.
  - intros cid1 cid2 cl1 cl2 p o1 o2 H1 H2 Ha1 Ha2 Hr1 Hr2.
    pose proof (inv_returned0 _ _ _ _ H1 Ha1 Hr1) as Hs1.
    pose proof (inv_returned0 _ _ _ _ H2 Ha2 Hr2) as Hs2.
    split; [congruence|done].
  - intros cid cl p o now Hcl Hatt Hnone Hset.
    assert (cid < length (calls c))%nat by (by eapply lookup_lt_Some).
    unfold resume. rewrite Hcl, Hnone.
    destruct Hatt as [-> | ->]; rewrite Hset; cbn; by rewrite list_lookup_insert_eq.
  - intros p r Hr. destruct (inv_attempts0 _ _ Hr) as (Hcount & Hb & _).
    split; [done|]. split; [done|].
    intros u Hin. destruct (inv_transport0 _ _ Hin) as (r' & Hr' & Hu). congruence.
  - intros e. apply step_transport.
  - intros e p r' d Hr' Hph.
    destruct (step_sleeping e c p r' d Hr' Hph)
      as [?|(r & resp & now & msg & ? & ? & ? & ? & ? & ? & ?)]; [by left|].
    right. by exists r, resp, now, msg.
  - intros e p r. apply step_awaiting.
  - intros p r resp now Hr Hph Hperm c'. subst c'.
    assert (p < length (requests c))%nat by (by eapply lookup_lt_Some).
    destruct (inv_attempts0 _ _ Hr) as (Hcount & _ & _).
    assert (transport (step (Reply p resp now) c) = transport c ∧
            is_Some (requests (step (Reply p resp now) c) !! p ≫= settled))
      as [Htr [o Hset]].
    { cbn. unfold transport_reply. rewrite Hr, Hph.
      destruct (attempt_result resp) as [text|errorMessage].
      - cbn. rewrite list_lookup_insert_eq by done. cbn. eauto.
      - assert (isRetryable errorMessage && (r_attempt r <? maxRetries retryOptions)
                = false) as ->.
        { destruct (Hperm errorMessage eq_refl) as [-> | ->]; [done|].
          by rewrite andb_false_r. }
        cbn. rewrite list_lookup_insert_eq by done. cbn. eauto. }
    split; [done|]. split; [by exists o|].
    intros later. rewrite (attempts_made_settled later _ p o Hset).
    unfold attempts_made. rewrite Htr. exact Hcount.
Qed.

End ClientDedup.

Lemma fetch_deduplicates_witness :
  let c := CachedHttpClient.run (fun u => u) true 86400000
             (take 5 CachedHttpClient.retried_run) (CachedHttpClient.new 86400000 0 ∅) in
  let c' := CachedHttpClient.fetch_call (fun u => u) true 86400000
              CachedHttpClient.guide 31500 c in
  CachedHttpClient.requests c' = CachedHttpClient.requests c ∧
  CachedHttpClient.transport c' = CachedHttpClient.transport c ∧
  CachedHttpClient.activeRequests c' = CachedHttpClient.activeRequests c ∧
  CachedHttpClient.calls c' = CachedHttpClient.calls c ++
    [{| CachedHttpClient.c_url := CachedHttpClient.guide; CachedHttpClient.c_start := 31500;
        CachedHttpClient.c_role := CachedHttpClient.Deduplicated 0;
        CachedHttpClient.c_result := None |}].
Proof.
  apply (proj1 (proj2 (proj2 (fetch_deduplicates (fun u => u) true 86400000 0 ∅
                                (take 5 CachedHttpClient.retried_run))))
           CachedHttpClient.guide 31500 0%nat
           {| CachedHttpClient.c_url := CachedHttpClient.guide;
              CachedHttpClient.c_start := 0;
              CachedHttpClient.c_role := CachedHttpClient.Owner 0;
              CachedHttpClient.c_result := None |} 0%nat).
  - done.
  - vm_compute. reflexivity.
  - reflexivity.
  - reflexivity.
  - reflexivity.
Defined.

(** ** fetchBatch and preloadCache *)

Section BatchMore.
Import CachedHttpClient FetchBatch.

(** X25.  [preloadCache] loads nothing.  Whatever happens after the
    start, every worker of its batch still awaits a race over no promise:
    no worker reaches its call of [fetch], the result map stays empty, and
    [preloadCache] returns only when it was given no URL at all. *)
Theorem preloadCache_fetches_nothing urls events :
  let b := FetchBatch.run events (preloadCache_start urls) in
  all_waiting b ∧
  results b = ∅ ∧
  (is_Some (preloadCache_result b) <-> urls = []).
Proof.
  intros b. subst b. unfold preloadCache_start.
  rewrite run_waiting by apply fetchBatch_start_waiting.
  split; [apply fetchBatch_start_waiting|]. split; [done|].
  unfold preloadCache_result. split.
  - intros Hsome. destruct urls as [|u urls]; [done|].
    rewrite waiting_result in Hsome; [by destruct Hsome| |done].
    apply fetchBatch_start_waiting.
  - intros ->. by eexists.
Qed.

End BatchMore.

(** ** HealthChecker *)

Section HealthCheckerMore.
Import HealthChecker.

Lemma existsb_has_status s checks :
  existsb (has_status s) checks = true <->
  exists check, check ∈ checks ∧ status check = s.
Proof.
  rewrite existsb_exists. split.
  - intros (check & Hin & Hs). exists check. split; [by apply list_elem_of_In|].
    unfold has_status in Hs. by destruct s, (status check).
  - intros (check & Hin & Hs). exists check. split; [by apply list_elem_of_In|].
    unfold has_status. rewrite Hs. by destruct s.
Qed.

Lemma existsb_has_status_false s checks :
  existsb (has_status s) checks = false ->
  forall check, check ∈ checks -> status check ≠ s.
Proof.
  intros Hnone check Hin Hs.
  assert (existsb (has_status s) checks = true) as Hsome
    by (apply existsb_has_status; by exists check).
  congruence.
Qed.

(** X26.  The overall status is the worst status among the reports: no
    report is worse than it, and it is the status of one of the reports
    unless it is [HEALTHY], which is also the answer over no report. *)
Theorem overall_status_is_worst checks :
  let overall := getOverallHealthStatus checks in
  Forall (fun check => (severity (status check) <= severity overall)%nat) checks ∧
  (overall = HEALTHY ∨ Exists (fun check => status check = overall) checks).
Proof.
  intros overall. subst overall. unfold getOverallHealthStatus.
  destruct (existsb (has_status CRITICAL) checks) eqn:Hc.
  { split.
    - apply Forall_forall. intros check _. destruct (status check); cbn; lia.
    - right. apply Exists_exists. by apply existsb_has_status. }
  pose proof (existsb_has_status_false _ _ Hc) as Hnc.
  destruct (existsb (has_status UNHEALTHY) checks) eqn:Hu.
  { split.
    - apply Forall_forall. intros check Hin. specialize (Hnc check Hin).
      destruct (status check); cbn; try lia. done.
    - right. apply Exists_exists. by apply existsb_has_status. }
  pose proof (existsb_has_status_false _ _ Hu) as Hnu.
  destruct (existsb (has_status DEGRADED) checks) eqn:Hd.
  { split.
    - apply Forall_forall. intros check Hin.
      specialize (Hnc check Hin). specialize (Hnu check Hin).
      destruct (status check); cbn; try lia; done.
    - right. apply Exists_exists. by apply existsb_has_status. }
  pose proof (existsb_has_status_false _ _ Hd) as Hnd.
  split; [|by left].
  apply Forall_forall. intros check Hin.
  specialize (Hnc check Hin). specialize (Hnu check Hin). specialize (Hnd check Hin).
  destruct (status check); cbn; try lia; done.
Qed.

Lemma checks_get_elem checks checkName run :
  NoDup checks.*1 -> (checkName, run) ∈ checks -> checks_get checks checkName = Some run.
Proof.
  unfold checks_get. induction checks as [|[k v] checks IH]; intros Hnd Hin.
  - by apply elem_of_nil in Hin.
  - cbn in Hnd. apply NoDup_cons in Hnd as [Hk Hnd].
    apply elem_of_cons in Hin as [[= <- <-]|Hin].
    + by rewrite filter_cons_True.
    + rewrite filter_cons_False; [by apply IH|].
      cbn. intros ->. apply Hk. apply list_elem_of_fmap. by exists (checkName, run).
Qed.

(** X27.  One failure is enough for the worst report.  With a check
    function that throws, or with the resources check over a resource
    manager that refuses work, [getHealthStatus] answers [CRITICAL],
    whatever the other checks report. *)
Theorem failure_or_refusal_is_critical checks checkName run :
  NoDup checks.*1 ->
  (checkName, run) ∈ checks ->
  match run with
  | Throws _ => True
  | Returns check =>
      exists rm elapsed, check = resourcesCheck rm elapsed ∧
        ResourceManager.checkResourceAvailability rm = false
  end ->
  fst (getHealthStatus checks) = CRITICAL.
Proof.
  intros Hnd Hin Hrun. cbn.
  assert (exists result, runHealthCheck checks checkName = inl result ∧
            status result = CRITICAL) as (result & Hres & Hs).
  { unfold runHealthCheck. rewrite (checks_get_elem _ _ _ Hnd Hin).
    destruct run as [check|errorMessage].
    - destruct Hrun as (rm & elapsed & -> & Href).
      eexists. split; [done|]. cbn. by rewrite getHealthStatus_refused.
    - by eexists. }
  unfold getOverallHealthStatus.
  assert (existsb (has_status CRITICAL) (runAllHealthChecks checks) = true) as ->; [|done].
  apply existsb_has_status. exists result. split; [|done].
  unfold runAllHealthChecks. apply list_elem_of_omap.
  exists (checkName, run). split; [done|]. cbn. by rewrite Hres.
Qed.

End HealthCheckerMore.

Lemma failure_or_refusal_is_critical_witness :
  fst (HealthChecker.getHealthStatus HealthChecker.saturated_checks)
    = HealthChecker.CRITICAL ∧
  fst (HealthChecker.getHealthStatus HealthChecker.failing_checks)
    = HealthChecker.CRITICAL.
Proof.
  split.
  - apply (failure_or_refusal_is_critical HealthChecker.saturated_checks "resources"
             (HealthChecker.Returns
                (HealthChecker.resourcesCheck ResourceManager.saturated 2))).
    + apply (bool_decide_unpack _). vm_compute. exact I.
    + apply list_elem_of_lookup. exists 1%nat. vm_compute. reflexivity.
    + exists ResourceManager.saturated, 2. split; [reflexivity|]. vm_compute. reflexivity.
  - apply (failure_or_refusal_is_critical HealthChecker.failing_checks "cache"
             (HealthChecker.Throws "connect ECONNREFUSED 127.0.0.1:6379")).
    + apply (bool_decide_unpack _). vm_compute. exact I.
    + apply list_elem_of_lookup. exists 1%nat. vm_compute. reflexivity.
    + exact I.
Defined.

(** ** MetricsCollector *)

Section MetricsCollectorMore.
Import MetricsCollector.

Lemma push_value_drop value (l : list Z) :
  push_value value (drop (length l - 1000) l)
  = drop (length (l ++ [value]) - 1000) (l ++ [value]).
Proof.
  unfold push_value. rewrite !length_app, length_drop. cbn [length].
  destruct (decide (length l < 1000)%nat) as [Hlt|Hge].
  - replace (length l - 1000)%nat with 0%nat by lia.
    replace (length l + 1 - 1000)%nat with 0%nat by lia. cbn [drop].
    replace (length l - 0 + 1)%nat with (length l + 1)%nat by lia.
    assert ((1000 <? length l + 1)%nat = false) as -> by (apply Nat.ltb_ge; lia).
    done.
  - assert ((1000 <? length l - (length l - 1000) + 1)%nat = true) as ->
      by (apply Nat.ltb_lt; lia).
    replace (length l - (length l - 1000) + 1 - 1000)%nat with 1%nat by lia.
    replace (length l + 1 - 1000)%nat with (length l - 1000 + 1)%nat by lia.
    rewrite <- drop_drop. rewrite (drop_app_le l [value]) by lia.
    rewrite (drop_app_le (drop _ l)); [done|]. rewrite length_drop. lia.
Qed.

Lemma record_all_snoc histogramName values value mc :
  record_all histogramName (values ++ [value]) mc
  = recordHistogram histogramName value (record_all histogramName values mc).
Proof. unfold record_all. by rewrite fold_left_app. Qed.

(** X28.  A histogram holds the last thousand values recorded under its
    name, oldest first, and never more; recording under one name leaves
    the histograms of the other names as they were. *)
Theorem recordHistogram_keeps_last_thousand histogramName values mc :
  let held := default [] (histograms mc !! histogramName) in
  let all := held ++ values in
  (length held <= 1000)%nat ->
  values ≠ [] ->
  let mc' := record_all histogramName values mc in
  histograms mc' !! histogramName = Some (drop (length all - 1000) all) ∧
  (length (drop (length all - 1000) all) <= 1000)%nat ∧
  (forall other, other ≠ histogramName ->
     histograms mc' !! other = histograms mc !! other).
Proof.
  intros held all Hheld Hne mc'. subst all mc'.
  split; [|split].
  - revert Hne.
    induction values as [|value values IH] using rev_ind; [done|]. intros _.
    rewrite record_all_snoc. cbn [recordHistogram histograms].
    rewrite lookup_insert_eq. f_equal.
    rewrite app_assoc. rewrite <- push_value_drop. f_equal.
    destruct (decide (values = [])) as [->|Hne'].
    + cbn. rewrite app_nil_r. fold held.
      replace (length held - 1000)%nat with 0%nat by lia. done.
    + by rewrite (IH Hne').
  - rewrite length_drop. lia.
  - intros other Hother. clear Hne.
    induction values as [|value values IH] using rev_ind; [done|].
    rewrite record_all_snoc. cbn [recordHistogram histograms].
    by rewrite lookup_insert_ne.
Qed.

Lemma first_segment_app s rest :
  first_segment (String.append s (String "_"%char rest)) = first_segment s.
Proof.
  induction s as [|a s IH]; [done|].
  change (first_segment (String a (String.append s (String "_"%char rest)))
          = first_segment (String a s)).
  cbn [first_segment]. destruct (Ascii.eqb a "_"%char); [done|]. by rewrite IH.
Qed.

(** X29.  A timer that is started and then ended returns the time between
    the two calls, is forgotten, and records that time in the histogram
    named by the part of the timer name before its first underscore,
    followed by [_duration]: the rest of the name is lost. *)
Theorem endTimer_records_under_first_segment timerName start suffix now mc :
  start ≠ 0 ->
  let started := startTimer timerName start suffix mc in
  let ended := endTimer (fst started) now (snd started) in
  fst ended = now - start ∧
  histograms (snd ended)
    = histograms (recordHistogram (String.append (first_segment timerName) "_duration")
                                  (now - start) mc) ∧
  timers (snd ended) = delete (fst started) (timers mc).
Proof.
  intros Hstart started ended. subst started ended.
  cbn [startTimer fst snd]. unfold endTimer. cbn [timers].
  rewrite lookup_insert_eq.
  assert ((start =? 0) = false) as -> by (by apply Z.eqb_neq).
  cbn [fst snd].
  assert (first_segment (timer_id timerName start suffix) = first_segment timerName) as ->
    by apply first_segment_app.
  split; [done|]. split; [done|].
  cbn. apply delete_insert_eq.
Qed.

End MetricsCollectorMore.

Lemma recordHistogram_keeps_last_thousand_witness :
  let values := (fun n : nat => Z.of_nat n) <$> seq 0 1003 in
  MetricsCollector.histograms
    (MetricsCollector.record_all "latency" values MetricsCollector.new) !! "latency"
  = Some (drop 3 values).
Proof.
  apply (proj1 (recordHistogram_keeps_last_thousand "latency"
                  ((fun n : nat => Z.of_nat n) <$> seq 0 1003) MetricsCollector.new
                  ltac:(vm_compute; lia) ltac:(discriminate))).
Defined.

Lemma endTimer_records_under_first_segment_witness :
  let started := MetricsCollector.startTimer "http_request" 1000 "k3j9x0q2a"
                   MetricsCollector.new in
  let ended := MetricsCollector.endTimer (fst started) 1250 (snd started) in
  fst ended = 250 ∧
  MetricsCollector.histograms (snd ended)
    = MetricsCollector.histograms
        (MetricsCollector.recordHistogram "http_duration" 250 MetricsCollector.new) ∧
  MetricsCollector.timers (snd ended)
    = delete (fst started) (MetricsCollector.timers MetricsCollector.new).
Proof.
  apply (endTimer_records_under_first_segment "http_request" 1000 "k3j9x0q2a" 1250
           MetricsCollector.new).
  lia.
Defined.

(** ** Alert rules *)

Section AlertRulesMore.
Import AlertRules.
Context {SystemMetrics : Type}.

Local Abbreviation rule_t := (AlertRule (SystemMetrics:=SystemMetrics)).

Lemma check_rule_cooldown now metrics (rule : rule_t) :
  cooldown (fst (check_rule now metrics rule)) = cooldown rule.
Proof.
  unfold check_rule.
  destruct (match lastTriggered rule with Some _ => _ | None => _ end); [done|].
  by destruct (condition rule metrics).
Qed.

Lemma alert_times_sampled samples (rule : rule_t) t :
  t ∈ alert_times samples rule -> t ∈ samples.*1.
Proof.
  revert rule. induction samples as [|[now metrics] samples IH]; intros rule; [done|].
  cbn [alert_times]. intros [Hin|Hin]%elem_of_app.
  - destruct (snd _); [|by apply elem_of_nil in Hin].
    apply list_elem_of_singleton in Hin as ->. cbn. by left.
  - cbn. right. by eapply IH.
Qed.

Lemma alert_times_after samples (rule : rule_t) triggered t :
  StronglySorted Z.le samples.*1 ->
  lastTriggered rule = Some triggered ->
  t ∈ alert_times samples rule ->
  triggered + cooldown rule <= t.
Proof.
  revert rule triggered.
  induction samples as [|[now metrics] samples IH]; intros rule triggered Hs Hlast Hin.
  { by apply elem_of_nil in Hin. }
  cbn in Hs. apply StronglySorted_inv in Hs as [Hs Hle].
  cbn [alert_times] in Hin. unfold check_rule in Hin. rewrite Hlast in Hin.
  destruct (now - triggered <? cooldown rule) eqn:Hcool.
  { cbn in Hin. by eapply IH. }
  apply Z.ltb_ge in Hcool.
  destruct (condition rule metrics); cbn [fst snd] in Hin.
  - assert (now <= t) as Hnow.
    { apply elem_of_app in Hin as [Hin|Hin].
      - apply list_elem_of_singleton in Hin. lia.
      - apply alert_times_sampled in Hin.
        by apply (proj1 (Forall_forall _ _) Hle). }
    lia.
  - cbn in Hin. by eapply IH.
Qed.

(** X30.  An alert rule never fires twice within its cooldown.  When the
    clock does not run backwards between the runs of [checkAlerts], any
    two alerts of one rule are at least its cooldown apart, whatever the
    metrics were. *)
Theorem alerts_respect_cooldown samples (rule : rule_t) :
  Sorted Z.le samples.*1 ->
  StronglySorted (fun earlier later => earlier + cooldown rule <= later)
                 (alert_times samples rule).
Proof.
  intros Hs. apply Sorted_StronglySorted in Hs; [|intros x y z; lia].
  revert rule. induction samples as [|[now metrics] samples IH]; intros rule.
  { constructor. }
  cbn in Hs. apply StronglySorted_inv in Hs as [Hs Hle].
  cbn [alert_times].
  pose proof (check_rule_cooldown now metrics rule) as Hcd.
  destruct (check_rule now metrics rule) as [rule' fired] eqn:Hchecked.
  cbn [fst snd] in *. rewrite <- Hcd.
  destruct fired; [|by apply IH].
  cbn [app]. constructor; [by apply IH|].
  apply Forall_forall. intros t Hin.
  apply (alert_times_after samples rule' now t Hs); [|done].
  unfold check_rule in Hchecked.
  destruct (match lastTriggered rule with Some _ => _ | None => _ end); [congruence|].
  destruct (condition rule metrics); [|congruence].
  by injection Hchecked as <-.
Qed.

End AlertRulesMore.

Lemma alerts_respect_cooldown_witness :
  StronglySorted (fun earlier later => earlier + 300000 <= later)
    (AlertRules.alert_times AlertRules.minute_samples AlertRules.high_memory_usage).
Proof.
  apply (alerts_respect_cooldown AlertRules.minute_samples AlertRules.high_memory_usage).
  vm_compute. repeat constructor; discriminate.
Defined.
